(** * Symbolic amplitude models: the notebooks of compwa.github.io

    The notebooks build sympy expression graphs with Python operators,
    substitute parameters and generate array functions.
    This development embeds the Python functions the notebooks define
    (docs/adr/002/composition.ipynb, docs/adr/002/function.ipynb,
    docs/report/009.ipynb, docs/symbolics.ipynb, docs/report/022.ipynb)
    and the project configuration (pyproject.toml). *)

From Stdlib Require Import ZArith QArith Reals Lra Ascii.
From Stdlib Require Lqa.
From stdpp Require Import gmap strings list fin_maps pretty.

Set Warnings "-clear-no-such-hyp".

Local Open Scope Z_scope.
Local Open Scope string_scope.

(** ** Python exceptions and fallible results *)

Inductive exn :=
  | TypeError | IndexError | NameError | ValueError
  | SyntaxError | StopIteration | IndexException.

Inductive result (A : Type) :=
  | Ok (a : A)
  | Raise (e : exn).
Arguments Ok {A} a.
Arguments Raise {A} e.

Global Instance result_ret : MRet result := λ A a, Ok a.
Global Instance result_bind : MBind result := λ A B f m,
  match m with Ok a => f a | Raise e => Raise e end.
Global Instance result_fmap : FMap result := λ A B f m,
  match m with Ok a => Ok (f a) | Raise e => Raise e end.

Definition returns {A} (m : result A) : Prop := ∃ a, m = Ok a.

(** ** Numbers

    sympy folds literals with its own number classes and the generated
    code computes with the array library's numbers.  The development is
    generic in the number domain; [npow] covers division, which sympy
    writes as a power with exponent -1.

    A sum and a product of two literals always fold into a literal.  A
    power does when [nfolds] says so: always for an integer exponent,
    while a fractional power of an exact number stays a power (sympy
    keeps [sqrt(2)] as [Pow(2, 1/2)]). *)

Class NumberDomain (num : Type) := {
  nadd : num → num → num;
  nmul : num → num → num;
  npow : num → num → num;
  nofZ : Z → num;
  nfolds : num → num → bool;
  nfolds_integer : ∀ x n, nfolds x (nofZ n) = true;
}.

(** Domains of the generated array code also have the imaginary unit
    (Python's [1j]). *)
Class ComplexDomain (num : Type) `{NumberDomain num} := {
  nimag : num;
}.

(** ** Expression graphs *)

(** Modelled from the spec: sympy's expression classes, which are
    missing from the sources: a "tree of typed nodes (symbols, numeric
    literals, n-ary operators, functions)".  The nodes are those sympy
    builds for the notebooks' formulas: symbols, number literals, the
    imaginary unit [sp.I], and the operators [Add], [Mul] and [Pow].
    [Add] and [Mul] stay binary, the way Python's operators build them;
    sympy's flattening and reordering of commutative arguments is not
    part of the model. *)

Inductive expr (num : Type) :=
  | Symbol (name : string)
  | Number (c : num)
  | ImaginaryUnit
  | Add (a b : expr num)
  | Mul (a b : expr num)
  | Pow (b e : expr num).
Arguments Symbol {num} name.
Arguments Number {num} c.
Arguments ImaginaryUnit {num}.
Arguments Add {num} a b.
Arguments Mul {num} a b.
Arguments Pow {num} b e.

Section Graph.
Context {num : Type} `{NumberDomain num}.

(** sympy's constructors, whose code is not among the sources, evaluate
    on construction: an operator applied to two number literals is
    replaced by the resulting literal (a power when the literals fold).
    This is the part of sympy's automatic evaluation that the model
    carries.  sympy simplifies further (it drops a term 0 and a factor
    1, lets a factor 0 absorb a product, collects equal terms and
    orders the arguments), so the graph it builds can be smaller than
    the model's; what is proved of a rebuilt graph is limited to what
    those further steps preserve. *)
Definition mk_add (a b : expr num) : expr num :=
  match a, b with
  | Number x, Number y => Number (nadd x y)
  | _, _ => Add a b
  end.

Definition mk_mul (a b : expr num) : expr num :=
  match a, b with
  | Number x, Number y => Number (nmul x y)
  | _, _ => Mul a b
  end.

Definition mk_pow (b e : expr num) : expr num :=
  match b, e with
  | Number x, Number y => if nfolds x y then Number (npow x y) else Pow b e
  | _, _ => Pow b e
  end.

(** Python's operators on sympy expressions: [a - b] is
    [Add(a, Mul(-1, b))] and [a / b] is [Mul(a, Pow(b, -1))]. *)
Definition expr_add (a b : expr num) : expr num := mk_add a b.
Definition expr_mul (a b : expr num) : expr num := mk_mul a b.
Definition expr_pow (a b : expr num) : expr num := mk_pow a b.
Definition expr_neg (a : expr num) : expr num :=
  mk_mul (Number (nofZ (-1))) a.
Definition expr_sub (a b : expr num) : expr num := mk_add a (expr_neg b).
Definition expr_truediv (a b : expr num) : expr num :=
  mk_mul a (mk_pow b (Number (nofZ (-1)))).

(** Python int literals are sympified to number nodes. *)
Definition Integer (n : Z) : expr num := Number (nofZ n).

(** [free_symbols] of sympy. *)
Fixpoint free_symbols (e : expr num) : gset string :=
  match e with
  | Symbol x => {[ x ]}
  | Number _ | ImaginaryUnit => ∅
  | Add a b | Mul a b | Pow a b => free_symbols a ∪ free_symbols b
  end.

(** [sympy.Function.__new__]: the class's [eval] runs on construction;
    when it returns an expression that expression is the result, when
    it returns [None] an unevaluated application of the class is
    built. *)
Inductive constructed :=
  | Evaluated (e : expr num)
  | Unevaluated (cls : string) (args : list (expr num)).

Definition Function_new (cls : string)
    (eval : list (expr num) → result (option (expr num)))
    (args : list (expr num)) : result constructed :=
  r ← eval args;
  match r with
  | Some e => Ok (Evaluated e)
  | None => Ok (Unevaluated cls args)
  end.

(** *** docs/adr/002/composition.ipynb: the dynamics as a function *)

(** [def relativistic_breit_wigner(mass, mass0, gamma0)]:
    [gamma0 * mass0 / (mass0**2 - mass**2 - gamma0 * mass0 * sp.I)] *)
Definition relativistic_breit_wigner (mass mass0 gamma0 : expr num)
  : expr num :=
  expr_truediv
    (expr_mul gamma0 mass0)
    (expr_sub
       (expr_sub (expr_pow mass0 (Integer 2)) (expr_pow mass (Integer 2)))
       (expr_mul (expr_mul gamma0 mass0) ImaginaryUnit)).

End Graph.

(** ** Python values

    The fields of [DynamicsExpression] are not checked at run time, so
    they may hold any Python object.  The kinds that occur in the
    notebooks: sympy expressions, tuples and the module-level
    functions. *)

Inductive pyfun :=
  | Fn_relativistic_breit_wigner.

Local Unset Elimination Schemes.
Inductive value (num : Type) :=
  | VExpr (e : expr num)
  | VTuple (items : list (value num))
  | VFunction (f : pyfun).
Local Set Elimination Schemes.
Arguments VExpr {num} e.
Arguments VTuple {num} items.
Arguments VFunction {num} f.

(** [@frozen class DynamicsExpression] of composition.ipynb. *)
Record DynamicsExpression (num : Type) := {
  variables : value num;
  parameters : value num;
  expression : value num;
}.
Arguments variables {num} _.
Arguments parameters {num} _.
Arguments expression {num} _.

(** What the notebooks read of a [qrules] particle. *)
Record Particle := { latex : string }.

Section Dynamics.
Context {num : Type} `{NumberDomain num}.

(** Unpacking with [*v] iterates [v]; sympy expressions and functions
    are not iterable. *)
Definition iterate (v : value num) : result (list (value num)) :=
  match v with
  | VTuple items => Ok items
  | _ => Raise TypeError
  end.

(** Calling the module-level functions.  Arity errors and arithmetic on
    tuples or functions raise [TypeError]. *)
Definition call_function (f : pyfun) (args : list (value num))
  : result (value num) :=
  match f, args with
  | Fn_relativistic_breit_wigner, [VExpr mass; VExpr mass0; VExpr gamma0] =>
      Ok (VExpr (relativistic_breit_wigner mass mass0 gamma0))
  | Fn_relativistic_breit_wigner, _ => Raise TypeError
  end.

(** [callable(v)]: functions are callable; sympy expressions (a bare
    [Symbol] included: sympy's [Symbol] defines no [__call__]) and
    tuples are not. *)
Definition callable (v : value num) : bool :=
  match v with
  | VFunction _ => true
  | _ => false
  end.

(** [v( *args )]: calling an object that is not callable raises
    [TypeError]. *)
Definition call (v : value num) (args : list (value num))
  : result (value num) :=
  match v with
  | VFunction f => call_function f args
  | _ => Raise TypeError
  end.

(** [def substitute(self)]:
    [return self.expression( *self.variables, *self.parameters )] *)
Definition substitute (self : DynamicsExpression num) : result (value num) :=
  vs ← iterate (variables self);
  ps ← iterate (parameters self);
  call (expression self) (vs ++ ps).

(** [helpers] is not among the sources: its graph type and the two
    functions the builders call are parameters. *)
Variable StateTransitionGraph : Type.
Variable EdgeProps : Type.
Variable determine_attached_final_state : StateTransitionGraph → Z → list Z.
Variable get_edge_props : StateTransitionGraph → Z → Particle * EdgeProps.

(** [def relativistic_breit_wigner_from_graph(graph, edge_id)].
    [variables=(mass)] is a parenthesised symbol, not a tuple, and
    [expression] receives the result of calling the function. *)
Definition relativistic_breit_wigner_from_graph
    (graph : StateTransitionGraph) (edge_id : Z) : DynamicsExpression num :=
  let edge_ids := determine_attached_final_state graph edge_id in
  let final_state_ids := (pretty : Z → string) <$> edge_ids in
  let mass : expr num :=
    Symbol ("m_{" +:+ String.concat "+" final_state_ids +:+ "}") in
  let '(particle, _) := get_edge_props graph edge_id in
  let mass0 : expr num := Symbol ("m_{" +:+ latex particle +:+ "}") in
  let gamma0 : expr num := Symbol ("\Gamma_{" +:+ latex particle +:+ "}") in
  {| variables := VExpr mass;
     parameters := VTuple [VExpr mass0; VExpr gamma0];
     expression := VExpr (relativistic_breit_wigner mass mass0 gamma0) |}.

(** *** docs/adr/002/function.ipynb: the dynamics as a class *)

(** [class DynamicsFunction(sp.Function)]: the interface of a dynamics
    class, an [eval] that runs on construction and a builder. *)
Class DynamicsFunction := {
  class_name : string;
  eval : list (expr num) → result (option (expr num));
  from_graph : StateTransitionGraph → Z → result (constructed (num:=num));
}.

(** [RelativisticBreitWigner.eval(cls, *args)] reads [args[0]],
    [args[1]] and [args[2]]. *)
Definition RelativisticBreitWigner_eval (args : list (expr num))
  : result (option (expr num)) :=
  match args with
  | mass :: mass0 :: gamma0 :: _ =>
      Ok (Some (expr_truediv
        (expr_mul gamma0 mass0)
        (expr_sub
           (expr_sub (expr_pow mass0 (Integer 2)) (expr_pow mass (Integer 2)))
           (expr_mul (expr_mul gamma0 mass0) ImaginaryUnit))))
  | _ => Raise IndexError
  end.

(** [RelativisticBreitWigner(mass, mass0, gamma0)] *)
Definition RelativisticBreitWigner (args : list (expr num))
  : result (constructed (num:=num)) :=
  Function_new "RelativisticBreitWigner" RelativisticBreitWigner_eval args.

(** [RelativisticBreitWigner.from_graph(cls, graph, edge_id)] *)
Definition RelativisticBreitWigner_from_graph
    (graph : StateTransitionGraph) (edge_id : Z)
  : result (constructed (num:=num)) :=
  let edge_ids := determine_attached_final_state graph edge_id in
  let final_state_ids := (pretty : Z → string) <$> edge_ids in
  let mass : expr num :=
    Symbol ("m_{" +:+ String.concat "+" final_state_ids +:+ "}") in
  let '(particle, _) := get_edge_props graph edge_id in
  let mass0 : expr num := Symbol ("m_{" +:+ latex particle +:+ "}") in
  let gamma0 : expr num := Symbol ("\Gamma_{" +:+ latex particle +:+ "}") in
  RelativisticBreitWigner [mass; mass0; gamma0].

Global Instance RelativisticBreitWigner_class : DynamicsFunction := {|
  class_name := "RelativisticBreitWigner";
  eval := RelativisticBreitWigner_eval;
  from_graph := RelativisticBreitWigner_from_graph;
|}.

(** *** The variants with a form factor

    [two_body_momentum_squared] and [blatt_weisskopf] come from
    [helpers], [sqrt] from sympy, and the spin of a particle from
    [qrules]: all four are parameters. *)
Variable two_body_momentum_squared : expr num → expr num → expr num → expr num.
Variable blatt_weisskopf : expr num → expr num → expr num → expr num.
Variable sqrt : expr num → expr num.
Variable spin : Particle → expr num.

(** [def relativistic_breit_wigner_with_form_factor(mass, mass0, gamma0,
    m_a, m_b, angular_momentum, meson_radius)] of composition.ipynb. *)
Definition relativistic_breit_wigner_with_form_factor
    (mass mass0 gamma0 m_a m_b angular_momentum meson_radius : expr num)
  : expr num :=
  let q_squared := two_body_momentum_squared mass m_a m_b in
  let q0_squared := two_body_momentum_squared mass0 m_a m_b in
  let ff2 := blatt_weisskopf q_squared meson_radius angular_momentum in
  let ff02 := blatt_weisskopf q0_squared meson_radius angular_momentum in
  let width :=
    expr_mul
      (expr_mul (expr_mul gamma0 (expr_truediv mass0 mass))
                (expr_truediv ff2 ff02))
      (sqrt (expr_truediv q_squared q0_squared)) in
  expr_mul
    (expr_mul (expr_mul (relativistic_breit_wigner mass mass0 width) mass0)
              gamma0)
    (sqrt ff2).

(** [def relativistic_breit_wigner_with_form_factor_from_graph(graph,
    edge_id)] of composition.ipynb; again [variables=(mass)]. *)
Definition relativistic_breit_wigner_with_form_factor_from_graph
    (graph : StateTransitionGraph) (edge_id : Z)
  : result (DynamicsExpression num) :=
  let edge_ids := determine_attached_final_state graph edge_id in
  let final_state_ids := (pretty : Z → string) <$> edge_ids in
  let mass : expr num :=
    Symbol ("m_{" +:+ String.concat "+" final_state_ids +:+ "}") in
  let '(particle, _) := get_edge_props graph edge_id in
  let mass0 : expr num := Symbol ("m_{" +:+ latex particle +:+ "}") in
  let gamma0 : expr num := Symbol ("\Gamma_{" +:+ latex particle +:+ "}") in
  match edge_ids with
  | id0 :: id1 :: _ =>
      let m_a : expr num := Symbol ("m_" +:+ pretty id0) in
      let m_b : expr num := Symbol ("m_" +:+ pretty id1) in
      let angular_momentum := spin particle in
      let meson_radius : expr num := Symbol ("R_{" +:+ latex particle +:+ "}") in
      Ok {| variables := VExpr mass;
            parameters :=
              VTuple [VExpr mass0; VExpr gamma0; VExpr m_a; VExpr m_b;
                      VExpr angular_momentum; VExpr meson_radius];
            expression :=
              VExpr (relativistic_breit_wigner_with_form_factor mass mass0
                       gamma0 m_a m_b angular_momentum meson_radius) |}
  | _ => Raise IndexError
  end.

(** [RelativisticBreitWignerWithFF.eval(cls, *args)] of function.ipynb:
    it multiplies [RelativisticBreitWigner(mass, mass0, width)], whose
    [eval] returns an expression; the branch for an unevaluated
    application is never taken. *)
Definition RelativisticBreitWignerWithFF_eval (args : list (expr num))
  : result (option (expr num)) :=
  match args with
  | mass :: mass0 :: gamma0 :: m_a :: m_b :: angular_momentum
      :: meson_radius :: _ =>
      let q_squared := two_body_momentum_squared mass m_a m_b in
      let q0_squared := two_body_momentum_squared mass0 m_a m_b in
      let ff2 := blatt_weisskopf q_squared meson_radius angular_momentum in
      let ff02 := blatt_weisskopf q0_squared meson_radius angular_momentum in
      let width :=
        expr_mul
          (expr_mul (expr_mul gamma0 (expr_truediv mass0 mass))
                    (expr_truediv ff2 ff02))
          (sqrt (expr_truediv q_squared q0_squared)) in
      bw ← RelativisticBreitWigner [mass; mass0; width];
      match bw with
      | Evaluated bw =>
          Ok (Some (expr_mul (expr_mul (expr_mul bw mass0) gamma0) (sqrt ff2)))
      | Unevaluated _ _ => Raise TypeError
      end
  | _ => Raise IndexError
  end.

(** [RelativisticBreitWignerWithFF(mass, mass0, gamma0, m_a, m_b,
    angular_momentum, meson_radius)] *)
Definition RelativisticBreitWignerWithFF (args : list (expr num))
  : result (constructed (num:=num)) :=
  Function_new "RelativisticBreitWignerWithFF"
    RelativisticBreitWignerWithFF_eval args.

(** [RelativisticBreitWignerWithFF.from_graph(cls, graph, edge_id)] of
    function.ipynb; [edge_ids[0]] and [edge_ids[1]] are read after the
    particle. *)
Definition RelativisticBreitWignerWithFF_from_graph
    (graph : StateTransitionGraph) (edge_id : Z)
  : result (constructed (num:=num)) :=
  let edge_ids := determine_attached_final_state graph edge_id in
  let final_state_ids := (pretty : Z → string) <$> edge_ids in
  let mass : expr num :=
    Symbol ("m_{" +:+ String.concat "+" final_state_ids +:+ "}") in
  let '(particle, _) := get_edge_props graph edge_id in
  let mass0 : expr num := Symbol ("m_{" +:+ latex particle +:+ "}") in
  let gamma0 : expr num := Symbol ("\Gamma_{" +:+ latex particle +:+ "}") in
  match edge_ids with
  | id0 :: id1 :: _ =>
      let m_a : expr num := Symbol ("m_" +:+ pretty id0) in
      let m_b : expr num := Symbol ("m_" +:+ pretty id1) in
      let angular_momentum := spin particle in
      let meson_radius : expr num := Symbol ("R_{" +:+ latex particle +:+ "}") in
      RelativisticBreitWignerWithFF
        [mass; mass0; gamma0; m_a; m_b; angular_momentum; meson_radius]
  | _ => Raise IndexError
  end.

End Dynamics.

(** *** docs/report/009.ipynb: symbol matrices *)

(** sympy's [sp.IndexedBase(label, shape=...)] and the [Indexed] elements
    that indexing it builds; sympy's code is not among the sources. *)
Record IndexedBase := { label : string; shape : list Z }.
Record Indexed := { base : IndexedBase; indices : list Z }.

(** [IndexedBase.__getitem__] with a tuple of indices: the number of
    indices has to agree with a declared shape. *)
Definition getitem (b : IndexedBase) (idx : list Z) : result Indexed :=
  if bool_decide (shape b ≠ [] ∧ length (shape b) ≠ length idx)
  then Raise IndexException
  else if bool_decide (idx = []) then Raise IndexException
  else Ok {| base := b; indices := idx |}.

(** Python's [range(n)]. *)
Definition range (n : Z) : list Z := Z.of_nat <$> seq 0 (Z.to_nat n).

(** [sp.Matrix(rows)] from a list of rows of equal length. *)
Abbreviation Matrix A := (list (list A)) (only parsing).

Definition Matrix_new {A} (rows : list (list A)) : result (Matrix A) :=
  match rows with
  | [] => Ok []
  | r :: _ =>
      if forallb (λ r', Nat.eqb (length r') (length r)) rows
      then Ok rows else Raise ValueError
  end.

Definition entry {A} (M : Matrix A) (i j : nat) : option A :=
  M !! i ≫= λ row, row !! j.

(** [def create_symbol_matrix(name: str, n: int)]:
    [symbol = sp.IndexedBase("K", shape=(n, n))] and
    [sp.Matrix([[symbol[i, j] for j in range(n)] for i in range(n)])]. *)
Definition create_symbol_matrix (name : string) (n : Z)
  : result (Matrix Indexed) :=
  let symbol := {| label := "K"; shape := [n; n] |} in
  rows ← mapM (λ i, mapM (λ j, getitem symbol [i; j]) (range n)) (range n);
  Matrix_new rows.

(** The element [K[i, j]] of the base [sp.IndexedBase("K", shape=(n, n))]. *)
Definition K_element (n i j : Z) : Indexed :=
  {| base := {| label := "K"; shape := [n; n] |}; indices := [i; j] |}.


(** sympy's [a2idx(j, n)], which a matrix applies to each index of
    [M[i, j]]: a negative index counts from the end, and an index
    outside the bounds raises [IndexError]. *)
Definition a2idx (j n : Z) : result nat :=
  let j := if (j <? 0)%Z then (j + n)%Z else j in
  if bool_decide (0 <= j < n)%Z then Ok (Z.to_nat j) else Raise IndexError.

Definition Matrix_rows {A} (M : Matrix A) : Z := Z.of_nat (length M).
Definition Matrix_cols {A} (M : Matrix A) : Z :=
  match M with
  | [] => 0
  | r :: _ => Z.of_nat (length r)
  end.

Definition Matrix_getitem {A} (M : Matrix A) (i j : Z) : result A :=
  i ← a2idx i (Matrix_rows M);
  j ← a2idx j (Matrix_cols M);
  match entry M i j with
  | Some x => Ok x
  | None => Raise IndexError
  end.

(** [relativistic_k_matrix] of 009.ipynb substitutes every [K[i, j]]:
    the keys of its dict comprehension
    [{K[i, j]: ... for i in range(n_channels) for j in range(n_channels)}],
    in the order they are produced. *)
Definition substitution_keys (K : Matrix Indexed) (n_channels : Z)
  : result (list Indexed) :=
  mjoin <$> mapM (λ i, mapM (λ j, Matrix_getitem K i j) (range n_channels))
                 (range n_channels).

(** *** docs/report/022.ipynb: free and fixed parameters

    [model.parameter_defaults] is a dict from symbols to values; a dict
    keeps its keys in insertion order, so it is a list of pairs.  The
    cell keeps as free the symbols whose name does not start with "d",
    removes the first one whose name starts with "C" (there has to be
    one), and fixes every symbol that is not free. *)
Section Parameters.
Context {V : Type}.

Definition startswith (s p : string) : bool := String.prefix p s.

(** [{symbol: value for symbol, value in parameter_defaults.items()
      if not symbol.name.startswith("d")}] *)
Definition without_d (parameter_defaults : list (string * V))
  : list (string * V) :=
  filter (λ kv, startswith kv.1 "d" = false) parameter_defaults.

(** [next(s for s in free_symbols if s.name.startswith("C"))] *)
Definition some_coefficient (free_symbols : list (string * V)) : result string :=
  match filter (λ kv, startswith kv.1 "C" = true) free_symbols with
  | kv :: _ => Ok kv.1
  | [] => Raise StopIteration
  end.

(** [free_symbols.pop(key)] *)
Definition pop (key : string) (d : list (string * V)) : list (string * V) :=
  filter (λ kv, kv.1 ≠ key) d.

(** The cell: the pair [(free_symbols, fixed_symbols)] it leaves. *)
Definition split_parameters (parameter_defaults : list (string * V))
  : result (list (string * V) * list (string * V)) :=
  let free_symbols := without_d parameter_defaults in
  c ← some_coefficient free_symbols;
  let free_symbols := pop c free_symbols in
  let fixed_symbols :=
    filter (λ kv, kv.1 ∉ free_symbols.*1) parameter_defaults in
  Ok (free_symbols, fixed_symbols).

End Parameters.
(** ** The symbolic-to-numeric pipeline (docs/symbolics.ipynb, docs/report/022.ipynb)

    The notebooks call sympy's [subs] / [xreplace] and [lambdify]
    (tensorwaves' [create_function] wraps the latter); their code is
    not in the repository. *)

Section Substitution.
Context {num : Type} `{NumberDomain num}.

(** Modelled from the spec: sympy's [xreplace], which is missing from
    the sources.  "Produces a new graph with designated symbols
    replaced by constants or sub-graphs, collapsing any resulting
    constant-only subtrees": every designated symbol is replaced by its
    image, all at once, and an operator is rebuilt by its evaluating
    constructor when one of its arguments has changed; a subtree
    without a designated symbol is returned as it is.  The flag tells
    whether a replacement took place. *)
Fixpoint xreplace_flagged (rule : gmap string (expr num)) (e : expr num)
  : expr num * bool :=
  match e with
  | Symbol x =>
      match rule !! x with
      | Some v => (v, true)
      | None => (e, false)
      end
  | Number _ | ImaginaryUnit => (e, false)
  | Add a b =>
      let '(a', changed_a) := xreplace_flagged rule a in
      let '(b', changed_b) := xreplace_flagged rule b in
      if changed_a || changed_b then (mk_add a' b', true) else (e, false)
  | Mul a b =>
      let '(a', changed_a) := xreplace_flagged rule a in
      let '(b', changed_b) := xreplace_flagged rule b in
      if changed_a || changed_b then (mk_mul a' b', true) else (e, false)
  | Pow a b =>
      let '(a', changed_a) := xreplace_flagged rule a in
      let '(b', changed_b) := xreplace_flagged rule b in
      if changed_a || changed_b then (mk_pow a' b', true) else (e, false)
  end.

Definition xreplace (rule : gmap string (expr num)) (e : expr num) : expr num :=
  (xreplace_flagged rule e).1.

(** Modelled from the spec: sympy's [subs] with a dict from symbols to
    numbers, as the notebook calls it; the numbers are sympified to
    number nodes. *)
Definition subs (valuation : gmap string num) (e : expr num) : expr num :=
  xreplace (Number <$> valuation) e.

(** Subtrees of a graph. *)
Inductive subtree : expr num → expr num → Prop :=
  | subtree_refl e : subtree e e
  | subtree_Add_l s a b : subtree s a → subtree s (Add a b)
  | subtree_Add_r s a b : subtree s b → subtree s (Add a b)
  | subtree_Mul_l s a b : subtree s a → subtree s (Mul a b)
  | subtree_Mul_r s a b : subtree s b → subtree s (Mul a b)
  | subtree_Pow_l s a b : subtree s a → subtree s (Pow a b)
  | subtree_Pow_r s a b : subtree s b → subtree s (Pow a b).

(** A graph built from number literals by sums, products and integer
    powers: arithmetic that evaluates to a number whatever the literals
    are. *)
Fixpoint numeric (e : expr num) : Prop :=
  match e with
  | Number _ => True
  | Symbol _ | ImaginaryUnit => False
  | Add a b | Mul a b => numeric a ∧ numeric b
  | Pow a b => numeric a ∧ ∃ n : Z, b = Number (nofZ n)
  end.

(** Every such subtree is a single number node. *)
Definition collapsed (e : expr num) : Prop :=
  ∀ s, subtree s e → numeric s → ∃ c, s = Number c.

(** A graph all of whose leaves are number literals, whatever its
    operators. *)
Fixpoint number_leaves (e : expr num) : bool :=
  match e with
  | Number _ => true
  | Symbol _ | ImaginaryUnit => false
  | Add a b | Mul a b | Pow a b => number_leaves a && number_leaves b
  end.

(** Every subtree without a free symbol is a single number node. *)
Definition constants_collapsed (e : expr num) : Prop :=
  ∀ s, subtree s e → free_symbols s = ∅ → ∃ c, s = Number c.

End Substitution.

(** Modelled from the spec: the arrays of the numerical backend (numpy),
    which is missing from the sources.  A value is a scalar or a
    one-dimensional array of floating-point or complex numbers; an
    operation between the two applies element-wise, a scalar or an
    array of length one being repeated. *)
Inductive ndarray (num : Type) :=
  | Scalar (c : num)
  | Array (items : list num).
Arguments Scalar {num} c.
Arguments Array {num} items.

(** Modelled from the spec: the source text that [lambdify] emits, which
    is missing from the sources: an arithmetic expression over the
    argument names.  sympy prints a power with exponent -1 as a
    division and a product with -1 as a subtraction; the code keeps
    the power and the product they stand for. *)
Inductive npcode (num : Type) :=
  | NpName (x : string)
  | NpConst (c : num)
  | NpImag
  | NpAdd (a b : npcode num)
  | NpMul (a b : npcode num)
  | NpPow (a b : npcode num).
Arguments NpName {num} x.
Arguments NpConst {num} c.
Arguments NpImag {num}.
Arguments NpAdd {num} a b.
Arguments NpMul {num} a b.
Arguments NpPow {num} a b.

(** The generated function: its parameter names and its body. *)
Record lambda (num : Type) := {
  params : list string;
  body : npcode num;
}.
Arguments params {num} _.
Arguments body {num} _.

Section CodeGeneration.
Context {num : Type} `{ComplexDomain num}.

(** The value of a formula at one point, computed with the numbers of
    the numerical backend. *)
Fixpoint evalf (env : gmap string num) (e : expr num) : result num :=
  match e with
  | Symbol x =>
      match env !! x with Some c => Ok c | None => Raise NameError end
  | Number c => Ok c
  | ImaginaryUnit => Ok nimag
  | Add a b => x ← evalf env a; y ← evalf env b; Ok (nadd x y)
  | Mul a b => x ← evalf env a; y ← evalf env b; Ok (nmul x y)
  | Pow a b => x ← evalf env a; y ← evalf env b; Ok (npow x y)
  end.

(** Modelled from the spec: the backend's "whole-array operations":
    element-wise application with broadcasting. *)
Definition broadcast2 (f : num → num → num) (x y : ndarray num)
  : result (ndarray num) :=
  match x, y with
  | Scalar a, Scalar b => Ok (Scalar (f a b))
  | Scalar a, Array l => Ok (Array (f a <$> l))
  | Array l, Scalar b => Ok (Array ((λ a, f a b) <$> l))
  | Array l1, Array l2 =>
      if Nat.eqb (length l1) (length l2) then Ok (Array (zip_with f l1 l2))
      else match l1, l2 with
           | [a], _ => Ok (Array (f a <$> l2))
           | _, [b] => Ok (Array ((λ a, f a b) <$> l1))
           | _, _ => Raise ValueError
           end
  end.

(** Modelled from the spec: the code printer of [lambdify]: it "walks a
    graph and emits [...] source text". *)
Fixpoint numpy_code (e : expr num) : npcode num :=
  match e with
  | Symbol x => NpName x
  | Number c => NpConst c
  | ImaginaryUnit => NpImag
  | Add a b => NpAdd (numpy_code a) (numpy_code b)
  | Mul a b => NpMul (numpy_code a) (numpy_code b)
  | Pow a b => NpPow (numpy_code a) (numpy_code b)
  end.

(** Modelled from the spec: running the emitted code on arrays: names
    are looked up among the arguments, literals are scalars, operators
    act on whole arrays.  An operation with an array operand never
    raises: where it is undefined the array library stores a special
    value, which is one of the numbers of the domain.  Between two
    Python scalars a power or a division can raise instead
    ([ZeroDivisionError], [OverflowError]); the model gives the
    domain's value there too, so that it returns is only relied on
    where an array takes part in every power. *)
Fixpoint run (env : gmap string (ndarray num)) (c : npcode num)
  : result (ndarray num) :=
  match c with
  | NpName x =>
      match env !! x with Some v => Ok v | None => Raise NameError end
  | NpConst c => Ok (Scalar c)
  | NpImag => Ok (Scalar nimag)
  | NpAdd a b => x ← run env a; y ← run env b; broadcast2 nadd x y
  | NpMul a b => x ← run env a; y ← run env b; broadcast2 nmul x y
  | NpPow a b => x ← run env a; y ← run env b; broadcast2 npow x y
  end.

(** Modelled from the spec: [sp.lambdify(args, expr, modules="numpy")],
    which is missing from the sources: it "emits a callable numerical
    function".  Python refuses a function with a repeated parameter
    name. *)
Definition lambdify (args : list string) (e : expr num) : result (lambda num) :=
  if bool_decide (NoDup args)
  then Ok {| params := args; body := numpy_code e |}
  else Raise SyntaxError.

(** Modelled from the spec: calling the generated function with
    positional arguments, as Python binds them. *)
Definition call_lambda (f : lambda num) (inputs : list (ndarray num))
  : result (ndarray num) :=
  if Nat.eqb (length inputs) (length (params f))
  then run (list_to_map (zip (params f) inputs)) (body f)
  else Raise TypeError.

(** The element of an input that takes part in the computation of the
    [i]-th output: a scalar is the same for every [i]. *)
Definition element (v : ndarray num) (i : nat) : option num :=
  match v with
  | Scalar c => Some c
  | Array l => l !! i
  end.

(** The arguments of the [i]-th point. *)
Definition point (env : gmap string (ndarray num)) (i : nat)
  : gmap string num :=
  omap (λ v, element v i) env.

(** An input usable with arrays of length [n]. *)
Definition fits (n : nat) (v : ndarray num) : Prop :=
  match v with
  | Scalar _ => True
  | Array l => length l = n
  end.

Definition is_array (v : ndarray num) : bool :=
  match v with Array _ => true | Scalar _ => false end.

(** The argument [x] is bound to an array. *)
Definition array_valued (env : gmap string (ndarray num)) (x : string)
  : Prop :=
  ∃ a, env !! x = Some a ∧ is_array a = true.

End CodeGeneration.

(** ** The project configuration (pyproject.toml) *)

(** [[tool.pytest.ini_options]] *)
Record pytest_ini_options := {
  addopts : list string;
  filterwarnings : list string;
  norecursedirs : list string;
  testpaths : list string;
}.

Definition tool_pytest_ini_options : pytest_ini_options := {|
  addopts := [
    "--color=yes";
    "--doctest-continue-on-failure";
    "--doctest-modules";
    "--durations=0";
    "--ignore-glob=*/.ipynb_checkpoints/*";
    "--ignore=docs/adr/001/sympy.ipynb";
    "--ignore=docs/conf.py";
    "--nbmake-timeout=1200";
    "-k not docs/report/019.ipynb"
  ];
  filterwarnings := [
    "error";
    "ignore:Passing a schema to Validator.iter_errors is deprecated.*:DeprecationWarning";
    "ignore:The .* argument to NotebookFile is deprecated.*:pytest.PytestRemovedIn8Warning";
    "ignore:open_text is deprecated.*:DeprecationWarning";
    "ignore:read_text is deprecated.*:DeprecationWarning";
    "ignore:unclosed .*:ResourceWarning"
  ];
  norecursedirs := [
    ".ipynb_checkpoints";
    ".virtual_documents";
    "_build";
    "docs/adr"
  ];
  testpaths := [
    ".pre-commit";
    "docs"
  ];
|}.

(** [[tool.setuptools_scm]]: the package build writes the version of
    the checkout into the file that [write_to] names. *)
Record setuptools_scm_options := { write_to : string }.

Definition tool_setuptools_scm : setuptools_scm_options :=
  {| write_to := "version.py" |}.

(** *** Paths and patterns *)

(** A path relative to the repository root, by its components. *)
Definition render (p : list string) : string := String.concat "/" p.

(** Python's [fnmatch]: [*] matches any run of characters, the
    separator included, [?] one character, any other character
    itself (the configuration uses no bracket pattern). *)
Fixpoint fnmatch_chars (p s : list ascii) {struct p} : bool :=
  match p with
  | [] => match s with [] => true | _ => false end
  | c :: p' =>
      if Ascii.eqb c "*" then
        (fix star (s : list ascii) : bool :=
           fnmatch_chars p' s
           || match s with [] => false | _ :: s' => star s' end) s
      else
        match s with
        | [] => false
        | c' :: s' =>
            (Ascii.eqb c "?" || Ascii.eqb c c') && fnmatch_chars p' s'
        end
  end.

(** A pattern without wildcard. *)
Definition literal (p : list ascii) : Prop :=
  Forall (λ c, Ascii.eqb c "*" = false ∧ Ascii.eqb c "?" = false) p.

Definition fnmatch (name pattern : string) : bool :=
  fnmatch_chars (String.list_ascii_of_string pattern) (String.list_ascii_of_string name).

Definition has_separator (s : string) : bool :=
  existsb (Ascii.eqb "/") (String.list_ascii_of_string s).

(** pytest's [fnmatch_ex pattern path] on the absolute path of the
    directory [dir] under [root]: a pattern without separator is
    matched against the base name, one with a separator against the
    whole path, after [*/] is put before it. *)
Definition fnmatch_ex (pattern root : string) (dir : list string) : bool :=
  if has_separator pattern
  then fnmatch (root +:+ "/" +:+ render dir) ("*/" +:+ pattern)
  else fnmatch (List.last dir "") pattern.

(** *** Command-line options *)

Fixpoint strip_prefix (p s : string) : option string :=
  match p, s with
  | EmptyString, _ => Some s
  | String a p', String b s' =>
      if Ascii.eqb a b then strip_prefix p' s' else None
  | String _ _, EmptyString => None
  end.

Fixpoint lstrip (s : string) : string :=
  match s with
  | String c s' => if Ascii.eqb c " " then lstrip s' else s
  | EmptyString => EmptyString
  end.

Definition option_values (flag : string) (opts : list string) : list string :=
  omap (strip_prefix flag) opts.

(** The [-k] expressions the configuration needs: a name, or [not]
    before a name. *)
Inductive keyword_expression :=
  | KName (s : string)
  | KNot (e : keyword_expression).

Definition parse_keyword (s : string) : keyword_expression :=
  match strip_prefix "not " (lstrip s) with
  | Some rest => KNot (KName (lstrip rest))
  | None => KName (lstrip s)
  end.

Definition lower_ascii (c : ascii) : ascii :=
  let n := nat_of_ascii c in
  if (65 <=? n)%nat && (n <=? 90)%nat then ascii_of_nat (n + 32) else c.

Fixpoint lower (s : string) : string :=
  match s with
  | String c s' => String (lower_ascii c) (lower s')
  | EmptyString => EmptyString
  end.

Fixpoint is_prefix_chars (p s : list ascii) : bool :=
  match p, s with
  | [], _ => true
  | a :: p', b :: s' => Ascii.eqb a b && is_prefix_chars p' s'
  | _ :: _, [] => false
  end.

Fixpoint is_substring_chars (p s : list ascii) : bool :=
  is_prefix_chars p s
  || match s with [] => false | _ :: s' => is_substring_chars p s' end.

(** A name matches when it occurs, case-insensitively, inside one of
    the item's names. *)
Definition name_matches (s : string) (names : list string) : bool :=
  existsb (λ n, is_substring_chars (String.list_ascii_of_string (lower s))
                                   (String.list_ascii_of_string (lower n))) names.

Fixpoint keyword_selects (e : keyword_expression) (names : list string) : bool :=
  match e with
  | KName s => name_matches s names
  | KNot e' => negb (keyword_selects e' names)
  end.

(** *** Collection of the notebooks

    pytest's rules (version 7, whose [PytestRemovedIn8Warning] the
    configuration filters) and those of its notebook plugin nbmake,
    read with the options of the configuration; pytest and nbmake
    themselves are not part of the repository.  A path is given by its
    components, relative to the repository root; [root] is the
    absolute path of the directory pytest is started in, the root of
    the checkout. *)

(** [s.endswith(suffix)] *)
Fixpoint has_suffix (suffix s : string) : bool :=
  String.eqb suffix s
  || match s with
     | String _ s' => has_suffix suffix s'
     | EmptyString => false
     end.

(** A notebook of the repository: a file with the extension
    [.ipynb]. *)
Definition is_notebook (p : list string) : bool :=
  has_suffix ".ipynb" (render p).

(** The components of a path written with [/]. *)
Fixpoint path_parts (s : string) : list string :=
  match s with
  | EmptyString => [EmptyString]
  | String c s' =>
      if Ascii.eqb c "/" then EmptyString :: path_parts s'
      else match path_parts s' with
           | x :: xs => String c x :: xs
           | [] => [String c EmptyString]
           end
  end.

(** nbmake's [pytest_collect_file]: with the flag [--nbmake], a file
    is a notebook to run when
    [p.match("*ipynb") and "_build" not in p.parts], where [p] is the
    absolute path of the file. *)
Definition nbmake_collects (root : string) (p : list string) : bool :=
  has_suffix "ipynb" (List.last p "")
  && negb (existsb (String.eqb "_build") (path_parts root ++ p)).

(** The options in force: [addopts], then the command line. *)
Definition options (cfg : pytest_ini_options) (command_line : list string)
  : list string :=
  addopts cfg ++ command_line.

(** [--ignore] and [--ignore-glob].  pytest makes the option and the
    path absolute with the same prefix before it compares them; the
    comparison is that of the relative ones. *)
Definition ignored (opts : list string) (p : list string) : bool :=
  existsb (String.eqb (render p)) (option_values "--ignore=" opts)
  || existsb (fnmatch (render p)) (option_values "--ignore-glob=" opts).

Definition norecurse (cfg : pytest_ini_options) (root : string)
    (dir : list string) : bool :=
  existsb (λ pattern, fnmatch_ex pattern root dir) (norecursedirs cfg).

(** pytest's [Session._recurse]: a directory is entered unless it is
    named [__pycache__], is ignored, holds a virtual environment
    ([in_venv]: pytest looks for an activation script inside the
    directory, a fact of the file tree), or matches one of
    [norecursedirs]. *)
Definition recurse (cfg : pytest_ini_options) (root : string)
    (in_venv : list string → bool) (opts : list string)
    (dir : list string) : bool :=
  negb (String.eqb (List.last dir "") "__pycache__")
  && negb (ignored opts dir)
  && negb (in_venv dir)
  && negb (norecurse cfg root dir).

(** The directories between the test path [tp] and the file [p], the
    ones pytest has to enter. *)
Definition directories_below (tp p : list string) : list (list string) :=
  (λ k, take k p) <$> seq (S (length tp)) (length p - length tp - 1).

Definition is_proper_prefix (tp p : list string) : bool :=
  (length tp <? length p)%nat && bool_decide (take (length tp) p = tp).

(** A notebook is collected when the notebook plugin is switched on
    (the flag [--nbmake]) and takes the file, the file lies under a
    test path, pytest enters every directory on the way, and the file
    is not ignored itself. *)
Definition collected (cfg : pytest_ini_options) (root : string)
    (in_venv : list string → bool)
    (command_line : list string) (p : list string) : bool :=
  let opts := options cfg command_line in
  existsb (String.eqb "--nbmake") opts && nbmake_collects root p
  && existsb (λ tp,
       let tp := [tp] in
       is_proper_prefix tp p
       && forallb (recurse cfg root in_venv opts) (directories_below tp p)
       && negb (ignored opts p))
     (testpaths cfg).

(** The [-k] option in force: the last one given. *)
Definition keyword (opts : list string) : option keyword_expression :=
  parse_keyword <$> last (option_values "-k" opts).

(** The names a notebook's test item is known by: the path of its file
    relative to the root and its own, empty, name (later versions of
    pytest name the file by its base name). *)
Definition selected (opts : list string) (p : list string) : bool :=
  match keyword opts with
  | Some e => keyword_selects e [render p; ""]
  | None => true
  end.

(** The notebooks that a test run executes. *)
Definition tested (cfg : pytest_ini_options) (root : string)
    (in_venv : list string → bool)
    (command_line : list string) (p : list string) : bool :=
  collected cfg root in_venv command_line p
  && selected (options cfg command_line) p.

(** The command line of a notebook test run. *)
Definition nbmake_run : list string := ["--nbmake"].

(** *** Files written

    docs/report/009.ipynb, first code cell:
    [STATIC_WEB_PAGE = {"EXECUTE_NB", "READTHEDOCS"}.intersection(os.environ)],
    the names of the two variables that the environment defines. *)
Definition STATIC_WEB_PAGE (environ : gmap string string) : gset string :=
  {[ "EXECUTE_NB"; "READTHEDOCS" ]} ∩ dom environ.

(** docs/report/009.ipynb, last code cell:
    [if STATIC_WEB_PAGE:]
    [    output_file = "009-relativistic-K-matrix-n1-r2.png"]
    [    plt.savefig(output_file, dpi=150)]
    [    display(Image(output_file))].
    A set is true when it is not empty.  The result lists the files
    that the cell writes, relative to the directory of the notebook. *)
Definition output_file : string := "009-relativistic-K-matrix-n1-r2.png".

Definition save_static_figure (environ : gmap string string) : list string :=
  if bool_decide (STATIC_WEB_PAGE environ ≠ ∅) then [output_file] else [].

(** The operations of the build and test configuration that the
    sources direct to write a file: the package build, and the
    execution of report 009, which a notebook test run includes, in a
    given environment. *)
Inductive configured_operation :=
  | BuildPackage
  | ExecuteReport009 (environ : gmap string string).

(** The files that the sources direct an operation to write, relative
    to the root of the repository.  The tools write further files on
    their own account (build directories, packaging metadata, caches);
    those are not decided by the repository and are left out. *)
Definition directed_writes (scm : setuptools_scm_options)
    (op : configured_operation) : list string :=
  match op with
  | BuildPackage => [write_to scm]
  | ExecuteReport009 environ =>
      (λ file, "docs/report/" +:+ file) <$> save_static_figure environ
  end.

(** Documentation sources: notebooks, markdown and TOML files. *)
Definition is_documentation_source (path : string) : bool :=
  has_suffix ".ipynb" path || has_suffix ".md" path || has_suffix ".toml" path.

(** Produced static pages: what the documentation build leaves under
    [docs/_build]. *)
Definition is_static_page (path : string) : bool :=
  match strip_prefix "docs/_build/" path with
  | Some _ => true
  | None => false
  end.
(** ** An exact number domain for worked examples

    Complex numbers with rational parts, with an explicit undefined
    value for division by zero and for powers that are not rational.
    The notebooks' float literals are read as the decimal fractions
    they are written as. *)

Inductive gnum :=
  | Finite (re im : Q)
  | Undefined.

Definition g_add (x y : gnum) : gnum :=
  match x, y with
  | Finite a b, Finite c d => Finite (Qred (a + c)) (Qred (b + d))
  | _, _ => Undefined
  end.

Definition g_mul (x y : gnum) : gnum :=
  match x, y with
  | Finite a b, Finite c d =>
      Finite (Qred (a * c - b * d)) (Qred (a * d + b * c))
  | _, _ => Undefined
  end.

Definition g_inv (x : gnum) : gnum :=
  match x with
  | Finite a b =>
      let n := (a * a + b * b)%Q in
      if Qeq_bool n 0 then Undefined
      else Finite (Qred (a / n)) (Qred (- b / n))
  | Undefined => Undefined
  end.

Definition g_one : gnum := Finite 1 0.

Definition g_pow (x y : gnum) : gnum :=
  match x, y with
  | Finite _ _, Finite e i =>
      if Qeq_bool i 0 && Pos.eqb (Qden (Qred e)) 1 then
        match Qnum (Qred e) with
        | Z0 => g_one
        | Zpos p => Pos.iter (g_mul x) g_one p
        | Zneg p => g_inv (Pos.iter (g_mul x) g_one p)
        end
      else Undefined
  | _, _ => Undefined
  end.

(** An exact power folds when its exponent is an integer. *)
Definition g_folds (x y : gnum) : bool :=
  match x, y with
  | Finite _ _, Finite e i =>
      Qeq_bool i 0 && (Qnum e mod Z.pos (Qden e) =? 0)%Z
  | _, _ => true
  end.

Global Instance gnum_domain : NumberDomain gnum.
Proof.
  refine {| nadd := g_add; nmul := g_mul; npow := g_pow;
            nofZ := λ n, Finite (inject_Z n) 0; nfolds := g_folds |}.
  intros [re im|] n; [|reflexivity]. unfold g_folds. simpl.
  by rewrite Z.mod_1_r.
Defined.

Global Instance gnum_complex : ComplexDomain gnum := {|
  nimag := Finite 0 1;
|}.

(** A decimal literal [n / d]. *)
Definition Float (q : Q) : expr gnum := Number (Finite (Qred q) 0).

(** The notebook's [bw_decay_f0]. *)
Definition bw_decay_f0 : DynamicsExpression gnum := {|
  variables := VTuple [VExpr (Symbol "m_3+4")];
  parameters :=
    VTuple [VExpr (Symbol "m_f(0)(980)"); VExpr (Symbol "\Gamma_f(0)(980)")];
  expression := VFunction Fn_relativistic_breit_wigner;
|}.


(** A Python float literal, read exactly. *)
Definition decimal (q : Q) : gnum := Finite (Qred q) 0.

(** *** docs/symbolics.ipynb *)
Module Symbolics.

(** [expression = g * m0 * Γ0 / (m0**2 - s - sp.I * Γ0 * m0)] *)
Definition expression : expr gnum :=
  let s := Symbol "s" in
  let m0 := Symbol "m0" in
  let Γ0 := Symbol "Gamma0" in
  let g := Symbol "g" in
  expr_truediv
    (expr_mul (expr_mul g m0) Γ0)
    (expr_sub (expr_sub (expr_pow m0 (Integer 2)) s)
              (expr_mul (expr_mul ImaginaryUnit Γ0) m0)).

(** The dict [{m0: 0.980, Γ0: 0.06, g: 1}]. *)
Definition parameter_values : list (string * gnum) :=
  [("m0", decimal (980 # 1000)); ("Gamma0", decimal (6 # 100));
   ("g", decimal 1)].

(** [substituted_expr = expression.subs({m0: 0.980, Γ0: 0.06, g: 1})] *)
Definition substituted_expr : expr gnum :=
  subs (list_to_map parameter_values) expression.

(** [full_func = sp.lambdify(args=(s, m0, Γ0, g), expr=expression,
    modules="numpy")] *)
Definition full_func : result (lambda gnum) :=
  lambdify ["s"; "m0"; "Gamma0"; "g"] expression.

(** [substituted_func = sp.lambdify(args=s, expr=substituted_expr,
    modules="numpy")] *)
Definition substituted_func : result (lambda gnum) :=
  lambdify ["s"] substituted_expr.

End Symbolics.

(** Sample inputs for the generated functions: the array [s] and the
    parameter values passed as scalars. *)
Definition sample_s : ndarray gnum :=
  Array [decimal (9 # 10); decimal 1; decimal (11 # 10)].

Definition sample_inputs : list (ndarray gnum) :=
  [sample_s; Scalar (decimal (980 # 1000)); Scalar (decimal (6 # 100));
   Scalar (decimal 1)].
(** ** More of the notebooks' code *)

(** *** Python lists, slices and dicts *)

(** [l[i]] on a list or a one-dimensional array: a negative index
    counts from the end, an index outside the bounds raises
    [IndexError]. *)
Definition list_getitem {A} (l : list A) (i : Z) : result A :=
  let n := Z.of_nat (length l) in
  let i := if (i <? 0)%Z then (i + n)%Z else i in
  if ((0 <=? i) && (i <? n))%Z then
    match l !! Z.to_nat i with
    | Some x => Ok x
    | None => Raise IndexError
    end
  else Raise IndexError.

(** The bound of a slice: a negative bound counts from the end, and a
    bound outside the list is clipped to it. *)
Definition slice_bound (n i : Z) : Z :=
  let i := if (i <? 0)%Z then (i + n)%Z else i in
  Z.max 0 (Z.min n i).

(** [l[start:stop]] *)
Definition slice {A} (l : list A) (start stop : Z) : list A :=
  let n := Z.of_nat (length l) in
  let a := slice_bound n start in
  let b := slice_bound n stop in
  take (Z.to_nat (b - a)) (drop (Z.to_nat a) l).

(** A dict keeps its keys in insertion order.  [d[k] = v] on a key
    that is present updates the value where the key stands; on a new
    key it adds the pair at the end. *)
Fixpoint dict_setitem {V} (d : list (string * V)) (k : string) (v : V)
  : list (string * V) :=
  match d with
  | [] => [(k, v)]
  | (k', v') :: d' =>
      if String.eqb k k' then (k', v) :: d'
      else (k', v') :: dict_setitem d' k v
  end.

(** [d.get(k)]; [k in d] is [is_Some] of it. *)
Fixpoint dict_get {V} (d : list (string * V)) (k : string) : option V :=
  match d with
  | [] => None
  | (k', v) :: d' => if String.eqb k k' then Some v else dict_get d' k
  end.

(** Every character of a string passes a test. *)
Fixpoint string_forall (P : ascii → bool) (s : string) : bool :=
  match s with
  | EmptyString => true
  | String c s' => P c && string_forall P s'
  end.

Definition is_digit (c : ascii) : bool :=
  ((48 <=? nat_of_ascii c) && (nat_of_ascii c <=? 57))%nat.

(** A loop whose body can raise: the first exception ends it. *)
Fixpoint for_each {A B} (f : B → A → result B) (b : B) (l : list A)
  : result B :=
  match l with
  | [] => Ok b
  | x :: l' => b' ← f b x; for_each f b' l'
  end.

(** *** docs/report/009.ipynb: the phase space matrix *)

(** An instance of [class PhaseSpaceFactor(UnevaluatedExpression)]:
    [__new__] is called with [evaluate=False], so the instance holds
    its four arguments. *)
Record PhaseSpaceFactor (num : Type) := {
  psf_s : expr num;
  psf_m_a : Indexed;
  psf_m_b : Indexed;
  psf_i : Z;
}.
Arguments psf_s {num} _.
Arguments psf_m_a {num} _.
Arguments psf_m_b {num} _.
Arguments psf_i {num} _.

(** The entries of [rho]: the zero that [sp.zeros] fills in, or a
    phase space factor. *)
Inductive rho_entry (num : Type) :=
  | Zero
  | Factor (f : PhaseSpaceFactor num).
Arguments Zero {num}.
Arguments Factor {num} f.

(** [sp.zeros(rows, cols)]: a negative dimension raises
    [ValueError]. *)
Definition zeros {A} (zero : A) (rows cols : Z) : result (Matrix A) :=
  if ((rows <? 0) || (cols <? 0))%Z then Raise ValueError
  else Ok (replicate (Z.to_nat rows) (replicate (Z.to_nat cols) zero)).

(** [M[i, j] = v] on a mutable matrix: negative indices count from the
    end, an index outside the matrix raises [IndexError]. *)
Definition Matrix_setitem {A} (M : Matrix A) (i j : Z) (v : A)
  : result (Matrix A) :=
  let rows := Z.of_nat (length M) in
  let i := if (i <? 0)%Z then (i + rows)%Z else i in
  if ((0 <=? i) && (i <? rows))%Z then
    match M !! Z.to_nat i with
    | Some row =>
        let cols := Z.of_nat (length row) in
        let j := if (j <? 0)%Z then (j + cols)%Z else j in
        if ((0 <=? j) && (j <? cols))%Z
        then Ok (<[Z.to_nat i := <[Z.to_nat j := v]> row]> M)
        else Raise IndexError
    | None => Raise IndexError
    end
  else Raise IndexError.

Section PhaseSpace.
Context {num : Type} `{NumberDomain num}.

(** The first lines of [relativistic_k_matrix]:
    [rho = sp.zeros(n_channels, n_channels)] and
    [for i in range(n_channels):
       rho[i, i] = PhaseSpaceFactor(m ** 2, m_a[i], m_b[i], i)],
    with [m_a] and [m_b] the indexed bases of shape [(n_channels,)]
    that the function defines. *)
Definition phase_space_matrix (n_channels : Z)
  : result (Matrix (rho_entry num)) :=
  let m : expr num := Symbol "m" in
  let m_a := {| label := "m_a"; shape := [n_channels] |} in
  let m_b := {| label := "m_b"; shape := [n_channels] |} in
  rho ← zeros Zero n_channels n_channels;
  for_each
    (λ rho i,
       a ← getitem m_a [i];
       b ← getitem m_b [i];
       Matrix_setitem rho i i
         (Factor {| psf_s := expr_pow m (Integer 2);
                    psf_m_a := a; psf_m_b := b; psf_i := i |}))
    rho (range n_channels).

(** The phase space factor that the loop stores for channel [i]. *)
Definition channel_factor (n_channels i : Z) : rho_entry num :=
  Factor {| psf_s := expr_pow (Symbol "m") (Integer 2);
            psf_m_a := {| base := {| label := "m_a"; shape := [n_channels] |};
                          indices := [i] |};
            psf_m_b := {| base := {| label := "m_b"; shape := [n_channels] |};
                          indices := [i] |};
            psf_i := i |}.

(** The state of [rho] after [k] rounds of the loop. *)
Definition filled (n k : nat) (rho : Matrix (rho_entry num)) : Prop :=
  length rho = n
  ∧ Forall (λ row, length row = n) rho
  ∧ ∀ i j : nat, (i < n)%nat → (j < n)%nat →
      entry rho i j
      = Some (if decide (i = j ∧ (i < k)%nat)
              then channel_factor (Z.of_nat n) (Z.of_nat i) else Zero).

End PhaseSpace.

(** *** docs/report/009.ipynb: indexed symbols as plain symbols *)

(** Python's [str.rpartition(sep)] for a one-character separator: the
    text before the last separator, the separator, and the text after
    it; without a separator, two empty strings and the whole text. *)
Fixpoint rpartition_last (sep : ascii) (s : string) : option (string * string) :=
  match s with
  | EmptyString => None
  | String c s' =>
      match rpartition_last sep s' with
      | Some (h, t) => Some (String c h, t)
      | None => if Ascii.eqb c sep then Some (EmptyString, s') else None
      end
  end.

Definition rpartition (s : string) (sep : ascii) : string * string * string :=
  match rpartition_last sep s with
  | Some (h, t) => (h, String sep EmptyString, t)
  | None => (EmptyString, EmptyString, s)
  end.

(** [str(idx)] of an indexed symbol with integer indices: sympy prints
    the label of the base, then the indices between brackets,
    separated by a comma and a space. *)
Definition Indexed_str (idx : Indexed) : string :=
  label (base idx) +:+ "["
    +:+ String.concat ", " ((pretty : Z → string) <$> indices idx) +:+ "]".

(** [def to_symbol(idx: sp.Indexed) -> sp.Symbol], by the name of the
    symbol it returns.  The branch for more than one index calls
    [translate], a name that the notebook neither imports nor defines:
    evaluating it raises [NameError]. *)
Definition to_symbol (idx : Indexed) : result string :=
  let '(base_name, _, _) := rpartition (Indexed_str idx) "[" in
  let subscript := String.concat "," ((pretty : Z → string) <$> indices idx) in
  if (1 <? length (indices idx))%nat then Raise NameError
  else Ok (base_name +:+ subscript).

(** *** docs/report/009.ipynb: the plot domain of [plot_relativistic_k_matrix] *)

(** [x_min, x_max = 1e-3, 3], [y_min, y_max = -0.5, +0.5] and
    [z_min, z_max = -2, +2].  A float literal is read as the decimal
    fraction it is written as. *)
Definition x_min : Q := 1 # 1000.
Definition x_max : Q := 3.
Definition y_min : Q := - (5 # 10).
Definition y_max : Q := 5 # 10.
Definition z_min : Q := - 2.
Definition z_max : Q := 2.

(** [np.linspace(start, stop, num)], end point included, in exact
    arithmetic: [num] evenly spaced samples; a negative [num] raises
    [ValueError]. *)
Definition linspace (start stop : Q) (num : Z) : result (list Q) :=
  if (num <? 0)%Z then Raise ValueError
  else if (num =? 1)%Z then Ok [start]
  else
    let step := ((stop - start) / inject_Z (num - 1))%Q in
    Ok ((λ k : Z, (start + inject_Z k * step)%Q) <$> range num).

(** [m0_values = np.linspace(x_min, x_max, num=n_resonances + 2)] and
    [m0_values = m0_values[1:-1]] *)
Definition m0_values (n_resonances : Z) : result (list Q) :=
  v ← linspace x_min x_max (n_resonances + 2);
  Ok (slice v 1 (-1)).

(** The values of a float array: a number, an infinity or not-a-number
    (what the generated function returns where it divides by zero). *)
Inductive float64 :=
  | Num (q : Q)
  | PosInf
  | NegInf
  | NaN.

(** [x < y] on floats: false as soon as one side is not-a-number. *)
Definition float_lt (x y : float64) : bool :=
  match x, y with
  | NaN, _ | _, NaN => false
  | _, NegInf => false
  | NegInf, _ => true
  | PosInf, _ => false
  | Num _, PosInf => true
  | Num a, Num b => negb (Qle_bool b a)
  end.

(** [z_cut_min = 0.75 * z_min] and [z_cut_max = 0.75 * z_max] *)
Definition z_cut_min : Q := (75 # 100) * z_min.
Definition z_cut_max : Q := (75 # 100) * z_max.

(** [lambda z: z if z > z_cut_min else z_cut_min] and
    [lambda z: z if z < z_cut_max else z_cut_max] *)
Definition cut_off_min_element (z : float64) : float64 :=
  if float_lt (Num z_cut_min) z then z else Num z_cut_min.

Definition cut_off_max_element (z : float64) : float64 :=
  if float_lt z (Num z_cut_max) then z else Num z_cut_max.

(** [np.vectorize(f)] applied to an array: [f] on every element; on an
    empty array it raises [ValueError], for it cannot tell the type of
    the output. *)
Definition vectorize {A B} (f : A → B) (a : list A) : result (list B) :=
  match a with
  | [] => Raise ValueError
  | _ => Ok (f <$> a)
  end.

Definition cut_off_min : list float64 → result (list float64) :=
  vectorize cut_off_min_element.

Definition cut_off_max : list float64 → result (list float64) :=
  vectorize cut_off_max_element.

(** [Z_values = cut_off_min(cut_off_max(Z_values))] of [plot3]. *)
Definition cut_off (Z_values : list float64) : result (list float64) :=
  v ← cut_off_max Z_values; cut_off_min v.

(** The part of [T] that [plot3] draws. *)
Inductive drawn_part := Imag | Real | Abs.

(** The radio button [imag_real]: [options=["imag", "real", "abs"]]. *)
Definition imag_real_options : list string := ["imag"; "real"; "abs"].

(** The [if]/[elif] chain of [plot3] on [imag_real]: the part of [Z]
    it takes and the title it sets; [None] stands for
    [raise NotImplementedError]. *)
Definition plot3_part (imag_real : string) : option (drawn_part * string) :=
  if String.eqb imag_real "imag" then Some (Imag, "Re $T$")
  else if String.eqb imag_real "real" then Some (Real, "Im $T$")
  else if String.eqb imag_real "abs" then Some (Abs, "$|T|$")
  else None.

(** *** Regular expressions

    The fragment of Python's [re] syntax that the notebook uses, with
    matching by derivatives. *)
Inductive regex :=
  | REmpty
  | REps
  | RChar (c : ascii)
  | RRange (lo hi : ascii)
  | RSeq (r1 r2 : regex)
  | RAlt (r1 r2 : regex)
  | RStar (r : regex).

(** [r+] *)
Definition RPlus (r : regex) : regex := RSeq r (RStar r).

Fixpoint nullable (r : regex) : bool :=
  match r with
  | REmpty | RChar _ | RRange _ _ => false
  | REps | RStar _ => true
  | RSeq r1 r2 => nullable r1 && nullable r2
  | RAlt r1 r2 => nullable r1 || nullable r2
  end.

Definition in_range (lo hi c : ascii) : bool :=
  ((nat_of_ascii lo <=? nat_of_ascii c) && (nat_of_ascii c <=? nat_of_ascii hi))%nat.

Fixpoint derivative (c : ascii) (r : regex) : regex :=
  match r with
  | REmpty | REps => REmpty
  | RChar c' => if Ascii.eqb c c' then REps else REmpty
  | RRange lo hi => if in_range lo hi c then REps else REmpty
  | RSeq r1 r2 =>
      if nullable r1
      then RAlt (RSeq (derivative c r1) r2) (derivative c r2)
      else RSeq (derivative c r1) r2
  | RAlt r1 r2 => RAlt (derivative c r1) (derivative c r2)
  | RStar r' => RSeq (derivative c r') (RStar r')
  end.

Fixpoint fullmatch (r : regex) (s : string) : bool :=
  match s with
  | EmptyString => nullable r
  | String c s' => fullmatch (derivative c r) s'
  end.

(** The strings that a regular expression denotes. *)
Inductive matches : regex → string → Prop :=
  | matches_eps : matches REps ""
  | matches_char c : matches (RChar c) (String c "")
  | matches_range lo hi c :
      in_range lo hi c = true → matches (RRange lo hi) (String c "")
  | matches_seq r1 r2 s1 s2 :
      matches r1 s1 → matches r2 s2 → matches (RSeq r1 r2) (s1 +:+ s2)
  | matches_alt_l r1 r2 s : matches r1 s → matches (RAlt r1 r2) s
  | matches_alt_r r1 r2 s : matches r2 s → matches (RAlt r1 r2) s
  | matches_star_nil r : matches (RStar r) ""
  | matches_star_cons r s1 s2 :
      matches r s1 → matches (RStar r) s2 → matches (RStar r) (s1 +:+ s2).

(** [re.match("^" r "$", s)]: [r] has to match from the start of [s]
    to its end, or to the line feed that ends [s]. *)
Definition re_match_line (r : regex) (s : string) : bool :=
  fullmatch r s || fullmatch (RSeq r (RChar "010")) s.

(** The pattern [r"^m[0-9]+$"] of the loop over [controls.params],
    without its anchors. *)
Definition mass_slider_pattern : regex :=
  RSeq (RChar "m") (RPlus (RRange "0" "9")).

(** The names of the sliders that [set_default_values] sets: [f"m{R}"]
    for a resonance and, for a resonance and a channel,
    [fR"\Gamma_{{{R},{i}}}"], [fR"\gamma_{{{R},{i}}}"], [f"m_a{i}"]
    and [f"m_b{i}"]. *)
Definition mass_slider (R : Z) : string := "m" +:+ pretty R.

Definition channel_sliders (R i : Z) : list string :=
  [ "\Gamma_{" +:+ pretty R +:+ "," +:+ pretty i +:+ "}";
    "\gamma_{" +:+ pretty R +:+ "," +:+ pretty i +:+ "}";
    "m_a" +:+ pretty i;
    "m_b" +:+ pretty i ].

(** *** docs/report/022.ipynb: the arguments of the intensity function *)

Section Arguments.
Context {array param float : Type}.

(** [complex(v).real] *)
Variable complex_real : param → float.

(** A positional argument of the generated function: a column of the
    data sample or the value of a parameter. *)
Inductive argument :=
  | Column (a : array)
  | Value (x : float).

(** [data_columns = {arg: data[key]
      for arg, key in zip(arg_names, intensity_func.argument_order)
      if key in data}] *)
Definition data_columns (arg_names argument_order : list string)
    (data : list (string * array)) : list (string * array) :=
  foldl (λ d '(arg, key),
           match dict_get data key with
           | Some column => dict_setitem d arg column
           | None => d
           end)
        [] (zip arg_names argument_order).

(** [parameter_values = {arg: complex(intensity_func.parameters[key]).real
      for arg, key in zip(arg_names, intensity_func.argument_order)
      if key in intensity_func.parameters}] *)
Definition parameter_values (arg_names argument_order : list string)
    (function_parameters : list (string * param)) : list (string * float) :=
  foldl (λ d '(arg, key),
           match dict_get function_parameters key with
           | Some v => dict_setitem d arg (complex_real v)
           | None => d
           end)
        [] (zip arg_names argument_order).

(** [phsp_columns = {arg: phsp[key]
      for arg, key in zip(arg_names, intensity_func.argument_order)
      if key in data}]: the test is on [data], the lookup in [phsp];
    [None] stands for the [KeyError] of a missing key. *)
Definition phsp_columns (arg_names argument_order : list string)
    (data phsp : list (string * array)) : option (list (string * array)) :=
  foldl (λ acc '(arg, key),
           d ← acc;
           match dict_get data key with
           | Some _ =>
               column ← dict_get phsp key; Some (dict_setitem d arg column)
           | None => Some d
           end)
        (Some []) (zip arg_names argument_order).

(** Calling a function without default values on positional
    arguments: each parameter takes the argument at its position; too
    few or too many arguments raise [TypeError]. *)
Definition bind_positional (arg_names : list string) (args : list argument)
  : result (list (string * argument)) :=
  if Nat.eqb (length args) (length arg_names)
  then Ok (zip arg_names args)
  else Raise TypeError.

(** [Partial(intensity_func.function, *columns.values())] called on
    [*parameter_values.values()]. *)
Definition call_with_columns (arg_names : list string)
    (columns : list (string * array)) (values : list (string * float))
  : result (list (string * argument)) :=
  bind_positional arg_names ((Column <$> columns.*2) ++ (Value <$> values.*2)).

(** The argument meant for a key of [argument_order]: its column of
    the data, or else the value of its parameter. *)
Definition argument_of (data : list (string * array))
    (function_parameters : list (string * param)) (key : string)
  : option argument :=
  match dict_get data key with
  | Some column => Some (Column column)
  | None => (λ v, Value (complex_real v)) <$> dict_get function_parameters key
  end.

End Arguments.

(** *** docs/report/022.ipynb: the estimator

    In exact arithmetic over the real numbers; the rounding of the
    floating-point operations is outside the model. *)

(** [jnp.sum] and [jnp.mean] of a one-dimensional array. *)
Definition sum_array (a : list R) : R := foldr Rplus 0%R a.

Definition mean (a : list R) : R := (sum_array a / INR (length a))%R.

(** [def estimator(args)], with the two partial functions it reads
    from the notebook's namespace as arguments. *)
Definition estimator
    (func_with_data_inserted func_with_phsp_inserted : list R → list R)
    (args : list R) : R :=
  let data_intensities := func_with_data_inserted args in
  let phsp_intensities := func_with_phsp_inserted args in
  let likelihoods :=
    (λ x, (x / mean phsp_intensities)%R) <$> data_intensities in
  (- sum_array (ln <$> likelihoods))%R.

(** *** docs/symbolics.ipynb: the loop over lists and the array expression *)

(** The timed loop
    [c_lst = []
     for a_i, b_i in zip(a_lst, a_lst, strict=False):
         c_lst.append(a_i + b_i**2)]:
    it zips [a_lst] with itself.  Python integers do not overflow. *)
Definition c_lst (a_lst : list Z) : list Z :=
  foldl (λ c_lst '(a_i, b_i), (c_lst ++ [(a_i + b_i ^ 2)%Z])%list) []
        (zip a_lst a_lst).

(** The value of a 64-bit signed integer after an operation: numpy's
    integer arithmetic wraps around. *)
Definition int64 (x : Z) : Z := ((x + 2 ^ 63) `mod` 2 ^ 64 - 2 ^ 63)%Z.

Definition fits_int64 (x : Z) : Prop := (- 2 ^ 63 <= x < 2 ^ 63)%Z.

(** [c = a + b**2] on arrays of 64-bit integers (what [np.array] makes
    of a list of Python integers that fit). *)
Definition c_array (a b : ndarray Z) : result (ndarray Z) :=
  square ← broadcast2 (λ x n, int64 (x ^ n)) b (Scalar 2%Z);
  broadcast2 (λ x y, int64 (x + y)) a square.

(** *** docs/report/019.ipynb: the escape loop of [mandelbrot()]

    The notebook is written in Julia.  The complex floating-point
    arithmetic is a parameter: the test [abs(z) < 2] and the step
    [z^2 + c]. *)
Section Mandelbrot.
Variable Complex : Type.
Variable abs_below_2 : Complex → bool.
Variable square_plus : Complex → Complex → Complex.

(** [while abs(z) < 2 && (i -= 1) > 0
        z = z^2 + c
     end]: the state [(z, i)] when the loop ends, [None] when [fuel]
    iterations do not end it. *)
Fixpoint escape_loop (fuel : nat) (c z : Complex) (i : Z)
  : option (Complex * Z) :=
  if abs_below_2 z then
    let i := (i - 1)%Z in
    if (0 <? i)%Z then
      match fuel with
      | O => None
      | S fuel' => escape_loop fuel' c (square_plus z c) i
      end
    else Some (z, i)
  else Some (z, i).

(** [i = maxIter], [z = c = Complex(...)] and the loop: the count [i]
    that colours the pixel. *)
Definition escape_count (fuel : nat) (maxIter : Z) (c : Complex) : option Z :=
  snd <$> escape_loop fuel c c maxIter.

End Mandelbrot.
(* ================================================================== *)
(** * Theorems *)
(* ================================================================== *)

Section DynamicsFacts.
Context {num : Type} `{NumberDomain num}.

Lemma relativistic_breit_wigner_symbols (m m0 g : string) :
  relativistic_breit_wigner (num:=num) (Symbol m) (Symbol m0) (Symbol g) =
  Mul (Mul (Symbol g) (Symbol m0))
      (Pow (Add (Add (Pow (Symbol m0) (Integer 2))
                     (Mul (Integer (-1)) (Pow (Symbol m) (Integer 2))))
                (Mul (Integer (-1))
                     (Mul (Mul (Symbol g) (Symbol m0)) ImaginaryUnit)))
           (Integer (-1))).
Proof. reflexivity. Qed.

(** C8: constructing [RelativisticBreitWigner(mass, mass0, gamma0)]
    runs [eval] and yields the very expression that
    [relativistic_breit_wigner(mass, mass0, gamma0)] returns, which is
    [gamma0*mass0 / (mass0**2 - mass**2 - gamma0*mass0*I)]. *)
Theorem class_and_function_formulations_agree (mass mass0 gamma0 : expr num) :
  RelativisticBreitWigner [mass; mass0; gamma0]
    = Ok (Evaluated (relativistic_breit_wigner mass mass0 gamma0))
  ∧ relativistic_breit_wigner mass mass0 gamma0
    = expr_truediv (expr_mul gamma0 mass0)
        (expr_sub
           (expr_sub (expr_pow mass0 (Integer 2)) (expr_pow mass (Integer 2)))
           (expr_mul (expr_mul gamma0 mass0) ImaginaryUnit)).
Proof.
  split; [|reflexivity].
  unfold RelativisticBreitWigner, Function_new, RelativisticBreitWigner_eval.
  reflexivity.
Qed.

End DynamicsFacts.

Section BuilderFacts.
Context {num : Type} `{NumberDomain num}.
Variable StateTransitionGraph : Type.
Variable EdgeProps : Type.
Variable determine_attached_final_state : StateTransitionGraph → Z → list Z.
Variable get_edge_props : StateTransitionGraph → Z → Particle * EdgeProps.

Lemma substitute_needs_tuple (d : DynamicsExpression num) (e : expr num) :
  variables d = VExpr e → substitute d = Raise TypeError.
Proof. intros Hv. unfold substitute. rewrite Hv. reflexivity. Qed.

Lemma call_returns_callable (v : value num) args r :
  call v args = Ok r → callable v = true.
Proof.
  destruct v as [e| |f]; simpl; try discriminate; done.
Qed.

Lemma substitute_returns_callable (d : DynamicsExpression num) r :
  substitute d = Ok r → callable (expression d) = true.
Proof.
  unfold substitute.
  destruct (iterate (variables d)) as [vs|]; simpl; [|discriminate].
  destruct (iterate (parameters d)) as [ps|]; simpl; [|discriminate].
  apply call_returns_callable.
Qed.

(** C10: the object built by [relativistic_breit_wigner_from_graph]
    holds an evaluated expression (not a callable) in [expression] and
    a bare symbol (not a tuple) in [variables], so [substitute()]
    raises [TypeError]; [substitute()] returns only when [expression]
    holds a callable. *)
Theorem from_graph_substitute_raises
    (graph : StateTransitionGraph) (edge_id : Z) :
  let d := relativistic_breit_wigner_from_graph (num:=num)
             StateTransitionGraph EdgeProps
             determine_attached_final_state get_edge_props graph edge_id in
  (∃ e, expression d = VExpr e ∧ callable (expression d) = false)
  ∧ (∃ name, variables d = VExpr (Symbol name))
  ∧ (∀ items, variables d ≠ VTuple items)
  ∧ substitute d = Raise TypeError
  ∧ (∀ (d' : DynamicsExpression num) r,
       substitute d' = Ok r → callable (expression d') = true).
Proof.
  unfold relativistic_breit_wigner_from_graph.
  destruct (get_edge_props graph edge_id) as [particle props]; simpl.
  repeat split.
  - eexists; split; reflexivity.
  - eexists; reflexivity.
  - discriminate.
  - apply substitute_returns_callable.
Qed.

End BuilderFacts.

(** The notebook's own use of [substitute], with a tuple of variables
    and the function itself as [expression], returns the expression. *)
Example bw_decay_f0_substitute :
  substitute bw_decay_f0 =
  Ok (VExpr (relativistic_breit_wigner (Symbol "m_3+4")
               (Symbol "m_f(0)(980)") (Symbol "\Gamma_f(0)(980)"))).
Proof. reflexivity. Qed.

Example from_graph_example :
  let d := relativistic_breit_wigner_from_graph (num:=gnum) unit unit
             (λ _ _, [3; 4]) (λ _ _, ({| latex := "f_{0}(980)" |}, tt)) tt 1 in
  variables d = VExpr (Symbol "m_{3+4}")
  ∧ parameters d =
      VTuple [VExpr (Symbol "m_{f_{0}(980)}");
              VExpr (Symbol "\Gamma_{f_{0}(980)}")]
  ∧ substitute d = Raise TypeError.
Proof. vm_compute. repeat split. Qed.

Section MatrixFacts.

Lemma mapM_result_ok {A B} (f : A → result B) (g : A → B) (l : list A) :
  (∀ x, x ∈ l → f x = Ok (g x)) → mapM f l = Ok (g <$> l).
Proof.
  induction l as [|x l IH]; intros Hf; [reflexivity|].
  simpl. rewrite (Hf x) by left. simpl.
  rewrite IH by (intros y Hy; apply Hf; by right). reflexivity.
Qed.

Lemma range_length n : length (range n) = Z.to_nat n.
Proof. unfold range. by rewrite length_fmap, length_seq. Qed.

Lemma range_lookup n (i : nat) :
  (Z.of_nat i < n)%Z → range n !! i = Some (Z.of_nat i).
Proof.
  intros Hi. unfold range. rewrite list_lookup_fmap.
  rewrite lookup_seq_lt by lia. reflexivity.
Qed.

Lemma Matrix_new_square {A} (rows : list (list A)) k :
  Forall (λ r, length r = k) rows → Matrix_new rows = Ok rows.
Proof.
  intros Hall. destruct rows as [|r rows]; [reflexivity|].
  unfold Matrix_new.
  assert (length r = k) as Hr by (by inversion Hall).
  replace (forallb _ (r :: rows)) with true; [reflexivity|].
  symmetry. apply forallb_forall. intros r' Hin.
  apply Nat.eqb_eq. rewrite Hr.
  rewrite Forall_forall in Hall. apply Hall. by apply list_elem_of_In.
Qed.

Lemma create_symbol_matrix_eq name n :
  create_symbol_matrix name n =
  Ok ((λ i, (λ j, K_element n i j) <$> range n) <$> range n).
Proof.
  unfold create_symbol_matrix.
  rewrite (mapM_result_ok _ (λ i, (λ j, K_element n i j) <$> range n)).
  - simpl. apply (Matrix_new_square _ (Z.to_nat n)).
    apply Forall_fmap, Forall_forall. intros i _. simpl.
    by rewrite length_fmap, range_length.
  - intros i _. apply mapM_result_ok. intros j _. reflexivity.
Qed.

(** C9: [create_symbol_matrix] ignores [name]: for positive [n] the
    result is the n-by-n matrix whose (i, j) entry is the indexed
    symbol [K[i, j]] of the base "K", whatever the name. *)
Theorem create_symbol_matrix_ignores_name (name : string) (n : Z) :
  (0 < n)%Z →
  ∃ M, create_symbol_matrix name n = Ok M
    ∧ length M = Z.to_nat n
    ∧ Forall (λ row, length row = Z.to_nat n) M
    ∧ (∀ i j : nat, (Z.of_nat i < n)%Z → (Z.of_nat j < n)%Z →
         entry M i j = Some (K_element n (Z.of_nat i) (Z.of_nat j)))
    ∧ (∀ name', create_symbol_matrix name' n = Ok M).
Proof.
  intros Hn. eexists. split; [apply create_symbol_matrix_eq|].
  split; [by rewrite length_fmap, range_length|].
  split.
  { apply Forall_fmap, Forall_forall. intros i _. simpl.
    by rewrite length_fmap, range_length. }
  split; [|intros name'; apply create_symbol_matrix_eq].
  intros i j Hi Hj. unfold entry.
  rewrite list_lookup_fmap, (range_lookup n i Hi). simpl.
  rewrite list_lookup_fmap, (range_lookup n j Hj). reflexivity.
Qed.

Lemma create_symbol_matrix_ignores_name_witness :
  (0 < 2)%Z ∧
  ∃ M, create_symbol_matrix "K" 2 = Ok M
    ∧ length M = Z.to_nat 2
    ∧ Forall (λ row, length row = Z.to_nat 2) M
    ∧ (∀ i j : nat, (Z.of_nat i < 2)%Z → (Z.of_nat j < 2)%Z →
         entry M i j = Some (K_element 2 (Z.of_nat i) (Z.of_nat j)))
    ∧ (∀ name', create_symbol_matrix name' 2 = Ok M).
Proof.
  split; [lia|]. apply (create_symbol_matrix_ignores_name "K" 2). lia.
Defined.

Example create_symbol_matrix_rho :
  create_symbol_matrix "rho" 2 =
  Ok [[K_element 2 0 0; K_element 2 0 1]; [K_element 2 1 0; K_element 2 1 1]].
Proof. reflexivity. Qed.

End MatrixFacts.

Section SubstitutionFacts.
Context {num : Type} `{NumberDomain num}.

(** The evaluating constructors introduce no symbol. *)
Lemma free_symbols_mk_add (a b : expr num) :
  free_symbols (mk_add a b) ⊆ free_symbols a ∪ free_symbols b.
Proof. destruct a, b; simpl; set_solver. Qed.

Lemma free_symbols_mk_mul (a b : expr num) :
  free_symbols (mk_mul a b) ⊆ free_symbols a ∪ free_symbols b.
Proof. destruct a, b; simpl; set_solver. Qed.

Lemma free_symbols_mk_pow (a b : expr num) :
  free_symbols (mk_pow a b) ⊆ free_symbols a ∪ free_symbols b.
Proof.
  destruct a, b; simpl; try set_solver.
  destruct (nfolds _ _); simpl; set_solver.
Qed.

(** Where no replacement takes place there is no designated symbol. *)
Lemma xreplace_flag_false (rule : gmap string (expr num)) e x :
  (xreplace_flagged rule e).2 = false → x ∈ free_symbols e →
  rule !! x = None.
Proof.
  induction e as [y|c| |a IHa b IHb|a IHa b IHb|a IHa b IHb]; simpl.
  - destruct (rule !! y) as [v|] eqn:Hy; simpl; [done|].
    by intros _ ->%elem_of_singleton.
  - set_solver.
  - set_solver.
  - destruct (xreplace_flagged rule a) as [a' ca],
      (xreplace_flagged rule b) as [b' cb]; simpl in *.
    destruct ca, cb; simpl; try done. set_solver.
  - destruct (xreplace_flagged rule a) as [a' ca],
      (xreplace_flagged rule b) as [b' cb]; simpl in *.
    destruct ca, cb; simpl; try done. set_solver.
  - destruct (xreplace_flagged rule a) as [a' ca],
      (xreplace_flagged rule b) as [b' cb]; simpl in *.
    destruct ca, cb; simpl; try done. set_solver.
Qed.

(** A free symbol of a substituted graph is a symbol of the input
    that was not designated, or a symbol of the image of a designated
    symbol of the input. *)
Lemma free_symbols_xreplace (rule : gmap string (expr num)) e x :
  x ∈ free_symbols (xreplace rule e) →
  (x ∈ free_symbols e ∧ rule !! x = None)
  ∨ (∃ y v, y ∈ free_symbols e ∧ rule !! y = Some v ∧ x ∈ free_symbols v).
Proof.
  unfold xreplace.
  induction e as [y|c| |a IHa b IHb|a IHa b IHb|a IHa b IHb]; simpl.
  - destruct (rule !! y) as [v|] eqn:Hy; simpl.
    + intros Hx. right. exists y, v. set_solver.
    + intros Hx. left. apply elem_of_singleton in Hx. subst.
      split; [set_solver|done].
  - set_solver.
  - set_solver.
  - pose proof (xreplace_flag_false rule (Add a b) x) as Hno. simpl in *.
    destruct (xreplace_flagged rule a) as [a' ca],
      (xreplace_flagged rule b) as [b' cb]; simpl in *.
    destruct (ca || cb); simpl in *; [|by left; auto].
    intros [Hx|Hx]%free_symbols_mk_add%elem_of_union;
      [destruct (IHa Hx) as [[? ?]|(y & v & ? & ? & ?)]
      |destruct (IHb Hx) as [[? ?]|(y & v & ? & ? & ?)]];
      first [left; set_solver | right; exists y, v; set_solver].
  - pose proof (xreplace_flag_false rule (Mul a b) x) as Hno. simpl in *.
    destruct (xreplace_flagged rule a) as [a' ca],
      (xreplace_flagged rule b) as [b' cb]; simpl in *.
    destruct (ca || cb); simpl in *; [|by left; auto].
    intros [Hx|Hx]%free_symbols_mk_mul%elem_of_union;
      [destruct (IHa Hx) as [[? ?]|(y & v & ? & ? & ?)]
      |destruct (IHb Hx) as [[? ?]|(y & v & ? & ? & ?)]];
      first [left; set_solver | right; exists y, v; set_solver].
  - pose proof (xreplace_flag_false rule (Pow a b) x) as Hno. simpl in *.
    destruct (xreplace_flagged rule a) as [a' ca],
      (xreplace_flagged rule b) as [b' cb]; simpl in *.
    destruct (ca || cb); simpl in *; [|by left; auto].
    intros [Hx|Hx]%free_symbols_mk_pow%elem_of_union;
      [destruct (IHa Hx) as [[? ?]|(y & v & ? & ? & ?)]
      |destruct (IHb Hx) as [[? ?]|(y & v & ? & ? & ?)]];
      first [left; set_solver | right; exists y, v; set_solver].
Qed.

(** A subtree that no replacement reaches is returned as it is. *)
Lemma xreplace_unchanged (rule : gmap string (expr num)) e :
  (xreplace_flagged rule e).2 = false → (xreplace_flagged rule e).1 = e.
Proof.
  destruct e as [y|c| |a b|a b|a b]; simpl; try done.
  - by destruct (rule !! y).
  - destruct (xreplace_flagged rule a) as [a' ca],
      (xreplace_flagged rule b) as [b' cb]. by destruct (ca || cb).
  - destruct (xreplace_flagged rule a) as [a' ca],
      (xreplace_flagged rule b) as [b' cb]. by destruct (ca || cb).
  - destruct (xreplace_flagged rule a) as [a' ca],
      (xreplace_flagged rule b) as [b' cb]. by destruct (ca || cb).
Qed.

Lemma collapsed_subtree (s e : expr num) :
  subtree s e → collapsed e → collapsed s.
Proof.
  intros Hs He t Ht. apply He. clear He.
  induction Hs; [done|by auto using subtree..].
Qed.

Lemma collapsed_leaf (e : expr num) :
  match e with Add _ _ | Mul _ _ | Pow _ _ => False | _ => True end →
  collapsed e.
Proof.
  intros He s Hs Hn. destruct e; try done; inversion Hs; subst;
    simpl in Hn; try done; eauto.
Qed.

(** An operator node over collapsed arguments that are not both
    literals is no numeric subtree, so the graph stays collapsed. *)
Local Ltac collapsed_node Ha Hb :=
  let s := fresh "s" in let Hs := fresh "Hs" in let Hn := fresh "Hn" in
  intros s Hs Hn; inversion Hs; subst;
  [ exfalso; simpl in Hn; destruct Hn as [Hna Hnb];
    first
      [ done
      | by destruct (Ha _ (subtree_refl _) Hna)
      | by destruct Hnb as [? ?]
      | by destruct (Hb _ (subtree_refl _) Hnb) ]
  | by apply Ha
  | by apply Hb ].

Lemma collapsed_mk_add (a b : expr num) :
  collapsed a → collapsed b → collapsed (mk_add a b).
Proof.
  intros Ha Hb.
  destruct a, b; simpl; try (by apply collapsed_leaf);
    collapsed_node Ha Hb.
Qed.

Lemma collapsed_mk_mul (a b : expr num) :
  collapsed a → collapsed b → collapsed (mk_mul a b).
Proof.
  intros Ha Hb.
  destruct a, b; simpl; try (by apply collapsed_leaf);
    collapsed_node Ha Hb.
Qed.

Lemma collapsed_mk_pow (a b : expr num) :
  collapsed a → collapsed b → collapsed (mk_pow a b).
Proof.
  intros Ha Hb.
  destruct a as [x|c| |a1 a2|a1 a2|a1 a2], b as [y|d| |b1 b2|b1 b2|b1 b2];
    simpl; try collapsed_node Ha Hb.
  destruct (nfolds c d) eqn:Hf; [by apply collapsed_leaf|].
  intros s Hs Hn. inversion Hs; subst; [|by apply Ha|by apply Hb].
  exfalso. destruct Hn as [_ [n [= ->]]].
  by rewrite nfolds_integer in Hf.
Qed.

Lemma collapsed_xreplace (rule : gmap string (expr num)) e :
  map_Forall (λ _ v, collapsed v) rule → collapsed e →
  collapsed (xreplace rule e).
Proof.
  intros Hrule He. unfold xreplace.
  destruct ((xreplace_flagged rule e).2) eqn:Hflag;
    [|by rewrite xreplace_unchanged].
  clear Hflag.
  induction e as [y|c| |a IHa b IHb|a IHa b IHb|a IHa b IHb]; simpl.
  - destruct (rule !! y) as [v|] eqn:Hy; simpl.
    + by apply (Hrule y).
    + by apply collapsed_leaf.
  - by apply collapsed_leaf.
  - by apply collapsed_leaf.
  - assert (collapsed a) as Ha
      by (apply (collapsed_subtree a (Add a b));
          [apply subtree_Add_l, subtree_refl|done]).
    assert (collapsed b) as Hb
      by (apply (collapsed_subtree b (Add a b));
          [apply subtree_Add_r, subtree_refl|done]).
    specialize (IHa Ha). specialize (IHb Hb).
    destruct (xreplace_flagged rule a) as [a' ca],
      (xreplace_flagged rule b) as [b' cb]; simpl in *.
    destruct (ca || cb); simpl; [by apply collapsed_mk_add|done].
  - assert (collapsed a) as Ha
      by (apply (collapsed_subtree a (Mul a b));
          [apply subtree_Mul_l, subtree_refl|done]).
    assert (collapsed b) as Hb
      by (apply (collapsed_subtree b (Mul a b));
          [apply subtree_Mul_r, subtree_refl|done]).
    specialize (IHa Ha). specialize (IHb Hb).
    destruct (xreplace_flagged rule a) as [a' ca],
      (xreplace_flagged rule b) as [b' cb]; simpl in *.
    destruct (ca || cb); simpl; [by apply collapsed_mk_mul|done].
  - assert (collapsed a) as Ha
      by (apply (collapsed_subtree a (Pow a b));
          [apply subtree_Pow_l, subtree_refl|done]).
    assert (collapsed b) as Hb
      by (apply (collapsed_subtree b (Pow a b));
          [apply subtree_Pow_r, subtree_refl|done]).
    specialize (IHa Ha). specialize (IHb Hb).
    destruct (xreplace_flagged rule a) as [a' ca],
      (xreplace_flagged rule b) as [b' cb]; simpl in *.
    destruct (ca || cb); simpl; [by apply collapsed_mk_pow|done].
Qed.

(** C1, as amended: for a collapsed graph (sympy's operators build
    such graphs), when no replacement graph mentions a designated
    symbol and the replacement graphs are themselves collapsed (every
    map to constants is such), the substituted graph has no designated
    symbol free, each of its free symbols is a symbol of the input
    that was not designated or a symbol of the replacement of a
    designated symbol of the input, and every subtree built from
    number literals by sums, products and integer powers is a single
    number node. *)
Theorem xreplace_removes_symbols_and_collapses
    (rule : gmap string (expr num)) (e : expr num) :
  map_Forall (λ _ v, free_symbols v ## dom rule) rule →
  map_Forall (λ _ v, collapsed v) rule →
  collapsed e →
  (∀ x, x ∈ dom rule → x ∉ free_symbols (xreplace rule e))
  ∧ (∀ x, x ∈ free_symbols (xreplace rule e) →
       (x ∈ free_symbols e ∧ x ∉ dom rule)
       ∨ (∃ y v, y ∈ free_symbols e ∧ rule !! y = Some v
                 ∧ x ∈ free_symbols v))
  ∧ collapsed (xreplace rule e).
Proof.
  intros Hfree Hcol He. split; [|split].
  - intros x Hx Hin. apply free_symbols_xreplace in Hin.
    destruct Hin as [[_ Hn]|(y & v & _ & Hy & Hxv)].
    + apply elem_of_dom in Hx as [? ?]. congruence.
    + specialize (Hfree y v Hy). set_solver.
  - intros x Hin. apply free_symbols_xreplace in Hin.
    destruct Hin as [[Hx Hn]|Hin]; [left|by right].
    split; [done|]. by apply not_elem_of_dom.
  - by apply collapsed_xreplace.
Qed.

(** The operators keep graphs collapsed. *)
Lemma collapsed_expr_neg (a : expr num) : collapsed a → collapsed (expr_neg a).
Proof. intros Ha. apply collapsed_mk_mul; [by apply collapsed_leaf|done]. Qed.

Lemma collapsed_expr_sub (a b : expr num) :
  collapsed a → collapsed b → collapsed (expr_sub a b).
Proof.
  intros Ha Hb. apply collapsed_mk_add; [done|by apply collapsed_expr_neg].
Qed.

Lemma collapsed_expr_truediv (a b : expr num) :
  collapsed a → collapsed b → collapsed (expr_truediv a b).
Proof.
  intros Ha Hb. apply collapsed_mk_mul; [done|].
  apply collapsed_mk_pow; [done|by apply collapsed_leaf].
Qed.

End SubstitutionFacts.

Lemma number_rule_closed (valuation : gmap string gnum) :
  map_Forall (λ _ v, free_symbols v ## dom (Number <$> valuation))
    (Number <$> valuation).
Proof.
  intros x v Hv. rewrite lookup_fmap in Hv.
  destruct (valuation !! x); [|done]. injection Hv as <-. set_solver.
Qed.

Lemma number_rule_collapsed (valuation : gmap string gnum) :
  map_Forall (λ _ v, collapsed v) (Number <$> valuation).
Proof.
  intros x v Hv. rewrite lookup_fmap in Hv.
  destruct (valuation !! x); [|done]. injection Hv as <-.
  by apply collapsed_leaf.
Qed.

(** The notebook's Breit-Wigner is collapsed: it is built with the
    operators. *)
Lemma expression_collapsed : collapsed Symbolics.expression.
Proof.
  unfold Symbolics.expression.
  apply collapsed_expr_truediv; [|apply collapsed_expr_sub;
                                   [apply collapsed_expr_sub|]];
    unfold expr_mul, expr_pow, Integer;
    repeat first [apply collapsed_mk_mul | apply collapsed_mk_pow];
    by apply collapsed_leaf.
Qed.

(** The theorem at the notebook's substitution
    [expression.subs({m0: 0.980, Γ0: 0.06, g: 1})]. *)
Lemma xreplace_removes_symbols_and_collapses_witness :
  let rule : gmap string (expr gnum) :=
    Number <$> list_to_map Symbolics.parameter_values in
  map_Forall (λ _ v, free_symbols v ## dom rule) rule
  ∧ map_Forall (λ _ v, collapsed v) rule
  ∧ collapsed Symbolics.expression
  ∧ (∀ x, x ∈ dom rule → x ∉ free_symbols (xreplace rule Symbolics.expression))
  ∧ (∀ x, x ∈ free_symbols (xreplace rule Symbolics.expression) →
       (x ∈ free_symbols Symbolics.expression ∧ x ∉ dom rule)
       ∨ (∃ y v, y ∈ free_symbols Symbolics.expression ∧ rule !! y = Some v
                 ∧ x ∈ free_symbols v))
  ∧ collapsed (xreplace rule Symbolics.expression).
Proof.
  intros rule.
  split; [apply number_rule_closed|].
  split; [apply number_rule_collapsed|].
  split; [apply expression_collapsed|].
  apply (xreplace_removes_symbols_and_collapses rule Symbolics.expression).
  - apply number_rule_closed.
  - apply number_rule_collapsed.
  - apply expression_collapsed.
Defined.

(** The substituted Breit-Wigner of the notebook, as the binary graph
    of the model: [s] is its only free symbol, and [m0**2] and
    [g*m0*Γ0] have become the literals 0.9604 and 0.0588. *)
Example substituted_expr_value :
  Symbolics.substituted_expr =
  Mul (Number (decimal (588 # 10000)))
      (Pow (Add (Add (Number (decimal (9604 # 10000)))
                     (Mul (Integer (-1)) (Symbol "s")))
                (Mul (Integer (-1))
                     (Mul (Mul ImaginaryUnit (Number (decimal (6 # 100))))
                          (Number (decimal (98 # 100))))))
           (Integer (-1)))
  ∧ free_symbols Symbolics.substituted_expr = {[ "s" ]}.
Proof. split; by vm_compute. Qed.

(** C1 as stated fails in four ways.  A replacement graph may mention
    a designated symbol, which then stays free: [s ↦ s + 1].  A
    subtree without free symbols that contains the imaginary unit is
    not collapsed: the product with [I] in the substituted
    Breit-Wigner.  A subtree whose leaves are all number literals need
    not collapse either: [x ↦ 2] in [x**(1/2)] gives the power
    [2**(1/2)], the square root of 2.  And a subtree that no
    replacement reaches is returned as it is: the unevaluated sum
    [1 + 2] stays a sum under [x ↦ 3]. *)
Lemma xreplace_claim_counterexample :
  (let rule : gmap string (expr gnum) :=
     {[ "s" := Add (Symbol "s") (Integer 1) ]} in
   "s" ∈ dom rule ∧ "s" ∈ free_symbols (xreplace rule (Symbol "s")))
  ∧ ¬ constants_collapsed Symbolics.substituted_expr
  ∧ (let rule : gmap string (expr gnum) := {[ "x" := Integer 2 ]} in
     let e := xreplace rule (Pow (Symbol "x") (Number (decimal (1 # 2)))) in
     number_leaves e = true ∧ free_symbols e = ∅ ∧ ¬ ∃ c, e = Number c)
  ∧ (let rule : gmap string (expr gnum) := {[ "x" := Integer 3 ]} in
     xreplace rule (Add (Integer 1) (Integer 2))
     = Add (Integer 1) (Integer 2)).
Proof.
  split; [|split; [|split]].
  - split; [set_solver|]. unfold xreplace. simpl.
    rewrite lookup_singleton_eq. simpl. set_solver.
  - intros Hc.
    destruct (Hc (Mul (Mul ImaginaryUnit (Number (decimal (6 # 100))))
                      (Number (decimal (98 # 100))))) as [c Hc'];
      [|by vm_compute|discriminate].
    destruct substituted_expr_value as [-> _].
    apply subtree_Mul_r, subtree_Pow_l, subtree_Add_r, subtree_Mul_r.
    apply subtree_refl.
  - unfold xreplace. simpl. rewrite lookup_singleton_eq. simpl.
    split; [reflexivity|]. split; [set_solver|].
    intros [c Hc]. discriminate.
  - reflexivity.
Qed.

Section CodeGenerationFacts.
Context {num : Type} `{ComplexDomain num}.

Lemma element_fits (n : nat) (v : ndarray num) (i : nat) :
  fits n v → (i < n)%nat → is_Some (element v i).
Proof.
  destruct v as [c|l]; simpl; [eauto|].
  intros <- Hi. by apply lookup_lt_is_Some.
Qed.

(** An operation on inputs that fit arrays of length [n] succeeds, its
    result fits too, and it is computed element by element. *)
Lemma broadcast2_fits (f : num → num → num) (x y : ndarray num) (n : nat) :
  fits n x → fits n y →
  ∃ z, broadcast2 f x y = Ok z ∧ fits n z
    ∧ is_array z = is_array x || is_array y
    ∧ ∀ i a b, element x i = Some a → element y i = Some b →
        element z i = Some (f a b).
Proof.
  destruct x as [a|l1], y as [b|l2]; simpl; intros Hx Hy.
  - eexists. split; [reflexivity|]. split; [done|]. split; [done|].
    intros i a' b' [= <-] [= <-]. done.
  - eexists. split; [reflexivity|]. simpl. rewrite length_fmap.
    split; [done|]. split; [done|].
    intros i a' b' [= <-] Hb. by rewrite list_lookup_fmap, Hb.
  - eexists. split; [reflexivity|]. simpl. rewrite length_fmap.
    split; [done|]. split; [done|].
    intros i a' b' Ha [= <-]. by rewrite list_lookup_fmap, Ha.
  - rewrite Hx, Hy, Nat.eqb_refl. eexists. split; [reflexivity|]. simpl.
    rewrite length_zip_with. split; [lia|]. split; [done|].
    intros i a' b' Ha Hb. rewrite lookup_zip_with, Ha. simpl. by rewrite Hb.
Qed.

Lemma point_lookup (env : gmap string (ndarray num)) (i : nat) (x : string) :
  point env i !! x = env !! x ≫= λ v, element v i.
Proof. unfold point. apply lookup_omap. Qed.

Local Ltac step_op IHa IHb f :=
  let va := fresh "va" in let vb := fresh "vb" in
  let Ra := fresh "Ra" in let Rb := fresh "Rb" in
  let Fa := fresh "Fa" in let Fb := fresh "Fb" in
  let Aa := fresh "Aa" in let Ab := fresh "Ab" in
  let Ea := fresh "Ea" in let Eb := fresh "Eb" in
  destruct IHa as (va & Ra & Fa & Aa & Ea); [set_solver|];
  destruct IHb as (vb & Rb & Fb & Ab & Eb); [set_solver|];
  destruct (broadcast2_fits f va vb _ Fa Fb) as (z & Rz & Fz & Az & Ez);
  exists z; rewrite Ra, Rb; simpl; split; [exact Rz|]; split; [exact Fz|];
  split;
  [ rewrite Az, orb_true_iff, Aa, Ab; split;
    [ intros [(x & a' & ? & ? & ?)|(x & a' & ? & ? & ?)];
      exists x, a'; set_solver
    | intros (x & a' & [?|?]%elem_of_union & ? & ?);
      [left|right]; exists x, a'; done ]
  | intros i Hi;
    destruct (Ea i Hi) as (ca & Eca & Va);
    destruct (Eb i Hi) as (cb & Ecb & Vb);
    exists (f ca cb); split; [by apply Ez|];
    rewrite Va, Vb; reflexivity ].

(** The emitted code, run on arguments that fit arrays of length [n]:
    it returns, the result is an array exactly when the formula
    mentions an array-valued argument, and each element is the value
    of the formula at the corresponding point. *)
Lemma run_numpy_code (env : gmap string (ndarray num)) (n : nat) (e : expr num) :
  map_Forall (λ _ v, fits n v) env →
  free_symbols e ⊆ dom env →
  ∃ v, run env (numpy_code e) = Ok v ∧ fits n v
    ∧ (is_array v = true ↔
       ∃ x a, x ∈ free_symbols e ∧ env !! x = Some a ∧ is_array a = true)
    ∧ ∀ i, (i < n)%nat →
        ∃ c, element v i = Some c ∧ evalf (point env i) e = Ok c.
Proof.
  intros Hfit.
  induction e as [x|c| |a IHa b IHb|a IHa b IHb|a IHa b IHb]; simpl;
    intros Hdom.
  - assert (x ∈ dom env) as [v Hv]%elem_of_dom by set_solver.
    exists v. rewrite Hv. split; [done|]. split; [by apply (Hfit x)|].
    split.
    + split.
      * intros Hv'. exists x, v. set_solver.
      * intros (x' & a & ->%elem_of_singleton & Ha & Hx'). congruence.
    + intros i Hi.
      destruct (element_fits n v i (Hfit x v Hv) Hi) as [c Hc].
      exists c. split; [done|]. by rewrite point_lookup, Hv; simpl; rewrite Hc.
  - exists (Scalar c). repeat split; try done.
    + intros (x & a & Hx & _). set_solver.
    + intros i _. by exists c.
  - exists (Scalar nimag). repeat split; try done.
    + intros (x & a & Hx & _). set_solver.
    + intros i _. by exists nimag.
  - step_op IHa IHb (nadd (num:=num)).
  - step_op IHa IHb (nmul (num:=num)).
  - step_op IHa IHb (npow (num:=num)).
Qed.

Local Ltac step_scalar IHa IHb :=
  let ca := fresh "ca" in let cb := fresh "cb" in
  let Ra := fresh "Ra" in let Rb := fresh "Rb" in
  let Ea := fresh "Ea" in let Eb := fresh "Eb" in
  destruct IHa as (ca & Ra & Ea); [set_solver|];
  destruct IHb as (cb & Rb & Eb); [set_solver|];
  eexists; rewrite Ra, Rb; simpl; split; [reflexivity|];
  intros i; rewrite Ea, Eb; reflexivity.

(** A formula that mentions scalar arguments only yields one scalar,
    its value. *)
Lemma run_numpy_code_scalar (env : gmap string (ndarray num)) (e : expr num) :
  (∀ x, x ∈ free_symbols e → ∃ c, env !! x = Some (Scalar c)) →
  ∃ c, run env (numpy_code e) = Ok (Scalar c)
    ∧ ∀ i, evalf (point env i) e = Ok c.
Proof.
  induction e as [x|c| |a IHa b IHb|a IHa b IHb|a IHa b IHb]; simpl;
    intros Hs.
  - destruct (Hs x) as [c Hc]; [set_solver|].
    exists c. rewrite Hc. split; [done|].
    intros i. by rewrite point_lookup, Hc.
  - by exists c.
  - by exists nimag.
  - step_scalar IHa IHb.
  - step_scalar IHa IHb.
  - step_scalar IHa IHb.
Qed.

Lemma arguments_dom (args : list string) (inputs : list (ndarray num)) :
  length inputs = length args →
  dom (list_to_map (zip args inputs) : gmap string (ndarray num))
  = list_to_set args.
Proof.
  intros Hlen. rewrite dom_list_to_map_L, fst_zip by lia. reflexivity.
Qed.

Lemma arguments_fit (args : list string) (inputs : list (ndarray num)) n :
  Forall (fits n) inputs →
  map_Forall (λ _ v, fits n v)
    (list_to_map (zip args inputs) : gmap string (ndarray num)).
Proof.
  intros Hall x v Hv. apply elem_of_list_to_map_2 in Hv.
  apply elem_of_zip_r in Hv. rewrite Forall_forall in Hall. by apply Hall.
Qed.


End CodeGenerationFacts.


(** The values of [full_func(s, 0.980, 0.06, 1)] at s = 0.9, 1, 1.1,
    in exact arithmetic. *)
Example full_func_values :
  (Symbolics.full_func ≫= λ f, call_lambda f sample_inputs)
  = Ok (Array [Finite (22197 # 44410) (21609 # 44410);
               Finite (-1617 # 3490) (2401 # 3490);
               Finite (-51303 # 143410) (21609 # 143410)]).
Proof. by vm_compute. Qed.


(** The notebook's [substituted_func(s)] and
    [full_func(s, 0.980, 0.06, 1)] at the sample array, in exact
    arithmetic. *)
Example substituted_func_values :
  (Symbolics.substituted_func ≫= λ f, call_lambda f [sample_s])
  = (Symbolics.full_func ≫= λ f, call_lambda f sample_inputs).
Proof. by vm_compute. Qed.
(** ** The test configuration *)

Section StringLemmas.

Lemma string_app_nil_inv (s t : string) : s +:+ t = "" → s = "" ∧ t = "".
Proof. destruct s; [done|]. intros [=]. Qed.

Lemma string_app_assoc (s t u : string) : (s +:+ t) +:+ u = s +:+ (t +:+ u).
Proof.
  induction s as [|c s IH]; [done|].
  change (String c ((s +:+ t) +:+ u) = String c (s +:+ t +:+ u)).
  by rewrite IH.
Qed.

Lemma string_app_cons (c : ascii) (s t : string) :
  String c s +:+ t = String c (s +:+ t).
Proof. reflexivity. Qed.

Lemma list_ascii_of_string_app (a b : string) :
  String.list_ascii_of_string (a +:+ b)
  = (String.list_ascii_of_string a ++ String.list_ascii_of_string b)%list.
Proof.
  induction a as [|c a IH]; [done|].
  rewrite string_app_cons. simpl. by rewrite IH.
Qed.

Lemma string_of_list_ascii_app (a b : list ascii) :
  String.string_of_list_ascii (a ++ b)
  = String.string_of_list_ascii a +:+ String.string_of_list_ascii b.
Proof.
  induction a as [|c a IH]; [done|].
  simpl. rewrite string_app_cons. by rewrite IH.
Qed.

(** A string whose characters split in two splits accordingly. *)
Lemma string_split (s : string) (a b : list ascii) :
  String.list_ascii_of_string s = (a ++ b)%list →
  s = String.string_of_list_ascii a +:+ String.string_of_list_ascii b.
Proof.
  intros Heq. rewrite <- string_of_list_ascii_app, <- Heq.
  by rewrite String.string_of_list_ascii_of_string.
Qed.

Lemma has_suffix_spec (suffix s : string) :
  has_suffix suffix s = true ↔ ∃ stem, s = stem +:+ suffix.
Proof.
  induction s as [|c s IH].
  - simpl. rewrite orb_false_r, String.eqb_eq. split.
    + intros ->. by exists "".
    + intros [stem Hs]. symmetry in Hs.
      by apply string_app_nil_inv in Hs as [_ ->].
  - cbn [has_suffix]. rewrite orb_true_iff, String.eqb_eq, IH. split.
    + intros [->|[stem ->]]; [by exists ""|].
      by exists (String c stem).
    + intros [[|c' stem] Hs]; [by left|].
      rewrite string_app_cons in Hs. injection Hs as -> ->. right. eauto.
Qed.

End StringLemmas.

Section PatternLemmas.

Lemma fnmatch_star_unfold (p s : list ascii) :
  fnmatch_chars ("*"%char :: p) s
  = fnmatch_chars p s
    || match s with
       | [] => false
       | _ :: s' => fnmatch_chars ("*"%char :: p) s'
       end.
Proof. destruct s; reflexivity. Qed.

(** A leading [*] absorbs any prefix. *)
Lemma fnmatch_star_prefix (p r s : list ascii) :
  fnmatch_chars p s = true → fnmatch_chars ("*"%char :: p) (r ++ s)%list = true.
Proof.
  intros Hp. induction r as [|c r IH].
  - rewrite fnmatch_star_unfold. cbn [app]. by rewrite Hp.
  - rewrite fnmatch_star_unfold. cbn [app]. rewrite IH. apply orb_true_r.
Qed.

(** What a leading [*] matches ends with a match of the rest. *)
Lemma fnmatch_star_suffix (p s : list ascii) :
  fnmatch_chars ("*"%char :: p) s = true →
  ∃ r t, s = (r ++ t)%list ∧ fnmatch_chars p t = true.
Proof.
  induction s as [|c s IH]; rewrite fnmatch_star_unfold.
  - rewrite orb_false_r. intros Hp. by exists [], [].
  - intros [Hp|Hs]%orb_true_iff.
    + by exists [], (c :: s).
    + destruct (IH Hs) as (r & t & -> & Ht). by exists (c :: r), t.
Qed.

(** A pattern that starts with literal characters matches a string
    that starts with them and goes on with a match of the rest. *)
Lemma fnmatch_literal_prefix (p q t : list ascii) :
  literal p →
  fnmatch_chars (p ++ q) t = true ↔
  ∃ t', t = (p ++ t')%list ∧ fnmatch_chars q t' = true.
Proof.
  intros Hlit. revert t.
  induction Hlit as [|c p [Hs Hq] _ IH]; intros t.
  - simpl. split; [eauto|]. by intros (t' & -> & Ht).
  - cbn [app fnmatch_chars]. rewrite Hs. destruct t as [|c' t].
    + split; [done|]. by intros (t' & [=] & _).
    + rewrite Hq. simpl. rewrite andb_true_iff, Ascii.eqb_eq, IH. split.
      * intros [-> (t' & -> & Ht)]. eauto.
      * intros (t' & [= -> ->] & Ht). eauto.
Qed.

(** A pattern without wildcard matches itself only. *)
Lemma fnmatch_literal (p t : list ascii) :
  literal p → fnmatch_chars p t = true ↔ t = p.
Proof.
  intros Hlit.
  rewrite <- (app_nil_r p) at 1. rewrite fnmatch_literal_prefix by done.
  split.
  - intros (t' & -> & Ht). destruct t'; [|done]. by rewrite app_nil_r.
  - intros ->. exists []. by rewrite app_nil_r.
Qed.

(** [name] matches the literal [pattern] when it is that string. *)
Lemma fnmatch_exact (name pattern : string) :
  literal (String.list_ascii_of_string pattern) →
  fnmatch name pattern = true ↔ name = pattern.
Proof.
  intros Hlit. unfold fnmatch. rewrite fnmatch_literal by done. split.
  - intros Heq.
    rewrite <- (String.string_of_list_ascii_of_string name), Heq.
    apply String.string_of_list_ascii_of_string.
  - by intros ->.
Qed.

(** [name] matches [*] followed by a literal when it ends with the
    literal. *)
Lemma fnmatch_ends (name pattern : string) :
  literal (String.list_ascii_of_string pattern) →
  fnmatch name ("*" +:+ pattern) = true ↔ ∃ r, name = r +:+ pattern.
Proof.
  intros Hlit. unfold fnmatch. rewrite string_app_cons. cbn [String.list_ascii_of_string].
  change ("" +:+ pattern) with pattern. split.
  - intros (r & t & Heq & Ht)%fnmatch_star_suffix.
    apply fnmatch_literal in Ht as ->; [|done].
    apply string_split in Heq as ->.
    rewrite String.string_of_list_ascii_of_string. eauto.
  - intros [r ->]. rewrite list_ascii_of_string_app.
    apply fnmatch_star_prefix. by apply fnmatch_literal.
Qed.

(** What matches a literal between two [*] contains the literal. *)
Lemma fnmatch_contains (name pattern : string) :
  literal (String.list_ascii_of_string pattern) →
  fnmatch name ("*" +:+ pattern +:+ "*") = true →
  ∃ a b, name = a +:+ pattern +:+ b.
Proof.
  intros Hlit. unfold fnmatch. rewrite string_app_cons. cbn [String.list_ascii_of_string].
  change ("" +:+ pattern +:+ "*") with (pattern +:+ "*").
  rewrite list_ascii_of_string_app.
  intros (r & t & Heq & Ht)%fnmatch_star_suffix.
  apply fnmatch_literal_prefix in Ht as (t' & -> & _); [|done].
  apply string_split in Heq as ->.
  rewrite string_of_list_ascii_app, String.string_of_list_ascii_of_string.
  eauto.
Qed.

Lemma is_prefix_chars_spec (p s : list ascii) :
  is_prefix_chars p s = true ↔ ∃ b, s = (p ++ b)%list.
Proof.
  revert s. induction p as [|c p IH]; intros s; simpl.
  - split; [eauto|done].
  - destruct s as [|c' s].
    + split; [done|]. by intros [b [=]].
    + rewrite andb_true_iff, Ascii.eqb_eq, IH. split.
      * intros [-> [b ->]]. eauto.
      * intros [b [= -> ->]]. eauto.
Qed.

Lemma is_substring_chars_spec (p s : list ascii) :
  is_substring_chars p s = true ↔ ∃ a b, s = (a ++ p ++ b)%list.
Proof.
  induction s as [|c s IH]; cbn [is_substring_chars];
    rewrite orb_true_iff, is_prefix_chars_spec.
  - split.
    + intros [[b Hb]|[=]]. by exists [], b.
    + intros (a & b & Heq). left. destruct a; [by exists b|done].
  - rewrite IH. split.
    + intros [[b Hb]|(a & b & ->)]; [by exists [], b|].
      by exists (c :: a), b.
    + intros ([|c' a] & b & Heq); [left; by exists b|].
      injection Heq as -> ->. right. eauto.
Qed.

(** [sub in s], on strings. *)
Lemma is_substring_spec (sub s : string) :
  is_substring_chars (String.list_ascii_of_string sub)
                     (String.list_ascii_of_string s) = true
  ↔ ∃ a b, s = a +:+ sub +:+ b.
Proof.
  rewrite is_substring_chars_spec. split.
  - intros (a & b & Heq). apply string_split in Heq as ->.
    rewrite string_of_list_ascii_app, String.string_of_list_ascii_of_string.
    eauto.
  - intros (a & b & ->). rewrite !list_ascii_of_string_app. eauto.
Qed.

End PatternLemmas.

Section PathLemmas.

Lemma path_parts_nonempty (s : string) : path_parts s ≠ [].
Proof.
  induction s as [|c s IH]; simpl; [done|].
  destruct (Ascii.eqb c "/"); [done|]. by destruct (path_parts s).
Qed.

Lemma path_parts_app (a b : string) :
  path_parts (a +:+ "/" +:+ b) = (path_parts a ++ path_parts b)%list.
Proof.
  induction a as [|c a IH]; [reflexivity|].
  rewrite string_app_cons. cbn [path_parts]. rewrite IH.
  destruct (Ascii.eqb c "/"); [done|].
  pose proof (path_parts_nonempty a). by destruct (path_parts a).
Qed.

Lemma path_parts_component (c : string) :
  has_separator c = false → path_parts c = [c].
Proof.
  unfold has_separator. induction c as [|x c IH]; [done|].
  cbn [String.list_ascii_of_string existsb path_parts].
  intros [Hx Hc]%orb_false_iff.
  rewrite Ascii.eqb_sym, Hx. by rewrite IH.
Qed.

Lemma render_cons (c : string) (p : list string) :
  p ≠ [] → render (c :: p) = c +:+ "/" +:+ render p.
Proof. by destruct p. Qed.

Lemma render_app (pre rest : list string) :
  pre ≠ [] → rest ≠ [] →
  render (pre ++ rest)%list = render pre +:+ "/" +:+ render rest.
Proof.
  intros Hpre Hrest. induction pre as [|c pre IH]; [done|].
  destruct pre as [|c' pre].
  - cbn [app]. by rewrite render_cons.
  - rewrite <- app_comm_cons, render_cons by done.
    rewrite IH, (render_cons c (c' :: pre)) by done.
    by rewrite !string_app_assoc.
Qed.

(** A path of components without separator is read back from its
    rendering. *)
Lemma path_parts_render (p : list string) :
  Forall (λ c, has_separator c = false) p → p ≠ [] →
  path_parts (render p) = p.
Proof.
  induction 1 as [|c p Hc Hp IH]; [done|]. intros _.
  destruct p as [|c' p].
  - by apply path_parts_component.
  - rewrite render_cons, path_parts_app, path_parts_component by done.
    by rewrite IH.
Qed.

(** The directories pytest enters on the way to [tp/dirs.../name]. *)
Lemma directories_below_spec (tp : string) (dirs : list string)
    (name : string) (d : list string) :
  d ∈ directories_below [tp] (tp :: dirs ++ [name])%list
  ↔ ∃ ds dir, ((ds ++ [dir])%list `prefix_of` dirs)
              ∧ d = (tp :: ds ++ [dir])%list.
Proof.
  unfold directories_below. rewrite list_elem_of_fmap.
  cbn [length]. rewrite length_app. cbn [length].
  replace (S (length dirs + 1) - 1 - 1)%nat with (length dirs) by lia.
  split.
  - intros (k & -> & [Hk1 Hk2]%elem_of_seq).
    destruct k as [|[|j]]; [lia|lia|].
    assert (j < length dirs)%nat as Hj by lia.
    destruct (lookup_lt_is_Some_2 dirs j Hj) as [dir Hdir].
    exists (take j dirs), dir. split.
    + rewrite <- (take_S_r _ _ _ Hdir). apply prefix_take.
    + cbn [take]. f_equal. rewrite take_app_le by lia.
      by apply take_S_r.
  - intros (ds & dir & [k ->] & ->).
    exists (S (S (length ds))). split.
    + cbn [take]. f_equal.
      replace (S (length ds)) with (length (ds ++ [dir])%list)
        by (rewrite length_app; simpl; lia).
      rewrite <- (app_assoc (ds ++ [dir])%list).
      by rewrite take_app_length.
    + apply elem_of_seq. rewrite !length_app. simpl. lia.
Qed.

End PathLemmas.

Section ConfigurationFacts.

Lemma existsb_eqb_false (x : string) (l : list string) :
  existsb (String.eqb x) l = false ↔ x ∉ l.
Proof.
  rewrite <- not_true_iff_false, existsb_exists. split.
  - intros Hno Hin. apply Hno. exists x.
    split; [by apply list_elem_of_In|apply String.eqb_refl].
  - intros Hno (y & Hin & ->%String.eqb_eq). by apply Hno, list_elem_of_In.
Qed.

(** The absolute path of a directory ends with [/docs/adr] when its
    last two components are [docs] and [adr]. *)
Lemma ends_docs_adr (root : string) (pre : list string) (dir : string) :
  pre ≠ [] → Forall (λ c, has_separator c = false) (pre ++ [dir])%list →
  (∃ r, root +:+ "/" +:+ render (pre ++ [dir])%list = r +:+ "/docs/adr")
  ↔ last pre = Some "docs" ∧ dir = "adr".
Proof.
  intros Hpre Hcomp. split.
  - intros [r Heq]. apply (f_equal path_parts) in Heq.
    change (r +:+ "/docs/adr") with (r +:+ "/" +:+ "docs/adr") in Heq.
    rewrite !path_parts_app, path_parts_render in Heq
      by (done || by destruct pre).
    change (path_parts "docs/adr") with ["docs"; "adr"] in Heq.
    destruct pre as [|c pre _] using rev_ind; [done|].
    rewrite !app_assoc in Heq.
    change (path_parts r ++ ["docs"; "adr"])%list
      with (path_parts r ++ ["docs"] ++ ["adr"])%list in Heq.
    rewrite !app_assoc in Heq.
    apply app_inj_tail in Heq as [Heq ->].
    apply app_inj_tail in Heq as [_ ->].
    by rewrite last_snoc.
  - intros [(pre' & ->)%last_Some ->].
    rewrite <- app_assoc. cbn [app].
    destruct pre' as [|c pre'].
    + by exists root.
    + rewrite render_app by done.
      exists (root +:+ "/" +:+ render (c :: pre')).
      change (render ["docs"; "adr"]) with "docs/adr".
      change "/docs/adr" with ("/" +:+ "docs/adr").
      by rewrite !string_app_assoc.
Qed.

(** The directories that [norecursedirs] prunes. *)
Lemma norecurse_spec (root : string) (pre : list string) (dir : string) :
  pre ≠ [] → Forall (λ c, has_separator c = false) (pre ++ [dir])%list →
  norecurse tool_pytest_ini_options root (pre ++ [dir])%list = true
  ↔ dir ∈ [".ipynb_checkpoints"; ".virtual_documents"; "_build"]
    ∨ (last pre = Some "docs" ∧ dir = "adr").
Proof.
  intros Hpre Hcomp. unfold norecurse.
  cbn [norecursedirs tool_pytest_ini_options existsb]. unfold fnmatch_ex.
  change (has_separator ".ipynb_checkpoints") with false.
  change (has_separator ".virtual_documents") with false.
  change (has_separator "_build") with false.
  change (has_separator "docs/adr") with true.
  cbv iota. rewrite last_last, orb_false_r, !orb_true_iff.
  rewrite !fnmatch_exact by (repeat constructor).
  change ("*/" +:+ "docs/adr") with ("*" +:+ "/docs/adr").
  rewrite fnmatch_ends by (repeat constructor).
  rewrite ends_docs_adr by done.
  rewrite !elem_of_cons, elem_of_nil. tauto.
Qed.

(** What [--ignore] and [--ignore-glob] take out. *)
Lemma ignored_inv (q : list string) :
  q ≠ [] → Forall (λ c, has_separator c = false) q →
  ignored (options tool_pytest_ini_options nbmake_run) q = true →
  q = ["docs"; "adr"; "001"; "sympy.ipynb"]
  ∨ q = ["docs"; "conf.py"]
  ∨ ∃ a b, a ≠ [] ∧ b ≠ [] ∧ q = (a ++ ".ipynb_checkpoints" :: b)%list.
Proof.
  intros Hq Hcomp. unfold ignored.
  change (option_values "--ignore=" _)
    with ["docs/adr/001/sympy.ipynb"; "docs/conf.py"].
  change (option_values "--ignore-glob=" _) with ["*/.ipynb_checkpoints/*"].
  cbn [existsb]. rewrite !orb_false_r, !orb_true_iff, !String.eqb_eq.
  intros [[Heq|Heq]|Hglob].
  - left. apply (f_equal path_parts) in Heq.
    by rewrite path_parts_render in Heq.
  - right; left. apply (f_equal path_parts) in Heq.
    by rewrite path_parts_render in Heq.
  - right; right.
    change "*/.ipynb_checkpoints/*"
      with ("*" +:+ "/.ipynb_checkpoints/" +:+ "*") in Hglob.
    apply fnmatch_contains in Hglob as (a & b & Heq); [|by repeat constructor].
    change (a +:+ "/.ipynb_checkpoints/" +:+ b)
      with (a +:+ "/" +:+ (".ipynb_checkpoints" +:+ "/" +:+ b)) in Heq.
    apply (f_equal path_parts) in Heq.
    rewrite !path_parts_app, path_parts_render in Heq by done.
    exists (path_parts a), (path_parts b).
    split; [apply path_parts_nonempty|].
    split; [apply path_parts_nonempty|]. exact Heq.
Qed.

(** What [-k] keeps. *)
Lemma selected_spec (p : list string) :
  selected (options tool_pytest_ini_options nbmake_run) p = true
  ↔ ¬ ∃ a b, lower (render p) = a +:+ "docs/report/019.ipynb" +:+ b.
Proof.
  unfold selected.
  change (keyword _) with (Some (KNot (KName "docs/report/019.ipynb"))).
  cbn [keyword_selects name_matches existsb].
  change (lower "docs/report/019.ipynb") with "docs/report/019.ipynb".
  change (is_substring_chars _ (String.list_ascii_of_string (lower "")))
    with false.
  rewrite !orb_false_r, negb_true_iff, <- not_true_iff_false.
  by rewrite is_substring_spec.
Qed.

End ConfigurationFacts.

Section EnteredDirectories.
Variable root : string.
Variable in_venv : list string → bool.
Variable tp : string.
Variable dirs : list string.
Hypothesis test_path : tp = "docs" ∨ tp = ".pre-commit".
Hypothesis components :
  Forall (λ c, has_separator c = false) (tp :: dirs).
Hypothesis entered : ∀ ds dir, ((ds ++ [dir])%list `prefix_of` dirs) →
  (dir ∉ [".ipynb_checkpoints"; ".virtual_documents"; "_build"; "__pycache__"])
  ∧ ¬ (last (tp :: ds) = Some "docs" ∧ dir = "adr")
  ∧ ¬ (tp = "docs" ∧ ds = [] ∧ dir = "conf.py")
  ∧ in_venv (tp :: ds ++ [dir])%list = false.

Lemma entered_not_checkpoints (a b : list string) :
  dirs ≠ (a ++ ".ipynb_checkpoints" :: b)%list.
Proof.
  intros Heq.
  destruct (entered a ".ipynb_checkpoints") as [Hname _].
  - exists b. rewrite Heq, <- app_assoc. reflexivity.
  - apply Hname. apply list_elem_of_here.
Qed.

(** A path on the way that is ignored can only be [docs/conf.py]. *)
Lemma ignored_on_the_way (m : list string) (x : string) :
  (m `prefix_of` dirs) → has_separator x = false →
  ignored (options tool_pytest_ini_options nbmake_run)
    (tp :: m ++ [x])%list = true →
  tp = "docs" ∧ m = [] ∧ x = "conf.py".
Proof.
  intros [k Hk] Hx Hig.
  assert (Forall (λ c, has_separator c = false) (tp :: m ++ [x])%list)
    as Hcomp.
  { pose proof components as Hc. rewrite Hk in Hc.
    apply Forall_cons in Hc as [Htp [Hm _]%Forall_app].
    apply Forall_cons. split; [done|]. apply Forall_app. split; [done|].
    by apply Forall_singleton. }
  apply ignored_inv in Hig as [Heq|[Heq|(a & b & Ha & Hb & Heq)]];
    [| |
    |done|exact Hcomp].
  - exfalso. injection Heq as -> Heq.
    change ["adr"; "001"; "sympy.ipynb"]
      with (["adr"; "001"] ++ ["sympy.ipynb"])%list in Heq.
    apply app_inj_tail in Heq as [-> _].
    destruct (entered [] "adr") as (_ & Hadr & _).
    + exists ("001" :: k). by rewrite Hk.
    + by apply Hadr.
  - injection Heq as -> Heq.
    change ["conf.py"] with ([] ++ ["conf.py"])%list in Heq.
    by apply app_inj_tail in Heq as [-> ->].
  - exfalso. destruct a as [|c a]; [done|]. injection Heq as _ Heq.
    destruct b as [|l b _] using rev_ind; [done|].
    rewrite app_comm_cons, app_assoc in Heq.
    apply app_inj_tail in Heq as [-> _].
    apply (entered_not_checkpoints a (b ++ k)%list).
    rewrite Hk, <- app_assoc. reflexivity.
Qed.

(** pytest enters every directory on the way. *)
Lemma recurse_entered (ds : list string) (dir : string) :
  ((ds ++ [dir])%list `prefix_of` dirs) →
  recurse tool_pytest_ini_options root in_venv
    (options tool_pytest_ini_options nbmake_run) (tp :: ds ++ [dir])%list
  = true.
Proof.
  intros Hpre.
  destruct (entered ds dir Hpre) as (Hname & Hadr & Hconf & Hvenv).
  assert (Forall (λ c, has_separator c = false) ((tp :: ds) ++ [dir])%list)
    as Hcomp.
  { pose proof components as Hc. destruct Hpre as [k ->].
    apply Forall_cons in Hc as [Htp [Hm _]%Forall_app].
    by apply Forall_cons. }
  unfold recurse. rewrite Hvenv.
  rewrite app_comm_cons, last_last.
  rewrite !andb_true_iff, !negb_true_iff. repeat split.
  - apply not_true_iff_false. intros ->%String.eqb_eq.
    apply Hname. rewrite !elem_of_cons. tauto.
  - apply not_true_iff_false. intros Hig.
    rewrite <- app_comm_cons in Hig.
    apply ignored_on_the_way in Hig; [tauto| |].
    + destruct Hpre as [k ->]. exists ([dir] ++ k)%list.
      by rewrite app_assoc.
    + apply Forall_app in Hcomp as [_ Hdir].
      by rewrite Forall_singleton in Hdir.
  - apply not_true_iff_false. rewrite norecurse_spec by done.
    rewrite !elem_of_cons in *. rewrite elem_of_nil in *. tauto.
Qed.

End EnteredDirectories.

Section TestedNotebooks.


End TestedNotebooks.


(** The notebooks of symbolics.ipynb and of reports 009 and 022 are
    run in such a checkout. *)
Example notebooks_run :
  let run := tested tool_pytest_ini_options "/home/user/compwa.github.io"
               (λ _, false) nbmake_run in
  run ["docs"; "symbolics.ipynb"] = true
  ∧ run ["docs"; "report"; "009.ipynb"] = true
  ∧ run ["docs"; "report"; "022.ipynb"] = true.
Proof. by vm_compute. Qed.


Section WrittenFiles.

Lemma STATIC_WEB_PAGE_nonempty (environ : gmap string string) :
  STATIC_WEB_PAGE environ ≠ ∅
  ↔ "EXECUTE_NB" ∈ dom environ ∨ "READTHEDOCS" ∈ dom environ.
Proof.
  unfold STATIC_WEB_PAGE. split.
  - intros Hne. apply set_choose_L in Hne as [x Hx]. set_solver.
  - intros [Hin|Hin] Hempty; set_solver.
Qed.



End WrittenFiles.

(** ** Further properties of the notebooks' code *)

Section MoreBuilderFacts.
Context {num : Type} `{NumberDomain num}.
Variable StateTransitionGraph : Type.
Variable EdgeProps : Type.
Variable determine_attached_final_state : StateTransitionGraph → Z → list Z.
Variable get_edge_props : StateTransitionGraph → Z → Particle * EdgeProps.

(** X1: the two builders agree: [RelativisticBreitWigner.from_graph]
    of function.ipynb returns the expression that
    [relativistic_breit_wigner_from_graph] of composition.ipynb stores
    in the [expression] field: the Breit-Wigner of the mass symbol
    [m_{i+j+...}], named after the ids of the attached final state
    joined by [+], and of the symbols [m_{p}] and [\Gamma_{p}], named
    after the LaTeX name [p] of the particle on the edge. *)
Theorem from_graph_builders_agree (graph : StateTransitionGraph) (edge_id : Z) :
  let final_state_ids :=
    (pretty : Z → string) <$> determine_attached_final_state graph edge_id in
  let particle := (get_edge_props graph edge_id).1 in
  let e : expr num :=
    relativistic_breit_wigner
      (Symbol ("m_{" +:+ String.concat "+" final_state_ids +:+ "}"))
      (Symbol ("m_{" +:+ latex particle +:+ "}"))
      (Symbol ("\Gamma_{" +:+ latex particle +:+ "}")) in
  RelativisticBreitWigner_from_graph StateTransitionGraph EdgeProps
    determine_attached_final_state get_edge_props graph edge_id
  = Ok (Evaluated e)
  ∧ expression (relativistic_breit_wigner_from_graph StateTransitionGraph
                  EdgeProps determine_attached_final_state get_edge_props
                  graph edge_id)
    = VExpr e.
Proof.
  unfold RelativisticBreitWigner_from_graph,
    relativistic_breit_wigner_from_graph.
  destruct (get_edge_props graph edge_id) as [particle props]. simpl.
  split; reflexivity.
Qed.

(** X2: [RelativisticBreitWigner] reads its first three arguments
    only: with fewer it raises [IndexError], and further arguments do
    not change the result. *)
Theorem RelativisticBreitWigner_arguments :
  (∀ args : list (expr num), (length args < 3)%nat →
     RelativisticBreitWigner args = Raise IndexError)
  ∧ (∀ (mass mass0 gamma0 : expr num) (rest : list (expr num)),
       RelativisticBreitWigner (mass :: mass0 :: gamma0 :: rest)
       = Ok (Evaluated (relativistic_breit_wigner mass mass0 gamma0))).
Proof.
  split.
  - intros [|a [|b [|c rest]]] Hlen; simpl in Hlen; try lia; reflexivity.
  - reflexivity.
Qed.

Lemma RelativisticBreitWigner_three (mass mass0 gamma0 : expr num) :
  RelativisticBreitWigner [mass; mass0; gamma0]
  = Ok (Evaluated (relativistic_breit_wigner mass mass0 gamma0)).
Proof. reflexivity. Qed.

Variable two_body_momentum_squared : expr num → expr num → expr num → expr num.
Variable blatt_weisskopf : expr num → expr num → expr num → expr num.
Variable sqrt : expr num → expr num.
Variable spin : Particle → expr num.

(** X5: the class and the function with a form factor agree as well:
    constructing [RelativisticBreitWignerWithFF] on seven arguments
    yields the expression that
    [relativistic_breit_wigner_with_form_factor] returns on them. *)
Theorem form_factor_formulations_agree
    (mass mass0 gamma0 m_a m_b angular_momentum meson_radius : expr num) :
  RelativisticBreitWignerWithFF two_body_momentum_squared blatt_weisskopf sqrt
    [mass; mass0; gamma0; m_a; m_b; angular_momentum; meson_radius]
  = Ok (Evaluated
          (relativistic_breit_wigner_with_form_factor
             two_body_momentum_squared blatt_weisskopf sqrt
             mass mass0 gamma0 m_a m_b angular_momentum meson_radius)).
Proof.
  unfold RelativisticBreitWignerWithFF, Function_new,
    RelativisticBreitWignerWithFF_eval,
    relativistic_breit_wigner_with_form_factor.
  cbv zeta. rewrite RelativisticBreitWigner_three. reflexivity.
Qed.

(** X6: the builder with a form factor has the defect of the plain
    one: whenever it returns, [variables] holds a bare symbol and
    [substitute()] raises [TypeError]; it returns exactly when the
    final state has at least two edges. *)
Theorem form_factor_from_graph_substitute_raises
    (graph : StateTransitionGraph) (edge_id : Z) :
  let built := relativistic_breit_wigner_with_form_factor_from_graph
                 StateTransitionGraph EdgeProps determine_attached_final_state
                 get_edge_props two_body_momentum_squared blatt_weisskopf
                 sqrt spin graph edge_id in
  (returns built ↔
     (2 <= length (determine_attached_final_state graph edge_id))%nat)
  ∧ (∀ d, built = Ok d →
       (∃ name, variables d = VExpr (Symbol name))
       ∧ substitute d = Raise TypeError).
Proof.
  unfold relativistic_breit_wigner_with_form_factor_from_graph, returns.
  destruct (get_edge_props graph edge_id) as [particle props].
  destruct (determine_attached_final_state graph edge_id)
    as [|id0 [|id1 rest]]; simpl.
  - split; [split; [intros [d [=]]|lia]|intros d [=]].
  - split; [split; [intros [d [=]]|lia]|intros d [=]].
  - split; [split; [lia|eauto]|].
    intros d [= <-]. simpl. split; [eauto|reflexivity].
Qed.

End MoreBuilderFacts.

Section MoreMatrixFacts.

Lemma K_element_inj n i j i' j' :
  K_element n i j = K_element n i' j' → i = i' ∧ j = j'.
Proof. by intros [= -> ->]. Qed.

Lemma range_elem n (i : Z) : i ∈ range n → (0 <= i < n)%Z.
Proof.
  unfold range. intros (k & -> & Hk%elem_of_seq)%list_elem_of_fmap. lia.
Qed.

Lemma range_NoDup n : NoDup (range n).
Proof.
  unfold range. apply NoDup_fmap_2; [apply Nat2Z.inj'|apply NoDup_seq].
Qed.

Lemma join_fmap_bind {A B} (f : A → list B) (l : list A) :
  mjoin (f <$> l) = l ≫= f.
Proof. induction l as [|x l IH]; csimpl; [done|]. by rewrite IH. Qed.

(** X3: the substitution of [relativistic_k_matrix] has one key per
    element of the matrix that [create_symbol_matrix] returns: its
    keys are the elements of the matrix, row by row, each once. *)
Theorem substitution_keys_cover (name : string) (n : Z) :
  ∃ K keys,
    create_symbol_matrix name n = Ok K
    ∧ substitution_keys K n = Ok keys
    ∧ keys = mjoin K
    ∧ NoDup keys.
Proof.
  eexists _, _. split; [apply create_symbol_matrix_eq|].
  set (K := (λ i, (λ j, K_element n i j) <$> range n) <$> range n).
  assert (substitution_keys K n = Ok (mjoin K)) as Hkeys.
  { unfold substitution_keys.
    rewrite (mapM_result_ok _ (λ i, (λ j, K_element n i j) <$> range n));
      [reflexivity|].
    intros i Hi%range_elem. apply mapM_result_ok.
    intros j Hj%range_elem. unfold Matrix_getitem.
    assert (Matrix_rows K = n ∧ Matrix_cols K = n) as [-> ->].
    { unfold Matrix_rows, Matrix_cols, K.
      rewrite length_fmap, range_length, Z2Nat.id by lia.
      split; [done|]. unfold range at 2.
      destruct (Z.to_nat n) as [|k] eqn:Hk; [lia|]. simpl.
      rewrite length_fmap, range_length. lia. }
    unfold a2idx.
    destruct (Z.ltb_spec i 0) as [|_]; [lia|].
    destruct (Z.ltb_spec j 0) as [|_]; [lia|].
    rewrite !bool_decide_eq_true_2 by lia. simpl.
    unfold entry, K. rewrite list_lookup_fmap.
    rewrite <- (Z2Nat.id i) at 1 by lia.
    rewrite range_lookup by lia. simpl.
    rewrite list_lookup_fmap.
    rewrite <- (Z2Nat.id j) at 1 by lia.
    rewrite range_lookup by lia. simpl.
    by rewrite !Z2Nat.id by lia. }
  split; [exact Hkeys|]. split; [reflexivity|].
  unfold K. rewrite join_fmap_bind.
  apply NoDup_bind; [| |apply range_NoDup].
  - intros i i' y _ _ (j & -> & _)%list_elem_of_fmap
      (j' & Heq & _)%list_elem_of_fmap.
    by apply K_element_inj in Heq as [-> _].
  - intros i _. apply NoDup_fmap_2_strong; [|apply range_NoDup].
    intros j j' _ _ Heq. by apply K_element_inj in Heq as [_ ->].
Qed.

End MoreMatrixFacts.

Section ParameterFacts.
Context {V : Type}.

Lemma pop_subseteq key (d : list (string * V)) kv : kv ∈ pop key d → kv ∈ d.
Proof. unfold pop. by intros [_ ?]%list_elem_of_filter. Qed.

Lemma without_d_subseteq (d : list (string * V)) kv : kv ∈ without_d d → kv ∈ d.
Proof. unfold without_d. by intros [_ ?]%list_elem_of_filter. Qed.

(** X4: the cell of 022.ipynb splits the parameters in two: when the
    names in [parameter_defaults] are distinct and the cell returns,
    every parameter is either free or fixed and none is both, the
    coefficient that was removed is fixed, and so is every parameter
    whose name starts with "d". *)
Theorem split_parameters_partition
    (parameter_defaults free_symbols fixed_symbols : list (string * V)) :
  NoDup parameter_defaults.*1 →
  split_parameters parameter_defaults = Ok (free_symbols, fixed_symbols) →
  (∀ kv, kv ∈ parameter_defaults ↔ kv ∈ free_symbols ∨ kv ∈ fixed_symbols)
  ∧ (∀ k, k ∈ free_symbols.*1 → k ∉ fixed_symbols.*1)
  ∧ (∃ c, some_coefficient (without_d parameter_defaults) = Ok c
          ∧ startswith c "C" = true
          ∧ c ∈ fixed_symbols.*1 ∧ c ∉ free_symbols.*1)
  ∧ (∀ kv, kv ∈ parameter_defaults → startswith kv.1 "d" = true →
       kv ∈ fixed_symbols).
Proof.
  intros Hnd. unfold split_parameters.
  destruct (some_coefficient (without_d parameter_defaults)) as [c|] eqn:Hc;
    simpl; [|done].
  intros [= <- <-].
  set (free := pop c (without_d parameter_defaults)).
  assert (∀ kv, kv ∈ free → kv ∈ parameter_defaults) as Hfree
    by (intros kv Hkv; by apply without_d_subseteq, (pop_subseteq c)).
  assert (∀ k v v', (k, v) ∈ parameter_defaults → (k, v') ∈ parameter_defaults →
            v = v') as Hfun.
  { intros k v v' Hv Hv'.
    destruct (list_elem_of_lookup_1 _ _ Hv) as [i Hi].
    destruct (list_elem_of_lookup_1 _ _ Hv') as [j Hj].
    assert (i = j) as ->; [|congruence].
    eapply NoDup_lookup; [exact Hnd| |];
      rewrite list_lookup_fmap; [by rewrite Hi|by rewrite Hj]. }
  assert (c ∈ (without_d parameter_defaults).*1 ∧ startswith c "C" = true)
    as [Hcin HcC].
  { unfold some_coefficient in Hc.
    destruct (filter _ _) as [|kv l] eqn:Hf; [done|]. injection Hc as <-.
    assert (kv ∈ filter (λ kv, startswith kv.1 "C" = true)
                   (without_d parameter_defaults)) as Hin
      by (rewrite Hf; left).
    apply list_elem_of_filter in Hin as [HC Hin].
    split; [|done]. apply list_elem_of_fmap. eauto. }
  assert (c ∉ free.*1) as Hcfree.
  { intros (kv & -> & Hkv)%list_elem_of_fmap.
    unfold free, pop in Hkv. by apply list_elem_of_filter in Hkv as [? _]. }
  split; [|split; [|split]].
  - intros [k v]. split.
    + intros Hkv. destruct (decide (k ∈ free.*1)) as [Hin|Hout].
      * left. apply list_elem_of_fmap in Hin as ([k' v'] & -> & Hin).
        simpl. by rewrite (Hfun k' v v' Hkv (Hfree _ Hin)).
      * right. apply list_elem_of_filter. by split.
    + intros [Hkv|Hkv]; [by apply Hfree|].
      by apply list_elem_of_filter in Hkv as [_ ?].
  - intros k Hk (kv & -> & Hkv)%list_elem_of_fmap.
    by apply list_elem_of_filter in Hkv as [? _].
  - exists c. split; [done|]. split; [done|]. split; [|done].
    apply list_elem_of_fmap in Hcin as (kv & -> & Hkv).
    apply list_elem_of_fmap. exists kv. split; [done|].
    apply list_elem_of_filter. split; [done|by apply without_d_subseteq].
  - intros kv Hkv Hd. apply list_elem_of_filter. split; [|done].
    intros (kv' & Heq & Hkv')%list_elem_of_fmap.
    apply (pop_subseteq c) in Hkv'. unfold without_d in Hkv'.
    apply list_elem_of_filter in Hkv' as [Hd' _]. congruence.
Qed.

End ParameterFacts.

Lemma split_parameters_partition_witness :
  let parameter_defaults : list (string * Z) :=
    [("C_{a}", 1); ("m_{f0}", 2); ("d_{f0}", 3); ("C_{b}", 4)] in
  let free_symbols := [("m_{f0}", 2); ("C_{b}", 4)] in
  let fixed_symbols := [("C_{a}", 1); ("d_{f0}", 3)] in
  NoDup parameter_defaults.*1
  ∧ split_parameters parameter_defaults = Ok (free_symbols, fixed_symbols)
  ∧ (∀ kv, kv ∈ parameter_defaults ↔ kv ∈ free_symbols ∨ kv ∈ fixed_symbols)
  ∧ (∀ k, k ∈ free_symbols.*1 → k ∉ fixed_symbols.*1)
  ∧ (∃ c, some_coefficient (without_d parameter_defaults) = Ok c
          ∧ startswith c "C" = true
          ∧ c ∈ fixed_symbols.*1 ∧ c ∉ free_symbols.*1)
  ∧ (∀ kv, kv ∈ parameter_defaults → startswith kv.1 "d" = true →
       kv ∈ fixed_symbols).
Proof.
  intros parameter_defaults free_symbols fixed_symbols.
  assert (NoDup parameter_defaults.*1) as Hnd
    by (apply (bool_decide_unpack _); by vm_compute).
  assert (split_parameters parameter_defaults
          = Ok (free_symbols, fixed_symbols)) as Hsplit by (by vm_compute).
  split; [exact Hnd|]. split; [exact Hsplit|].
  exact (split_parameters_partition parameter_defaults free_symbols
           fixed_symbols Hnd Hsplit).
Defined.
(** ** Properties of the other functions of the notebooks *)

Section FormFactorBuilderFacts.
Context {num : Type} `{NumberDomain num}.
Variable StateTransitionGraph : Type.
Variable EdgeProps : Type.
Variable determine_attached_final_state : StateTransitionGraph → Z → list Z.
Variable get_edge_props : StateTransitionGraph → Z → Particle * EdgeProps.
Variable two_body_momentum_squared : expr num → expr num → expr num → expr num.
Variable blatt_weisskopf : expr num → expr num → expr num → expr num.
Variable sqrt : expr num → expr num.
Variable spin : Particle → expr num.

Lemma RelativisticBreitWignerWithFF_seven
    (mass mass0 gamma0 m_a m_b angular_momentum meson_radius : expr num) :
  RelativisticBreitWignerWithFF two_body_momentum_squared blatt_weisskopf sqrt
    [mass; mass0; gamma0; m_a; m_b; angular_momentum; meson_radius]
  = Ok (Evaluated
          (relativistic_breit_wigner_with_form_factor
             two_body_momentum_squared blatt_weisskopf sqrt
             mass mass0 gamma0 m_a m_b angular_momentum meson_radius)).
Proof.
  unfold RelativisticBreitWignerWithFF, Function_new,
    RelativisticBreitWignerWithFF_eval,
    relativistic_breit_wigner_with_form_factor.
  cbv zeta.
  change (RelativisticBreitWigner [mass; mass0; ?w])
    with (Ok (A:=constructed (num:=num))
            (Evaluated (relativistic_breit_wigner mass mass0 w))).
  reflexivity.
Qed.

(** X7: the two builders with a form factor agree: on a final state
    of fewer than two edges both raise [IndexError]; otherwise
    [RelativisticBreitWignerWithFF.from_graph] returns the expression
    that [relativistic_breit_wigner_with_form_factor_from_graph]
    stores in [expression], and the six parameters of the latter are
    the second to seventh argument of the former. *)
Theorem form_factor_from_graph_builders_agree
    (graph : StateTransitionGraph) (edge_id : Z) :
  let by_class := RelativisticBreitWignerWithFF_from_graph
                    StateTransitionGraph EdgeProps
                    determine_attached_final_state get_edge_props
                    two_body_momentum_squared blatt_weisskopf sqrt spin
                    graph edge_id in
  let by_function := relativistic_breit_wigner_with_form_factor_from_graph
                       StateTransitionGraph EdgeProps
                       determine_attached_final_state get_edge_props
                       two_body_momentum_squared blatt_weisskopf sqrt spin
                       graph edge_id in
  ((length (determine_attached_final_state graph edge_id) < 2)%nat →
     by_class = Raise IndexError ∧ by_function = Raise IndexError)
  ∧ ((2 <= length (determine_attached_final_state graph edge_id))%nat →
       ∃ (d : DynamicsExpression num) (mass : expr num)
         (rest : list (expr num)),
         by_function = Ok d
         ∧ variables d = VExpr mass
         ∧ parameters d = VTuple (VExpr <$> rest)
         ∧ length rest = 6%nat
         ∧ RelativisticBreitWignerWithFF two_body_momentum_squared
             blatt_weisskopf sqrt (mass :: rest) = by_class
         ∧ ∃ e, by_class = Ok (Evaluated e) ∧ expression d = VExpr e).
Proof.
  unfold RelativisticBreitWignerWithFF_from_graph,
    relativistic_breit_wigner_with_form_factor_from_graph.
  destruct (get_edge_props graph edge_id) as [particle props].
  destruct (determine_attached_final_state graph edge_id)
    as [|id0 [|id1 ids]]; cbn [length]; (split; [intros Hlen|intros Hlen]);
    try lia; try (split; reflexivity).
  cbv zeta.
  eexists _, _, [_; _; _; _; _; _].
  split; [reflexivity|]. cbn [variables parameters expression fmap list_fmap].
  split; [reflexivity|]. split; [reflexivity|]. split; [reflexivity|].
  split; [reflexivity|].
  rewrite RelativisticBreitWignerWithFF_seven.
  eexists. split; reflexivity.
Qed.

End FormFactorBuilderFacts.

Section StringFacts.

Lemma string_forall_app P s t :
  string_forall P (s +:+ t) = string_forall P s && string_forall P t.
Proof.
  induction s as [|c s IH]; simpl; [done|]. by rewrite IH, andb_assoc.
Qed.

Lemma string_forall_impl (P Q : ascii → bool) s :
  (∀ c, P c = true → Q c = true) →
  string_forall P s = true → string_forall Q s = true.
Proof.
  intros HPQ. induction s as [|c s IH]; simpl; [done|].
  intros [Hc Hs]%andb_true_iff. rewrite (HPQ c Hc). by apply IH.
Qed.

Lemma pretty_N_char_digit x : is_digit (pretty_N_char x) = true.
Proof. unfold pretty_N_char. by repeat case_match. Qed.

Lemma pretty_N_go_digits x s :
  string_forall is_digit s = true →
  string_forall is_digit (pretty_N_go x s) = true.
Proof.
  revert s. induction (N.lt_wf_0 x) as [x _ IH]; intros s Hs.
  assert (x = 0 ∨ 0 < x)%N as [->|?] by lia.
  - by rewrite pretty_N_go_0.
  - rewrite pretty_N_go_step by done. apply IH.
    { by apply N.div_lt. }
    simpl. by rewrite pretty_N_char_digit, Hs.
Qed.

Lemma pretty_N_go_nonempty x s :
  (0 < x)%N → pretty_N_go x s ≠ "".
Proof.
  revert s. induction (N.lt_wf_0 x) as [x _ IH]; intros s Hx.
  rewrite pretty_N_go_step by done.
  destruct (decide (x `div` 10 = 0)%N) as [->|Hne].
  - by rewrite pretty_N_go_0.
  - apply IH; [by apply N.div_lt|]. by apply N.neq_0_lt_0.
Qed.

Lemma pretty_N_digits (x : N) :
  string_forall is_digit (pretty x) = true ∧ pretty x ≠ "".
Proof.
  unfold pretty, pretty_N. case_decide as Hx; [done|].
  split; [by apply pretty_N_go_digits|apply pretty_N_go_nonempty; lia].
Qed.

(** The decimal form of a natural number: digits, and at least one. *)
Lemma pretty_Z_digits (x : Z) :
  0 <= x → string_forall is_digit (pretty x) = true ∧ pretty x ≠ "".
Proof.
  destruct x as [|p|p]; [done| |lia]. intros _.
  apply (pretty_N_digits (N.pos p)).
Qed.

(** The decimal form of an integer has digits and a sign only. *)
Lemma pretty_Z_chars (P : ascii → bool) (x : Z) :
  (∀ c, is_digit c = true → P c = true) → P "-"%char = true →
  string_forall P (pretty x) = true.
Proof.
  intros Hd Hm.
  destruct x as [|p|p].
  - simpl. rewrite Hd; done.
  - apply (string_forall_impl is_digit); [done|].
    apply (pretty_N_digits (N.pos p)).
  - change (pretty (Z.neg p)) with ("-" +:+ pretty (N.pos p)).
    simpl. rewrite Hm. simpl.
    apply (string_forall_impl is_digit); [done|].
    apply (pretty_N_digits (N.pos p)).
Qed.

Lemma rpartition_last_none sep s :
  string_forall (λ c, negb (Ascii.eqb c sep)) s = true →
  rpartition_last sep s = None.
Proof.
  induction s as [|c s IH]; simpl; [done|].
  intros [Hc Hs]%andb_true_iff. rewrite (IH Hs).
  by destruct (Ascii.eqb c sep).
Qed.

(** [rpartition] splits at the last separator: when no separator
    follows, the head is everything before this one. *)
Lemma rpartition_last_app sep h t :
  string_forall (λ c, negb (Ascii.eqb c sep)) t = true →
  rpartition_last sep (h +:+ String sep t) = Some (h, t).
Proof.
  intros Ht. induction h as [|c h IH]; simpl.
  - rewrite (rpartition_last_none _ _ Ht). by rewrite Ascii.eqb_refl.
  - by rewrite IH.
Qed.

Lemma string_app_inj_r (s t u : string) : s +:+ t = s +:+ u → t = u.
Proof. induction s as [|c s IH]; simpl; [done|]. intros [= ?]. auto. Qed.

End StringFacts.

Section IndexedSymbolFacts.

Lemma to_symbol_one_index (b : IndexedBase) (i : Z) :
  to_symbol {| base := b; indices := [i] |} = Ok (label b +:+ pretty i).
Proof.
  unfold to_symbol, rpartition, Indexed_str. cbn [base indices fmap list_fmap].
  change (String.concat ", " [pretty i]) with (pretty i).
  change (String.concat "," [pretty i]) with (pretty i).
  change (label b +:+ "[" +:+ pretty i +:+ "]")
    with (label b +:+ String "[" (pretty i +:+ "]")).
  rewrite rpartition_last_app; [done|].
  rewrite string_forall_app. apply andb_true_iff. split; [|done].
  apply pretty_Z_chars; [|done].
  intros c Hc. apply negb_true_iff, Ascii.eqb_neq. by intros ->.
Qed.

(** X8: [to_symbol] names a symbol after a singly indexed element by
    the label of the base followed by the index, whatever characters
    the label has; on an element with two or more indices, such as
    every element of the matrix of [create_symbol_matrix], it raises
    [NameError]. *)
Theorem to_symbol_names :
  (∀ (b : IndexedBase) (i : Z),
     to_symbol {| base := b; indices := [i] |} = Ok (label b +:+ pretty i))
  ∧ (∀ idx : Indexed, (2 <= length (indices idx))%nat →
       to_symbol idx = Raise NameError)
  ∧ (∀ n i j : Z, to_symbol (K_element n i j) = Raise NameError).
Proof.
  split; [apply to_symbol_one_index|]. split.
  - intros idx Hlen. unfold to_symbol.
    destruct (rpartition _ _) as [[base_name ?] ?].
    destruct (1 <? length (indices idx))%nat eqn:Hlt; [done|].
    apply Nat.ltb_ge in Hlt. lia.
  - intros n i j. unfold to_symbol.
    by destruct (rpartition _ _) as [[base_name ?] ?].
Qed.

(** X9: on the elements of one base with a single index [to_symbol]
    is injective, but two elements of different bases can get the same
    name: [m[11]] and [m1[1]] both become [m11]. *)
Theorem to_symbol_collisions :
  (∀ (b : IndexedBase) (i j : Z),
     to_symbol {| base := b; indices := [i] |}
     = to_symbol {| base := b; indices := [j] |} → i = j)
  ∧ (∃ idx1 idx2 name,
       idx1 ≠ idx2 ∧ label (base idx1) ≠ label (base idx2)
       ∧ to_symbol idx1 = Ok name ∧ to_symbol idx2 = Ok name).
Proof.
  split.
  - intros b i j. rewrite !to_symbol_one_index. intros [= Heq].
    apply string_app_inj_r in Heq. by apply (inj pretty).
  - exists {| base := {| label := "m"; shape := [] |}; indices := [11] |},
           {| base := {| label := "m1"; shape := [] |}; indices := [1] |},
           "m11".
    split; [done|]. split; [done|]. split; reflexivity.
Qed.

End IndexedSymbolFacts.

Section PhaseSpaceFacts.
Context {num : Type} `{NumberDomain num}.

Lemma for_each_app {A B} (f : B → A → result B) (b : B) (l1 l2 : list A) :
  for_each f b (l1 ++ l2) = for_each f b l1 ≫= λ b', for_each f b' l2.
Proof.
  revert b. induction l1 as [|x l1 IH]; intros b; simpl; [done|].
  destruct (f b x) as [b'|e]; simpl; [apply IH|done].
Qed.

Lemma getitem_rank (b : IndexedBase) (idx : list Z) :
  idx ≠ [] → length (shape b) = length idx →
  getitem b idx = Ok {| base := b; indices := idx |}.
Proof.
  intros Hne Hlen. unfold getitem.
  rewrite bool_decide_eq_false_2 by (intros [_ ?]; done).
  by rewrite bool_decide_eq_false_2.
Qed.

Lemma filled_zeros (n : nat) :
  filled n 0 (replicate n (replicate n Zero)).
Proof.
  split; [by rewrite length_replicate|]. split.
  - apply Forall_replicate. by rewrite length_replicate.
  - intros i j Hi Hj. unfold entry.
    rewrite lookup_replicate_2 by done. simpl.
    rewrite lookup_replicate_2 by done.
    rewrite decide_False by lia. done.
Qed.

Lemma filled_step (n k : nat) (rho : Matrix (rho_entry num)) :
  (k < n)%nat → filled n k rho →
  ∃ rho', Matrix_setitem rho (Z.of_nat k) (Z.of_nat k)
            (channel_factor (Z.of_nat n) (Z.of_nat k)) = Ok rho'
    ∧ filled n (S k) rho'.
Proof.
  intros Hk (Hlen & Hrows & Hent).
  destruct (lookup_lt_is_Some_2 rho k) as [row Hrow]; [lia|].
  assert (length row = n) as Hrowlen.
  { by apply (Forall_lookup_1 _ _ _ _ Hrows Hrow). }
  unfold Matrix_setitem.
  replace (Z.of_nat k <? 0)%Z with false by (symmetry; apply Z.ltb_ge; lia).
  replace ((0 <=? Z.of_nat k) && (Z.of_nat k <? Z.of_nat (length rho)))%Z
    with true
    by (symmetry; apply andb_true_iff; split;
        [apply Z.leb_le|apply Z.ltb_lt]; lia).
  rewrite Nat2Z.id, Hrow.
  replace ((0 <=? Z.of_nat k) && (Z.of_nat k <? Z.of_nat (length row)))%Z
    with true
    by (symmetry; apply andb_true_iff; split;
        [apply Z.leb_le|apply Z.ltb_lt]; lia).
  eexists. split; [reflexivity|].
  split; [by rewrite length_insert|]. split.
  - apply Forall_insert; [done|]. by rewrite length_insert.
  - intros i j Hi Hj. unfold entry.
    destruct (decide (i = k)) as [->|Hik].
    + rewrite list_lookup_insert_eq by lia. simpl.
      destruct (decide (j = k)) as [->|Hjk].
      * rewrite list_lookup_insert_eq by lia.
        rewrite decide_True by lia. done.
      * rewrite list_lookup_insert_ne by done.
        specialize (Hent k j Hi Hj). unfold entry in Hent.
        rewrite Hrow in Hent. simpl in Hent. rewrite Hent.
        rewrite !decide_False by lia. done.
    + rewrite list_lookup_insert_ne by done.
      specialize (Hent i j Hi Hj). unfold entry in Hent. rewrite Hent.
      destruct (decide (i = j ∧ (i < k)%nat)) as [[-> ?]|Hn].
      * rewrite decide_True by lia. done.
      * rewrite decide_False by lia. done.
Qed.

Lemma phase_space_loop (n k : nat) (rho : Matrix (rho_entry num)) :
  (k <= n)%nat → filled n 0 rho →
  ∃ rho',
    for_each
      (λ rho i,
         a ← getitem {| label := "m_a"; shape := [Z.of_nat n] |} [i];
         b ← getitem {| label := "m_b"; shape := [Z.of_nat n] |} [i];
         Matrix_setitem rho i i
           (Factor {| psf_s := expr_pow (Symbol "m") (Integer 2);
                      psf_m_a := a; psf_m_b := b; psf_i := i |}))
      rho (Z.of_nat <$> seq 0 k) = Ok rho'
    ∧ filled n k rho'.
Proof.
  intros Hk H0. induction k as [|k IH].
  - exists rho. by split.
  - destruct IH as (rho1 & Hloop & Hfilled); [lia|].
    destruct (filled_step n k rho1) as (rho2 & Hset & Hfilled2); [lia|done|].
    exists rho2. split; [|done].
    rewrite seq_S, fmap_app, for_each_app, Hloop.
    cbn [mbind result_bind fmap list_fmap for_each Nat.add].
    rewrite !getitem_rank by done.
    cbn [mbind result_bind]. unfold channel_factor in Hset. by rewrite Hset.
Qed.

(** X10: the phase space matrix of [relativistic_k_matrix] is square
    and diagonal: for a non-negative number of channels the loop ends
    without an exception, entry (i, i) holds the phase space factor of
    channel [i] with the masses [m_a[i]] and [m_b[i]], and every other
    entry is still the zero of [sp.zeros]; a negative number of
    channels raises [ValueError]. *)
Theorem phase_space_matrix_diagonal (n_channels : Z) :
  (n_channels < 0 → phase_space_matrix (num:=num) n_channels = Raise ValueError)
  ∧ (0 <= n_channels →
       ∃ rho, phase_space_matrix n_channels = Ok rho
         ∧ length rho = Z.to_nat n_channels
         ∧ Forall (λ row, length row = Z.to_nat n_channels) rho
         ∧ ∀ i j : nat, Z.of_nat i < n_channels → Z.of_nat j < n_channels →
             entry rho i j
             = Some (if decide (i = j)
                     then Factor
                            {| psf_s := expr_pow (Symbol "m") (Integer 2);
                               psf_m_a := {| base := {| label := "m_a";
                                                        shape := [n_channels] |};
                                             indices := [Z.of_nat i] |};
                               psf_m_b := {| base := {| label := "m_b";
                                                        shape := [n_channels] |};
                                             indices := [Z.of_nat i] |};
                               psf_i := Z.of_nat i |}
                     else Zero)).
Proof.
  unfold phase_space_matrix, zeros. split.
  - intros Hn. rewrite orb_diag.
    by replace (n_channels <? 0)%Z with true by (symmetry; apply Z.ltb_lt; lia).
  - intros Hn. rewrite orb_diag.
    replace (n_channels <? 0)%Z with false by (symmetry; apply Z.ltb_ge; lia).
    simpl.
    destruct (phase_space_loop (Z.to_nat n_channels) (Z.to_nat n_channels)
                (replicate (Z.to_nat n_channels)
                   (replicate (Z.to_nat n_channels) Zero)))
      as (rho & Hloop & Hlen & Hrows & Hent); [lia|apply filled_zeros|].
    rewrite Z2Nat.id in Hloop by lia.
    exists rho. split; [exact Hloop|]. split; [done|]. split; [done|].
    intros i j Hi Hj. rewrite Hent by lia.
    unfold channel_factor. rewrite Z2Nat.id by lia.
    destruct (decide (i = j)) as [->|Hij].
    + rewrite decide_True by lia. done.
    + rewrite decide_False by lia. done.
Qed.

End PhaseSpaceFacts.

Section PlotDomainFacts.

Lemma list_getitem_lookup {A} (l : list A) (i : nat) (x : A) :
  l !! i = Some x → list_getitem l (Z.of_nat i) = Ok x.
Proof.
  intros Hi. pose proof (lookup_lt_Some _ _ _ Hi) as Hlt.
  unfold list_getitem.
  replace (Z.of_nat i <? 0)%Z with false by (symmetry; apply Z.ltb_ge; lia).
  replace ((0 <=? Z.of_nat i) && (Z.of_nat i <? Z.of_nat (length l)))%Z
    with true
    by (symmetry; apply andb_true_iff; split;
        [apply Z.leb_le|apply Z.ltb_lt]; lia).
  by rewrite Nat2Z.id, Hi.
Qed.

Lemma slice_interior {A} (l : list A) :
  (2 <= length l)%nat → slice l 1 (-1) = take (length l - 2) (drop 1 l).
Proof.
  intros Hlen. unfold slice, slice_bound. simpl.
  replace (Z.max 0 (Z.min (Z.of_nat (length l)) 1)) with 1%Z by lia.
  replace (Z.max 0 (Z.min (Z.of_nat (length l)) (-1 + Z.of_nat (length l))))
    with (Z.of_nat (length l) - 1)%Z by lia.
  f_equal. lia.
Qed.

Lemma range_lookup_Z (n : Z) (i : nat) :
  (Z.of_nat i < n)%Z → range n !! i = Some (Z.of_nat i).
Proof.
  intros Hi. unfold range. rewrite list_lookup_fmap.
  rewrite lookup_seq_lt by lia. done.
Qed.

Lemma interior_sample (a b : Q) (k d : Z) :
  (a < b)%Q → (0 < k < d)%Z →
  (a < a + inject_Z k * ((b - a) / inject_Z d) < b)%Q.
Proof.
  intros Hab [Hk Hd].
  assert (0 < inject_Z k)%Q as Hk' by (change 0%Q with (inject_Z 0);
                                        by rewrite <- Zlt_Qlt).
  assert (inject_Z k < inject_Z d)%Q as Hkd by (by rewrite <- Zlt_Qlt).
  assert (0 < inject_Z d)%Q as Hd' by (by etrans).
  assert (0 < (b - a) / inject_Z d)%Q as Hstep.
  { apply Qlt_shift_div_l; [done|]. rewrite Qmult_0_l. Lqa.lra. }
  assert (inject_Z d * ((b - a) / inject_Z d) == b - a)%Q as Hfull.
  { apply Qmult_div_r. Lqa.lra. }
  pose proof (Qmult_lt_0_compat _ _ Hk' Hstep) as Hpos.
  pose proof (Qmult_lt_compat_r _ _ _ Hstep Hkd) as Hlt.
  rewrite Hfull in Hlt. split; Lqa.lra.
Qed.

(** X11: the default masses of [plot_relativistic_k_matrix]: for a
    non-negative number of resonances [m0_values] has one entry per
    resonance, so [m0_values[R]] raises no [IndexError] for [R] in
    [range(n_resonances)]; in exact arithmetic the entry is the
    [R+1]-th of [n_resonances + 1] equal steps from [x_min] to
    [x_max] and lies strictly between the two.  Fewer than -2
    resonances raise [ValueError]. *)
Theorem m0_values_in_bounds (n_resonances : Z) :
  (n_resonances < -2 → m0_values n_resonances = Raise ValueError)
  ∧ (0 <= n_resonances →
       ∃ vs, m0_values n_resonances = Ok vs
         ∧ length vs = Z.to_nat n_resonances
         ∧ ∀ R : Z, 0 <= R < n_resonances →
             ∃ m0, list_getitem vs R = Ok m0
               ∧ (m0 == x_min + inject_Z (R + 1)
                               * ((x_max - x_min)
                                  / inject_Z (n_resonances + 1)))%Q
               ∧ (x_min < m0 < x_max)%Q).
Proof.
  unfold m0_values, linspace. split.
  - intros Hn.
    by replace (n_resonances + 2 <? 0)%Z with true
      by (symmetry; apply Z.ltb_lt; lia).
  - intros Hn.
    replace (n_resonances + 2 <? 0)%Z with false
      by (symmetry; apply Z.ltb_ge; lia).
    replace (n_resonances + 2 =? 1)%Z with false
      by (symmetry; apply Z.eqb_neq; lia).
    cbn [mbind result_bind].
    set (f := λ k : Z, (x_min + inject_Z k
                          * ((x_max - x_min)
                             / inject_Z (n_resonances + 2 - 1)))%Q).
    assert (length (f <$> range (n_resonances + 2))
            = S (S (Z.to_nat n_resonances))) as Hlen.
    { rewrite length_fmap, range_length. lia. }
    eexists. split; [reflexivity|].
    rewrite slice_interior by lia. rewrite Hlen.
    replace (S (S (Z.to_nat n_resonances)) - 2)%nat
      with (Z.to_nat n_resonances) by lia.
    split.
    { rewrite length_take, length_drop, Hlen. lia. }
    intros R HR.
    exists (f (R + 1)%Z). split; [|split].
    + rewrite <- (Z2Nat.id R) at 1 by lia.
      apply list_getitem_lookup.
      rewrite lookup_take_lt by lia. rewrite lookup_drop.
      rewrite list_lookup_fmap, range_lookup_Z by lia.
      simpl. do 2 f_equal. lia.
    + unfold f. by replace (n_resonances + 2 - 1)%Z
                   with (n_resonances + 1)%Z by lia.
    + unfold f. apply interior_sample; [done|lia].
Qed.

Lemma float_lt_Num (a b : Q) : float_lt (Num a) (Num b) = true ↔ (a < b)%Q.
Proof.
  simpl. rewrite negb_true_iff. split.
  - intros Hle. apply Qnot_le_lt. intros Hba.
    apply Qle_bool_iff in Hba. congruence.
  - intros Hlt. destruct (Qle_bool b a) eqn:Hle; [|done].
    apply Qle_bool_iff in Hle. Lqa.lra.
Qed.

Lemma cut_off_element (z : float64) :
  ∃ q, cut_off_min_element (cut_off_max_element z) = Num q
    ∧ (z_cut_min <= q <= z_cut_max)%Q
    ∧ (∀ q', z = Num q' → (z_cut_min <= q' <= z_cut_max)%Q → (q == q')%Q)
    ∧ (∀ q', z = Num q' → (z_cut_max <= q')%Q → q = z_cut_max)
    ∧ (∀ q', z = Num q' → (q' <= z_cut_min)%Q → q = z_cut_min)
    ∧ (z = NaN ∨ z = PosInf → q = z_cut_max)
    ∧ (z = NegInf → q = z_cut_min).
Proof.
  assert (z_cut_min < z_cut_max)%Q as Hcut by done.
  assert (float_lt (Num z_cut_min) (Num z_cut_max) = true) as Hmm
    by (by apply float_lt_Num).
  destruct z as [q| | |].
  - unfold cut_off_max_element.
    destruct (float_lt (Num q) (Num z_cut_max)) eqn:Hmax.
    + apply float_lt_Num in Hmax. unfold cut_off_min_element.
      destruct (float_lt (Num z_cut_min) (Num q)) eqn:Hmin.
      * apply float_lt_Num in Hmin. exists q.
        repeat split; try Lqa.lra; try (intros ? [= <-]; Lqa.lra);
          try (intros [?|?]; done); try done.
      * assert (¬ (z_cut_min < q)%Q) as Hn.
        { intros Hlt. apply float_lt_Num in Hlt. congruence. }
        apply Qnot_lt_le in Hn. exists z_cut_min.
        repeat split; try Lqa.lra; try (intros ? [= <-]; Lqa.lra);
          try (intros [?|?]; done); try done.
    + assert (¬ (q < z_cut_max)%Q) as Hn.
      { intros Hlt. apply float_lt_Num in Hlt. congruence. }
      apply Qnot_lt_le in Hn. unfold cut_off_min_element. rewrite Hmm.
      exists z_cut_max.
      repeat split; try Lqa.lra; try (intros ? [= <-]; Lqa.lra);
        try (intros [?|?]; done); try done.
  - exists z_cut_max.
    change (cut_off_max_element PosInf) with (Num z_cut_max).
    unfold cut_off_min_element. rewrite Hmm.
    repeat split; try Lqa.lra; try done.
  - exists z_cut_min.
    change (cut_off_max_element NegInf) with NegInf.
    change (cut_off_min_element NegInf) with (Num z_cut_min).
    repeat split; try Lqa.lra; try done. by intros [?|?].
  - exists z_cut_max.
    change (cut_off_max_element NaN) with (Num z_cut_max).
    unfold cut_off_min_element. rewrite Hmm.
    repeat split; try Lqa.lra; try done.
Qed.

(** X12: the two cut-offs of [plot3] together clamp every value of
    the array into [[z_cut_min, z_cut_max]] = [[-1.5, 1.5]]: a number
    inside the interval is kept, a number above it, an infinity and
    not-a-number all become [z_cut_max], a number below it and minus
    infinity become [z_cut_min]; so the result holds finite numbers
    only.  On an empty array [np.vectorize] raises [ValueError]. *)
Theorem cut_off_clamps :
  cut_off [] = Raise ValueError
  ∧ ∀ Z_values : list float64, Z_values ≠ [] →
      ∃ out, cut_off Z_values = Ok out
        ∧ length out = length Z_values
        ∧ ∀ (i : nat) (z : float64), Z_values !! i = Some z →
            ∃ q, out !! i = Some (Num q)
              ∧ (z_cut_min <= q <= z_cut_max)%Q
              ∧ (∀ q', z = Num q' → (z_cut_min <= q' <= z_cut_max)%Q →
                   (q == q')%Q)
              ∧ (∀ q', z = Num q' → (z_cut_max <= q')%Q → q = z_cut_max)
              ∧ (∀ q', z = Num q' → (q' <= z_cut_min)%Q → q = z_cut_min)
              ∧ (z = NaN ∨ z = PosInf → q = z_cut_max)
              ∧ (z = NegInf → q = z_cut_min).
Proof.
  split; [reflexivity|].
  intros Z_values Hne.
  destruct Z_values as [|z0 Z_values]; [done|].
  unfold cut_off, cut_off_max, cut_off_min, vectorize.
  cbn [mbind result_bind fmap list_fmap].
  eexists. split; [reflexivity|].
  split; [by rewrite !length_cons, !length_fmap|].
  intros i z Hi.
  destruct (cut_off_element z) as (q & Hq & Hrest).
  exists q. split; [|exact Hrest].
  change (cut_off_min_element (cut_off_max_element z0)
          :: (cut_off_min_element <$> (cut_off_max_element <$> Z_values)))
    with (cut_off_min_element <$> (cut_off_max_element <$> (z0 :: Z_values))).
  by rewrite !list_lookup_fmap, Hi; simpl; rewrite Hq.
Qed.

Lemma plot3_part_cases (imag_real : string) :
  (imag_real = "imag" ∧ plot3_part imag_real = Some (Imag, "Re $T$"))
  ∨ (imag_real = "real" ∧ plot3_part imag_real = Some (Real, "Im $T$"))
  ∨ (imag_real = "abs" ∧ plot3_part imag_real = Some (Abs, "$|T|$"))
  ∨ ((imag_real ∉ imag_real_options) ∧ plot3_part imag_real = None).
Proof.
  unfold plot3_part, imag_real_options.
  destruct (String.eqb_spec imag_real "imag") as [->|H1]; [by left|].
  destruct (String.eqb_spec imag_real "real") as [->|H2]; [by right; left|].
  destruct (String.eqb_spec imag_real "abs") as [->|H3];
    [by right; right; left|].
  right; right; right. split; [|done].
  rewrite !elem_of_cons, elem_of_nil. tauto.
Qed.

(** X13: [plot3] handles exactly the options of the radio button
    [imag_real] and raises [NotImplementedError] on any other value;
    its titles are crossed: the plot of the imaginary part is titled
    [Re $T$] and the plot of the real part [Im $T$]. *)
Theorem plot3_part_options :
  (∀ imag_real : string,
     is_Some (plot3_part imag_real) ↔ imag_real ∈ imag_real_options)
  ∧ (∀ (imag_real title : string) (part : drawn_part),
       plot3_part imag_real = Some (part, title) →
       (part = Imag → title = "Re $T$")
       ∧ (part = Real → title = "Im $T$")
       ∧ (part = Abs → title = "$|T|$")).
Proof.
  split.
  - intros imag_real.
    destruct (plot3_part_cases imag_real)
      as [[-> ->]|[[-> ->]|[[-> ->]|[Hn ->]]]].
    + split; [intros _|by eauto]. unfold imag_real_options.
      rewrite !elem_of_cons. tauto.
    + split; [intros _|by eauto]. unfold imag_real_options.
      rewrite !elem_of_cons. tauto.
    + split; [intros _|by eauto]. unfold imag_real_options.
      rewrite !elem_of_cons. tauto.
    + split; [by intros [? [=]]|done].
  - intros imag_real title part.
    destruct (plot3_part_cases imag_real)
      as [[-> ->]|[[-> ->]|[[-> ->]|[Hn ->]]]];
      intros Heq; inversion Heq; subst; repeat split; intros; congruence.
Qed.

End PlotDomainFacts.

Section RegexFacts.

Lemma nullable_matches (r : regex) : nullable r = true ↔ matches r "".
Proof.
  split.
  - induction r as [| |c|lo hi|r1 IH1 r2 IH2|r1 IH1 r2 IH2|r IH]; simpl;
      try done.
    + intros _. constructor.
    + intros [H1 H2]%andb_true_iff.
      change "" with ("" +:+ ""). constructor; auto.
    + intros [H1|H2]%orb_true_iff;
        [apply matches_alt_l|apply matches_alt_r]; auto.
    + intros _. constructor.
  - remember "" as s eqn:Hs. intros Hm.
    induction Hm as [|c|lo hi c Hc|r1 r2 s1 s2 H1 IH1 H2 IH2|r1 r2 s H IH
                    |r1 r2 s H IH| |r s1 s2 H1 IH1 H2 IH2]; simpl;
      try done.
    + apply string_app_nil_inv in Hs as [-> ->].
      by rewrite IH1, IH2.
    + by rewrite IH.
    + rewrite IH by done. apply orb_true_r.
Qed.

Lemma derivative_matches (c : ascii) (r : regex) (s : string) :
  matches (derivative c r) s ↔ matches r (String c s).
Proof.
  split.
  - revert s.
    induction r as [| |c'|lo hi|r1 IH1 r2 IH2|r1 IH1 r2 IH2|r IH];
      intros s; simpl.
    + inversion 1.
    + inversion 1.
    + destruct (Ascii.eqb_spec c c') as [->|Hne]; inversion 1. constructor.
    + destruct (in_range lo hi c) eqn:Hc; inversion 1. by constructor.
    + destruct (nullable r1) eqn:Hn.
      * inversion 1 as [| | | | ? ? ? Hl | ? ? ? Hr| |]; subst.
        -- inversion Hl as [| | |? ? s1 s2 H1 H2| | | |]; subst.
           change (String c (s1 +:+ s2)) with (String c s1 +:+ s2).
           constructor; auto.
        -- change (String c s) with ("" +:+ String c s).
           constructor; [by apply nullable_matches|auto].
      * inversion 1 as [| | |? ? s1 s2 H1 H2| | | |]; subst.
        change (String c (s1 +:+ s2)) with (String c s1 +:+ s2).
        constructor; auto.
    + inversion 1; subst; [apply matches_alt_l|apply matches_alt_r]; auto.
    + inversion 1 as [| | |? ? s1 s2 H1 H2| | | |]; subst.
      change (String c (s1 +:+ s2)) with (String c s1 +:+ s2).
      constructor; auto.
  - remember (String c s) as s0 eqn:Hs0. intros Hm. revert s Hs0.
    induction Hm as [|c'|lo hi c' Hc|r1 r2 s1 s2 H1 IH1 H2 IH2|r1 r2 s' H IH
                    |r1 r2 s' H IH| |r s1 s2 H1 IH1 H2 IH2];
      intros s Hs0; simpl.
    + done.
    + injection Hs0 as -> <-. rewrite Ascii.eqb_refl. constructor.
    + injection Hs0 as -> <-. rewrite Hc. constructor.
    + destruct s1 as [|c1 s1].
      * change (s2 = String c s) in Hs0. subst s2.
        apply nullable_matches in H1. rewrite H1.
        apply matches_alt_r. by apply IH2.
      * change (String c1 (s1 +:+ s2) = String c s) in Hs0.
        injection Hs0 as -> <-.
        destruct (nullable r1).
        -- apply matches_alt_l. constructor; auto.
        -- constructor; auto.
    + apply matches_alt_l. auto.
    + apply matches_alt_r. auto.
    + done.
    + destruct s1 as [|c1 s1].
      * change (s2 = String c s) in Hs0. by apply IH2.
      * change (String c1 (s1 +:+ s2) = String c s) in Hs0.
        injection Hs0 as -> <-.
        constructor; auto.
Qed.

(** The matcher decides membership in the language of the expression. *)
Lemma fullmatch_matches (r : regex) (s : string) :
  fullmatch r s = true ↔ matches r s.
Proof.
  revert r. induction s as [|c s IH]; intros r; simpl.
  - apply nullable_matches.
  - rewrite IH. apply derivative_matches.
Qed.

Lemma matches_digit (s : string) :
  matches (RRange "0" "9") s ↔ ∃ c, s = String c "" ∧ is_digit c = true.
Proof.
  split.
  - inversion 1; subst. eauto.
  - intros (c & -> & Hc). by constructor.
Qed.

Lemma matches_digits (s : string) :
  matches (RStar (RRange "0" "9")) s ↔ string_forall is_digit s = true.
Proof.
  split.
  - remember (RStar (RRange "0" "9")) as r eqn:Hr. intros Hm.
    induction Hm as [| | | | | | |r s1 s2 H1 IH1 H2 IH2]; try done.
    injection Hr as ->.
    apply matches_digit in H1 as (c & -> & Hc).
    simpl. rewrite Hc. by apply IH2.
  - induction s as [|c s IH]; simpl.
    + intros _. constructor.
    + intros [Hc Hs]%andb_true_iff.
      change (String c s) with (String c "" +:+ s).
      constructor; [by constructor|auto].
Qed.

Lemma matches_mass_slider_pattern (s : string) :
  matches mass_slider_pattern s
  ↔ ∃ digits, s = "m" +:+ digits ∧ digits ≠ ""
      ∧ string_forall is_digit digits = true.
Proof.
  unfold mass_slider_pattern, RPlus. split.
  - inversion 1 as [| | |? ? s1 s2 H1 H2| | | |]; subst.
    inversion H1; subst.
    inversion H2 as [| | |? ? s3 s4 H3 H4| | | |]; subst.
    apply matches_digit in H3 as (c & -> & Hc).
    apply matches_digits in H4.
    exists (String c s4). split; [done|]. split; [done|].
    simpl. by rewrite Hc.
  - intros (digits & -> & Hne & Hd).
    destruct digits as [|c digits]; [done|].
    simpl in Hd. apply andb_true_iff in Hd as [Hc Hd].
    change ("m" +:+ String c digits)
      with (String "m" "" +:+ (String c "" +:+ digits)).
    constructor; [constructor|].
    constructor; [by constructor|by apply matches_digits].
Qed.

(** [re.match(r"^m[0-9]+$", name)] succeeds on the names made of [m]
    and one digit or more, a final line feed aside. *)
Lemma re_match_mass_slider (name : string) :
  re_match_line mass_slider_pattern name = true
  ↔ ∃ digits, digits ≠ "" ∧ string_forall is_digit digits = true
      ∧ (name = "m" +:+ digits ∨ name = "m" +:+ digits +:+ String "010" "").
Proof.
  unfold re_match_line. rewrite orb_true_iff, !fullmatch_matches.
  rewrite matches_mass_slider_pattern. split.
  - intros [(digits & -> & Hne & Hd)|Hm]; [by eauto 6|].
    inversion Hm as [| | |? ? s1 s2 H1 H2| | | |]; subst.
    apply matches_mass_slider_pattern in H1 as (digits & -> & Hne & Hd).
    inversion H2; subst.
    exists digits. split; [done|]. split; [done|]. right.
    by rewrite string_app_assoc.
  - intros (digits & Hne & Hd & [->| ->]); [left; by eauto|].
    right. rewrite <- string_app_assoc.
    constructor; [|constructor].
    apply matches_mass_slider_pattern. eauto.
Qed.

(** X14: the pattern of the loop over [controls.params] accepts the
    names made of [m] and one digit or more (a final line feed aside)
    and no other: it accepts [f"m{R}"] for every resonance, and
    rejects each of the other names that [set_default_values] writes,
    those of the widths, the couplings and the masses [m_a], [m_b]. *)
Theorem mass_lines_for_mass_sliders :
  (∀ name : string,
     re_match_line mass_slider_pattern name = true
     ↔ ∃ digits, digits ≠ "" ∧ string_forall is_digit digits = true
         ∧ (name = "m" +:+ digits
            ∨ name = "m" +:+ digits +:+ String "010" ""))
  ∧ (∀ R : Z, 0 <= R →
       re_match_line mass_slider_pattern (mass_slider R) = true)
  ∧ (∀ (R i : Z) (name : string), name ∈ channel_sliders R i →
       re_match_line mass_slider_pattern name = false).
Proof.
  split; [apply re_match_mass_slider|]. split.
  - intros R HR. apply re_match_mass_slider.
    destruct (pretty_Z_digits R HR) as [Hd Hne].
    exists (pretty R). unfold mass_slider. eauto.
  - intros R i name Hin.
    apply not_true_is_false. intros Hm.
    apply re_match_mass_slider in Hm as (digits & Hne & Hd & Hname).
    unfold channel_sliders in Hin.
    rewrite !elem_of_cons, elem_of_nil in Hin.
    destruct digits as [|c digits]; [done|].
    destruct Hin as [->|[->|[->|[->|[]]]]];
      destruct Hname as [Hname|Hname]; cbv [String.append] in Hname;
      try discriminate Hname;
      injection Hname as Hc _; rewrite <- Hc in Hd; discriminate Hd.
Qed.

End RegexFacts.

Section ArgumentFacts.
Local Open Scope list_scope.
Context {array param float : Type}.
Variable complex_real : param → float.

Lemma dict_setitem_new {V} (d : list (string * V)) (k : string) (v : V) :
  k ∉ d.*1 → dict_setitem d k v = d ++ [(k, v)].
Proof.
  induction d as [|[k' v'] d IH]; simpl; [done|].
  rewrite not_elem_of_cons. intros [Hne Hnin].
  destruct (String.eqb_spec k k') as [->|_]; [done|]. by rewrite IH.
Qed.

(** A dict comprehension over pairs with distinct new keys builds the
    list of the pairs that pass its test, in order. *)
Lemma comprehension_spec {V}
    (step : list (string * V) → string * string → list (string * V))
    (h : string → option V) :
  (∀ d arg key,
     step d (arg, key)
     = match h key with Some v => dict_setitem d arg v | None => d end) →
  ∀ (pairs : list (string * string)) (acc : list (string * V)),
    NoDup (acc.*1 ++ pairs.*1) →
    foldl step acc pairs
    = acc ++ omap (λ p, (λ v, (p.1, v)) <$> h p.2) pairs.
Proof.
  intros Hstep. induction pairs as [|[arg key] pairs IH]; intros acc Hnd.
  - simpl. by rewrite app_nil_r.
  - csimpl. rewrite Hstep.
    destruct (h key) as [v|]; csimpl.
    + rewrite fmap_cons in Hnd. simpl in Hnd.
      pose proof Hnd as Hnd'. apply NoDup_app in Hnd' as (_ & Hdisj & _).
      rewrite dict_setitem_new
        by (intros Hin; apply (Hdisj arg Hin); left).
      rewrite IH.
      * by rewrite <- app_assoc.
      * rewrite fmap_app. simpl. by rewrite <- app_assoc.
    + apply IH. rewrite fmap_cons in Hnd.
      apply NoDup_app in Hnd as (Hacc & Hdisj & Hp).
      apply NoDup_app. split; [done|]. split.
      * intros x Hx Hx'. apply (Hdisj x Hx). by right.
      * by apply NoDup_cons in Hp as [_ ?].
Qed.

Lemma omap_none {A B} (f : A → option B) (l : list A) :
  Forall (λ x, f x = None) l → omap f l = [].
Proof. induction 1 as [|x l Hx _ IH]; csimpl; [done|]. by rewrite Hx. Qed.

Lemma data_columns_eq (arg_names argument_order : list string)
    (data : list (string * array)) :
  NoDup arg_names → length arg_names = length argument_order →
  data_columns arg_names argument_order data
  = omap (λ p, (λ v, (p.1, v)) <$> dict_get data p.2)
         (zip arg_names argument_order).
Proof.
  intros Hnd Hlen. unfold data_columns.
  rewrite (comprehension_spec _ (dict_get data)); [done|done|].
  simpl. by rewrite fst_zip by lia.
Qed.

Lemma parameter_values_eq (arg_names argument_order : list string)
    (function_parameters : list (string * param)) :
  NoDup arg_names → length arg_names = length argument_order →
  parameter_values complex_real arg_names argument_order function_parameters
  = omap (λ p, (λ v, (p.1, v))
                 <$> (complex_real <$> dict_get function_parameters p.2))
         (zip arg_names argument_order).
Proof.
  intros Hnd Hlen. unfold parameter_values.
  rewrite (comprehension_spec _
             (λ key, complex_real <$> dict_get function_parameters key)).
  - done.
  - intros d arg key. by destruct (dict_get function_parameters key).
  - simpl. by rewrite fst_zip by lia.
Qed.

Lemma omap_values {V} (h : string → option V) (pairs : list (string * string)) :
  (omap (λ p, (λ v, (p.1, v)) <$> h p.2) pairs).*2 = omap h pairs.*2.
Proof.
  induction pairs as [|[arg key] pairs IH]; csimpl; [done|].
  destruct (h key); csimpl; by rewrite IH.
Qed.

Lemma omap_Forall_Some {A B} (f : A → option B) (l : list A) :
  Forall (λ x, is_Some (f x)) l →
  ∃ vs, omap f l = vs ∧ mapM f l = Some vs ∧ length vs = length l.
Proof.
  induction 1 as [|x l [v Hv] _ (vs & Ho & Hm & Hlen)].
  - by exists [].
  - exists (v :: vs). split; [|split].
    + csimpl. by rewrite Hv, Ho.
    + change (mapM f (x :: l))
        with (y ← f x; k ← mapM f l; mret (y :: k)).
      by rewrite Hv, Hm.
    + simpl. by rewrite Hlen.
Qed.

Lemma mapM_option_app {A B} (f : A → option B) (l1 l2 : list A) vs1 vs2 :
  mapM f l1 = Some vs1 → mapM f l2 = Some vs2 →
  mapM f (l1 ++ l2) = Some (vs1 ++ vs2).
Proof.
  revert vs1. induction l1 as [|x l1 IH]; intros vs1.
  - by intros [= <-].
  - change (mapM f ((x :: l1) ++ l2))
      with (y ← f x; k ← mapM f (l1 ++ l2); mret (y :: k)).
    change (mapM f (x :: l1)) with (y ← f x; k ← mapM f l1; mret (y :: k)).
    destruct (f x) as [v|]; [|done].
    destruct (mapM f l1) as [vs|]; [|done].
    intros [= <-] H2. by rewrite (IH vs eq_refl H2).
Qed.

Lemma mapM_option_ext {A B} (f g : A → option B) (l : list A) :
  Forall (λ x, f x = g x) l → mapM f l = mapM g l.
Proof.
  induction 1 as [|x l Hx _ IH]; [done|].
  change (mapM f (x :: l)) with (y ← f x; k ← mapM f l; mret (y :: k)).
  change (mapM g (x :: l)) with (y ← g x; k ← mapM g l; mret (y :: k)).
  by rewrite Hx, IH.
Qed.

Lemma mapM_option_fmap {A B C} (f : A → option B) (g : B → C) (l : list A) :
  mapM (λ x, g <$> f x) l = fmap g <$> mapM f l.
Proof.
  induction l as [|x l IH]; [done|].
  change (mapM (λ x, g <$> f x) (x :: l))
    with (y ← g <$> f x; k ← mapM (λ x, g <$> f x) l; mret (y :: k)).
  change (mapM f (x :: l)) with (y ← f x; k ← mapM f l; mret (y :: k)).
  rewrite IH. destruct (f x); [|done]. by destruct (mapM f l).
Qed.

(** X15: the positional call of report 022.  When the function's
    argument order lists the data columns first and the parameters
    after them (each key being a column or a parameter, not both),
    [Partial(function, *data_columns.values())] called on
    [*parameter_values.values()] gives every argument of the function
    the column or the value that belongs to its key. *)
Theorem partial_call_binds_in_order
    (arg_names data_keys parameter_keys : list string)
    (data : list (string * array))
    (function_parameters : list (string * param)) :
  NoDup arg_names →
  length arg_names = length (data_keys ++ parameter_keys) →
  Forall (λ key, is_Some (dict_get data key)
                 ∧ dict_get function_parameters key = None) data_keys →
  Forall (λ key, dict_get data key = None
                 ∧ is_Some (dict_get function_parameters key))
         parameter_keys →
  let argument_order := data_keys ++ parameter_keys in
  ∃ args,
    mapM (argument_of complex_real data function_parameters) argument_order
    = Some args
    ∧ call_with_columns arg_names
        (data_columns arg_names argument_order data)
        (parameter_values complex_real arg_names argument_order
           function_parameters)
      = Ok (zip arg_names args).
Proof.
  intros Hnd Hlen Hd Hp argument_order.
  unfold argument_order.
  rewrite data_columns_eq, parameter_values_eq by done.
  unfold call_with_columns.
  rewrite (omap_values (dict_get data)).
  rewrite (omap_values
             (λ key, complex_real <$> dict_get function_parameters key)).
  rewrite snd_zip by lia.
  rewrite !omap_app.
  destruct (omap_Forall_Some (dict_get data) data_keys)
    as (vsD & HoD & HmD & HlD).
  { eapply Forall_impl; [exact Hd|]. by intros k [? _]. }
  destruct (omap_Forall_Some
              (λ key, complex_real <$> dict_get function_parameters key)
              parameter_keys) as (vsP & HoP & HmP & HlP).
  { eapply Forall_impl; [exact Hp|]. intros k [_ [v ->]]. by eexists. }
  rewrite HoD, HoP.
  rewrite (omap_none (dict_get data) parameter_keys)
    by (eapply Forall_impl; [exact Hp|]; by intros k [? _]).
  rewrite (omap_none (λ key, complex_real <$> dict_get function_parameters key)
             data_keys)
    by (eapply Forall_impl; [exact Hd|]; by intros k [_ ->]).
  rewrite app_nil_r, app_nil_l.
  exists ((Column <$> vsD) ++ (Value <$> vsP)). split.
  - apply mapM_option_app.
    + rewrite (mapM_option_ext _ (λ key, Column <$> dict_get data key)).
      * by rewrite mapM_option_fmap, HmD.
      * eapply Forall_impl; [exact Hd|]. intros k [[v Hv] _].
        unfold argument_of. by rewrite Hv.
    + rewrite (mapM_option_ext _
                 (λ key, Value <$> (complex_real
                                      <$> dict_get function_parameters key))).
      * by rewrite mapM_option_fmap, HmP.
      * eapply Forall_impl; [exact Hp|]. intros k [Hn [v Hv]].
        unfold argument_of. by rewrite Hn, Hv.
  - unfold bind_positional.
    rewrite length_app, !length_fmap, HlD, HlP, <- length_app, <- Hlen.
    by rewrite Nat.eqb_refl.
Qed.

Lemma phsp_fold_raised (data phsp : list (string * array))
    (pairs : list (string * string)) :
  foldl (λ acc '(arg, key),
           d ← acc;
           match dict_get data key with
           | Some _ =>
               column ← dict_get phsp key; Some (dict_setitem d arg column)
           | None => Some d
           end)
        None pairs = None.
Proof. induction pairs as [|[arg key] pairs IH]; simpl; [done|]. apply IH. Qed.

Lemma phsp_fold_ok (data phsp : list (string * array))
    (pairs : list (string * string)) (acc : list (string * array)) :
  NoDup (acc.*1 ++ pairs.*1) →
  Forall (λ key, is_Some (dict_get data key) → is_Some (dict_get phsp key))
         pairs.*2 →
  ∃ columns,
    foldl (λ acc '(arg, key),
             d ← acc;
             match dict_get data key with
             | Some _ =>
                 column ← dict_get phsp key; Some (dict_setitem d arg column)
             | None => Some d
             end)
          (Some acc) pairs = Some columns
    ∧ columns.*1
      = acc.*1
        ++ (omap (λ p, (λ v, (p.1, v)) <$> dict_get data p.2) pairs).*1.
Proof.
  revert acc. induction pairs as [|[arg key] pairs IH]; intros acc Hnd Hall.
  - exists acc. simpl. by rewrite app_nil_r.
  - rewrite fmap_cons in Hall. apply Forall_cons in Hall as [Hkey Hall].
    simpl in Hkey.
    rewrite fmap_cons in Hnd. simpl.
    destruct (dict_get data key) as [v|] eqn:Hdata.
    + destruct Hkey as [column Hcolumn]; [by eexists|].
      rewrite Hcolumn. cbn [mbind option_bind fmap option_fmap option_map].
      pose proof Hnd as Hnd'. apply NoDup_app in Hnd' as (_ & Hdisj & _).
      rewrite dict_setitem_new
        by (intros Hin; apply (Hdisj arg Hin); left).
      destruct (IH (acc ++ [(arg, column)])) as (columns & Hfold & Hkeys).
      * rewrite fmap_app. simpl. by rewrite <- app_assoc.
      * done.
      * exists columns. split; [done|]. rewrite Hkeys.
        rewrite fmap_app, fmap_cons. simpl. by rewrite <- app_assoc.
    + cbn [fmap option_fmap option_map]. apply IH; [|done].
      apply NoDup_app in Hnd as (Hacc & Hdisj & Hp).
      apply NoDup_app. split; [done|]. split.
      * intros x Hx Hx'. apply (Hdisj x Hx). by right.
      * by apply NoDup_cons in Hp as [_ ?].
Qed.

Lemma phsp_fold_missing (data phsp : list (string * array))
    (pairs : list (string * string)) (acc : list (string * array)) :
  Exists (λ key, is_Some (dict_get data key) ∧ dict_get phsp key = None)
         pairs.*2 →
  foldl (λ acc '(arg, key),
           d ← acc;
           match dict_get data key with
           | Some _ =>
               column ← dict_get phsp key; Some (dict_setitem d arg column)
           | None => Some d
           end)
        (Some acc) pairs = None.
Proof.
  revert acc. induction pairs as [|[arg key] pairs IH]; intros acc Hex.
  - by inversion Hex.
  - rewrite fmap_cons in Hex. cbn [foldl mbind option_bind].
    apply Exists_cons in Hex as [[[v Hv] Hmiss]|Hex].
    + simpl in Hv, Hmiss. simpl. rewrite Hv, Hmiss. apply phsp_fold_raised.
    + simpl. destruct (dict_get data key).
      * destruct (dict_get phsp key); simpl;
          [by apply IH|apply phsp_fold_raised].
      * by apply IH.
Qed.

(** X16: [phsp_columns] tests the keys on [data] but reads the
    columns from [phsp]: it has the arguments of [data_columns], in
    the same order, when every key of the argument order that [data]
    has is in [phsp] too, and it raises [KeyError] as soon as [data]
    has a key of the argument order that [phsp] lacks. *)
Theorem phsp_columns_keys
    (arg_names argument_order : list string)
    (data phsp : list (string * array)) :
  NoDup arg_names →
  length arg_names = length argument_order →
  (Forall (λ key, is_Some (dict_get data key) → is_Some (dict_get phsp key))
          argument_order →
     ∃ columns, phsp_columns arg_names argument_order data phsp = Some columns
       ∧ columns.*1 = (data_columns arg_names argument_order data).*1)
  ∧ (Exists (λ key, is_Some (dict_get data key) ∧ dict_get phsp key = None)
            argument_order →
       phsp_columns arg_names argument_order data phsp = None).
Proof.
  intros Hnd Hlen.
  assert ((zip arg_names argument_order).*2 = argument_order) as Hsnd
    by (apply snd_zip; lia).
  assert ((zip arg_names argument_order).*1 = arg_names) as Hfst
    by (apply fst_zip; lia).
  split.
  - intros Hall. rewrite data_columns_eq by done.
    destruct (phsp_fold_ok data phsp (zip arg_names argument_order) [])
      as (columns & Hfold & Hkeys).
    + simpl. by rewrite Hfst.
    + by rewrite Hsnd.
    + exists columns. split; [exact Hfold|exact Hkeys].
  - intros Hex. apply phsp_fold_missing. by rewrite Hsnd.
Qed.

End ArgumentFacts.

Section EstimatorFacts.
Local Open Scope R_scope.

Lemma sum_array_scale (c : R) (a : list R) :
  sum_array (Rmult c <$> a) = c * sum_array a.
Proof.
  unfold sum_array. induction a as [|x a IH]; [simpl; lra|].
  rewrite fmap_cons. cbn [foldr]. rewrite IH. lra.
Qed.

Lemma mean_scale (c : R) (a : list R) : mean (Rmult c <$> a) = c * mean a.
Proof.
  unfold mean. rewrite sum_array_scale, length_fmap. unfold Rdiv. lra.
Qed.

Lemma sum_array_ln_div (m : R) (d : list R) :
  0 < m → Forall (λ x, 0 < x) d →
  sum_array (ln <$> ((λ x, x / m) <$> d))
  = sum_array (ln <$> d) - INR (length d) * ln m.
Proof.
  intros Hm. unfold sum_array. induction 1 as [|x d Hx _ IH].
  - simpl. lra.
  - rewrite !fmap_cons, length_cons, S_INR. cbn [foldr]. rewrite IH.
    unfold Rdiv at 1. rewrite ln_mult, ln_Rinv;
      [lra|done|done|by apply Rinv_0_lt_compat].
Qed.

(** X17: in exact arithmetic, on positive intensities and a
    non-empty phase space sample, the estimator is the number of data
    events times the logarithm of the mean phase space intensity,
    minus the sum of the logarithms of the data intensities; so it
    does not change when the intensity function is multiplied by a
    positive constant. *)
Theorem estimator_normalisation
    (func_with_data_inserted func_with_phsp_inserted : list R → list R)
    (args : list R) (c : R) :
  Forall (λ x, 0 < x) (func_with_data_inserted args) →
  Forall (λ x, 0 < x) (func_with_phsp_inserted args) →
  func_with_phsp_inserted args ≠ [] →
  0 < c →
  estimator func_with_data_inserted func_with_phsp_inserted args
  = INR (length (func_with_data_inserted args))
      * ln (mean (func_with_phsp_inserted args))
    - sum_array (ln <$> func_with_data_inserted args)
  ∧ estimator (λ a, Rmult c <$> func_with_data_inserted a)
              (λ a, Rmult c <$> func_with_phsp_inserted a) args
    = estimator func_with_data_inserted func_with_phsp_inserted args.
Proof.
  intros Hd Hp Hne Hc.
  assert (∀ a, a ≠ [] → Forall (λ x, 0 < x) a → 0 < mean a) as Hmean.
  { intros a Ha Hpos. unfold mean.
    apply Rdiv_lt_0_compat.
    - destruct Hpos as [|x a' Hx Hpos]; [done|].
      unfold sum_array. simpl.
      assert (0 <= foldr Rplus 0 a') as Hsum.
      { clear Ha. induction Hpos as [|y a'' Hy _ IH]; simpl; lra. }
      lra.
    - apply lt_0_INR. destruct a; [done|]. simpl. lia. }
  pose proof (Hmean _ Hne Hp) as Hm.
  split.
  - unfold estimator. rewrite sum_array_ln_div by done. lra.
  - unfold estimator. rewrite mean_scale.
    set (m := mean (func_with_phsp_inserted args)) in *.
    assert ((λ x, x / (c * m)) <$> (Rmult c <$> func_with_data_inserted args)
            = (λ x, x / m) <$> func_with_data_inserted args) as Heq.
    { rewrite <- list_fmap_compose. apply list_fmap_ext.
      intros _ x _. simpl. field. split; lra. }
    by rewrite Heq.
Qed.

End EstimatorFacts.

Section ArrayLoopFacts.

Lemma c_lst_fold (a_lst acc : list Z) :
  foldl (λ c_lst '(a_i, b_i), (c_lst ++ [a_i + b_i ^ 2])%list) acc
        (zip a_lst a_lst)
  = (acc ++ ((λ x, x + x ^ 2) <$> a_lst))%list.
Proof.
  revert acc. induction a_lst as [|x l IH]; intros acc; simpl.
  - by rewrite app_nil_r.
  - rewrite IH. by rewrite <- app_assoc.
Qed.

Lemma c_lst_eq (a_lst : list Z) : c_lst a_lst = (λ x, x + x ^ 2) <$> a_lst.
Proof. unfold c_lst. by rewrite c_lst_fold. Qed.

Lemma int64_fits (x : Z) : fits_int64 x → int64 x = x.
Proof.
  unfold fits_int64, int64. intros Hx.
  rewrite Z.mod_small by lia. lia.
Qed.

Lemma c_array_same (a_lst : list Z) :
  c_array (Array a_lst) (Array a_lst)
  = Ok (Array ((λ x, int64 (x + int64 (x ^ 2))) <$> a_lst)).
Proof.
  unfold c_array. cbn [broadcast2 mbind result_bind].
  rewrite length_fmap, Nat.eqb_refl.
  by rewrite zip_with_fmap_r, zip_with_diag.
Qed.

(** X18: the loop over the lists and the array expression of
    symbolics.ipynb give the same numbers when the two arrays hold
    the numbers of [a_lst] and no square or sum leaves the range of a
    64-bit integer, as for the notebook's [list(range(1_000_000))];
    the loop reads [a_lst] only, so the two differ when [b_lst] is
    another list, and they differ when a square overflows, where the
    array wraps around. *)
Theorem c_array_agrees_with_loop :
  (∀ a_lst : list Z,
     Forall (λ x, fits_int64 (x ^ 2) ∧ fits_int64 (x + x ^ 2)) a_lst →
     c_array (Array a_lst) (Array a_lst) = Ok (Array (c_lst a_lst)))
  ∧ (∀ n : Z, n <= 1000000 →
       c_array (Array (range n)) (Array (range n))
       = Ok (Array (c_lst (range n))))
  ∧ (∃ a_lst b_lst,
       length a_lst = length b_lst ∧ Forall fits_int64 a_lst
       ∧ Forall fits_int64 b_lst
       ∧ c_array (Array a_lst) (Array b_lst) ≠ Ok (Array (c_lst a_lst)))
  ∧ (∃ a_lst,
       Forall fits_int64 a_lst
       ∧ c_array (Array a_lst) (Array a_lst) ≠ Ok (Array (c_lst a_lst))).
Proof.
  assert (∀ a_lst : list Z,
            Forall (λ x, fits_int64 (x ^ 2) ∧ fits_int64 (x + x ^ 2)) a_lst →
            c_array (Array a_lst) (Array a_lst) = Ok (Array (c_lst a_lst)))
    as Hsame.
  { intros a_lst Hfit. rewrite c_array_same, c_lst_eq. do 2 f_equal.
    apply Forall_fmap_ext_1. eapply Forall_impl; [exact Hfit|].
    intros x [H2 Hs]. simpl. by rewrite (int64_fits _ H2), (int64_fits _ Hs). }
  split; [exact Hsame|]. split; [|split].
  - intros n Hn. apply Hsame. apply Forall_forall.
    intros x Hx%range_elem. unfold fits_int64. split; nia.
  - exists [0], [1]. split; [done|].
    split; [by repeat constructor|]. split; [by repeat constructor|].
    by vm_compute.
  - exists [3037000500]. split; [by repeat constructor|]. by vm_compute.
Qed.

End ArrayLoopFacts.

Section MandelbrotFacts.
Variable Complex : Type.
Variable abs_below_2 : Complex → bool.
Variable square_plus : Complex → Complex → Complex.

Lemma escape_loop_ends (fuel : nat) (c z : Complex) (i : Z) :
  i - 1 <= Z.of_nat fuel →
  ∃ z' i', escape_loop Complex abs_below_2 square_plus fuel c z i
           = Some (z', i')
    ∧ (abs_below_2 z = false → i' = i)
    ∧ (abs_below_2 z = true → i' < i ∧ (1 <= i → 0 <= i')).
Proof.
  revert z i. induction fuel as [|fuel IH]; intros z i Hi.
  - simpl. destruct (abs_below_2 z) eqn:Hz.
    + destruct (0 <? i - 1)%Z eqn:Hpos; [apply Z.ltb_lt in Hpos; lia|].
      apply Z.ltb_ge in Hpos. eexists _, _. split; [done|].
      split; [done|]. intros _. lia.
    + eexists _, _. split; [done|]. split; [done|done].
  - simpl. destruct (abs_below_2 z) eqn:Hz.
    + destruct (0 <? i - 1)%Z eqn:Hpos.
      * apply Z.ltb_lt in Hpos.
        destruct (IH (square_plus z c) (i - 1)) as (z' & i' & Hloop & Hf & Ht);
          [lia|].
        exists z', i'. split; [done|]. split; [done|]. intros _.
        destruct (abs_below_2 (square_plus z c)).
        -- destruct Ht as [? ?]; [done|]. lia.
        -- rewrite Hf by done. lia.
      * apply Z.ltb_ge in Hpos. eexists _, _. split; [done|].
        split; [done|]. intros _. lia.
    + eexists _, _. split; [done|]. split; [done|done].
Qed.

Lemma escape_loop_fuel (fuel fuel' : nat) (c z : Complex) (i : Z)
    (r : Complex * Z) :
  (fuel <= fuel')%nat →
  escape_loop Complex abs_below_2 square_plus fuel c z i = Some r →
  escape_loop Complex abs_below_2 square_plus fuel' c z i = Some r.
Proof.
  revert fuel' z i. induction fuel as [|fuel IH]; intros fuel' z i Hle.
  - destruct fuel' as [|fuel']; [done|]. simpl.
    destruct (abs_below_2 z); [|done]. by destruct (0 <? i - 1)%Z.
  - destruct fuel' as [|fuel']; [lia|]. simpl.
    destruct (abs_below_2 z); [|done].
    destruct (0 <? i - 1)%Z; [|done]. apply IH. lia.
Qed.

(** X19: the escape loop of [mandelbrot()] ends after fewer than
    [maxIter] rounds whatever the arithmetic: for [maxIter >= 1] the
    count that colours a pixel lies between 0 and [maxIter], it is
    [maxIter] exactly for a point that starts outside the radius 2,
    and it does not depend on the fuel once the fuel reaches
    [maxIter]. *)
Theorem escape_count_bounds (maxIter : Z) (c : Complex) :
  1 <= maxIter →
  ∃ i, (∀ fuel, (Z.to_nat maxIter <= fuel)%nat →
          escape_count Complex abs_below_2 square_plus fuel maxIter c = Some i)
    ∧ 0 <= i <= maxIter
    ∧ (i = maxIter ↔ abs_below_2 c = false).
Proof.
  intros Hmax.
  destruct (escape_loop_ends (Z.to_nat maxIter) c c maxIter)
    as (z' & i & Hloop & Hf & Ht); [lia|].
  exists i. split; [|split].
  - intros fuel Hfuel. unfold escape_count.
    by rewrite (escape_loop_fuel _ _ _ _ _ _ Hfuel Hloop).
  - destruct (abs_below_2 c).
    + destruct Ht as [? ?]; [done|]. lia.
    + rewrite Hf by done. lia.
  - destruct (abs_below_2 c).
    + destruct Ht as [? ?]; [done|]. split; [lia|done].
    + rewrite Hf by done. done.
Qed.

End MandelbrotFacts.

Lemma partial_call_binds_in_order_witness :
  let arg_names := ["_Dummy_0"; "_Dummy_1"; "_Dummy_2"] in
  let data_keys := ["m_12"; "phi_0"] in
  let parameter_keys := ["C_{f_0 \to \pi^0 \pi^0}"] in
  let data : list (string * list Z) := [("m_12", [1; 2]); ("phi_0", [3; 4])] in
  let function_parameters : list (string * (Z * Z)) :=
    [("C_{f_0 \to \pi^0 \pi^0}", (1, 0))] in
  NoDup arg_names
  ∧ length arg_names = length (data_keys ++ parameter_keys)%list
  ∧ Forall (λ key, is_Some (dict_get data key)
                   ∧ dict_get function_parameters key = None) data_keys
  ∧ Forall (λ key, dict_get data key = None
                   ∧ is_Some (dict_get function_parameters key))
           parameter_keys
  ∧ ∃ args,
      mapM (argument_of fst data function_parameters)
           (data_keys ++ parameter_keys)%list = Some args
      ∧ call_with_columns arg_names
          (data_columns arg_names (data_keys ++ parameter_keys)%list data)
          (parameter_values fst arg_names (data_keys ++ parameter_keys)%list
             function_parameters)
        = Ok (zip arg_names args).
Proof.
  intros arg_names data_keys parameter_keys data function_parameters.
  assert (NoDup arg_names) as Hnd
    by (apply (bool_decide_unpack _); by vm_compute).
  assert (length arg_names = length (data_keys ++ parameter_keys)%list)
    as Hlen by reflexivity.
  assert (Forall (λ key, is_Some (dict_get data key)
                         ∧ dict_get function_parameters key = None)
                 data_keys) as Hd.
  { repeat apply Forall_cons_2; [| |apply Forall_nil_2];
      (split; [by eexists|reflexivity]). }
  assert (Forall (λ key, dict_get data key = None
                         ∧ is_Some (dict_get function_parameters key))
                 parameter_keys) as Hp.
  { apply Forall_cons_2; [|apply Forall_nil_2].
    split; [reflexivity|by eexists]. }
  split; [exact Hnd|]. split; [exact Hlen|]. split; [exact Hd|].
  split; [exact Hp|].
  exact (partial_call_binds_in_order fst arg_names data_keys parameter_keys
           data function_parameters Hnd Hlen Hd Hp).
Defined.

Lemma phsp_columns_keys_witness :
  let arg_names := ["_Dummy_0"; "_Dummy_1"] in
  let argument_order := ["m_12"; "C"] in
  let data : list (string * list Z) := [("m_12", [1; 2])] in
  let phsp : list (string * list Z) := [("m_12", [5; 6; 7])] in
  NoDup arg_names
  ∧ length arg_names = length argument_order
  ∧ (Forall (λ key, is_Some (dict_get data key) → is_Some (dict_get phsp key))
            argument_order →
       ∃ columns,
         phsp_columns arg_names argument_order data phsp = Some columns
         ∧ columns.*1 = (data_columns arg_names argument_order data).*1)
  ∧ (Exists (λ key, is_Some (dict_get data key) ∧ dict_get phsp key = None)
            argument_order →
       phsp_columns arg_names argument_order data phsp = None).
Proof.
  intros arg_names argument_order data phsp.
  assert (NoDup arg_names) as Hnd
    by (apply (bool_decide_unpack _); by vm_compute).
  assert (length arg_names = length argument_order) as Hlen by reflexivity.
  split; [exact Hnd|]. split; [exact Hlen|].
  exact (phsp_columns_keys arg_names argument_order data phsp Hnd Hlen).
Defined.

Lemma estimator_normalisation_witness :
  let func_with_data_inserted : list R → list R := λ _, [1; 2]%R in
  let func_with_phsp_inserted : list R → list R := λ _, [1; 3]%R in
  Forall (λ x, (0 < x)%R) (func_with_data_inserted [])
  ∧ Forall (λ x, (0 < x)%R) (func_with_phsp_inserted [])
  ∧ func_with_phsp_inserted [] ≠ []
  ∧ (0 < 2)%R
  ∧ estimator func_with_data_inserted func_with_phsp_inserted []
    = (INR (length (func_with_data_inserted []))
         * ln (mean (func_with_phsp_inserted []))
       - sum_array (ln <$> func_with_data_inserted []))%R
  ∧ estimator (λ a, Rmult 2 <$> func_with_data_inserted a)
              (λ a, Rmult 2 <$> func_with_phsp_inserted a) []
    = estimator func_with_data_inserted func_with_phsp_inserted [].
Proof.
  intros func_with_data_inserted func_with_phsp_inserted.
  assert (Forall (λ x, (0 < x)%R) (func_with_data_inserted [])) as Hd
    by (repeat apply Forall_cons_2; [lra|lra|apply Forall_nil_2]).
  assert (Forall (λ x, (0 < x)%R) (func_with_phsp_inserted [])) as Hp
    by (repeat apply Forall_cons_2; [lra|lra|apply Forall_nil_2]).
  assert (func_with_phsp_inserted [] ≠ []) as Hne by done.
  assert (0 < 2)%R as Hc by lra.
  split; [exact Hd|]. split; [exact Hp|]. split; [exact Hne|].
  split; [exact Hc|].
  exact (estimator_normalisation func_with_data_inserted
           func_with_phsp_inserted [] 2%R Hd Hp Hne Hc).
Defined.

Lemma escape_count_bounds_witness :
  let abs_below_2 := λ z : Z, (Z.abs z <? 2)%Z in
  let square_plus := λ z c : Z, (z ^ 2 + c)%Z in
  (1 <= 30)%Z
  ∧ ∃ i, (∀ fuel, (Z.to_nat 30 <= fuel)%nat →
            escape_count Z abs_below_2 square_plus fuel 30 1 = Some i)
      ∧ (0 <= i <= 30)%Z
      ∧ (i = 30%Z ↔ abs_below_2 1%Z = false).
Proof.
  intros abs_below_2 square_plus.
  assert (1 <= 30)%Z as Hmax by lia.
  split; [exact Hmax|].
  exact (escape_count_bounds Z abs_below_2 square_plus 30 1 Hmax).
Defined.
Section MoreConfigurationFacts.

Lemma norecurse_by_name (root dir : string) (path : list string) :
  dir ∈ [".ipynb_checkpoints"; ".virtual_documents"; "_build"] →
  norecurse tool_pytest_ini_options root (path ++ [dir])%list = true.
Proof.
  intros Hdir. unfold norecurse. apply existsb_exists. exists dir. split.
  - rewrite !elem_of_cons, elem_of_nil in Hdir.
    destruct Hdir as [->|[->|[->|[]]]]; simpl; tauto.
  - unfold fnmatch_ex. rewrite last_last.
    rewrite !elem_of_cons, elem_of_nil in Hdir.
    destruct Hdir as [->|[->|[->|[]]]]; reflexivity.
Qed.

(** X20: a test run never executes a file below a directory named
    [.ipynb_checkpoints], [.virtual_documents] or [_build], at any
    depth under a test path and wherever the repository lies: pytest
    does not enter such a directory. *)
Theorem pruned_directories_not_tested
    (root : string) (in_venv : list string → bool)
    (first dir : string) (between below : list string) :
  dir ∈ [".ipynb_checkpoints"; ".virtual_documents"; "_build"] →
  below ≠ [] →
  tested tool_pytest_ini_options root in_venv nbmake_run
    (first :: between ++ dir :: below)%list = false.
Proof.
  intros Hdir Hbelow. unfold tested, collected.
  set (p := (first :: between ++ dir :: below)%list).
  set (opts := options tool_pytest_ini_options nbmake_run).
  assert (∀ tp : string,
            forallb (recurse tool_pytest_ini_options root in_venv opts)
                    (directories_below [tp] p) = false) as Hdirs.
  { intros tp. apply not_true_iff_false. intros Hall.
    rewrite forallb_forall in Hall.
    specialize (Hall ((first :: between) ++ [dir])%list).
    unfold recurse in Hall.
    rewrite norecurse_by_name in Hall by done.
    rewrite andb_false_r in Hall.
    discriminate Hall.
    apply list_elem_of_In. unfold directories_below.
    apply list_elem_of_fmap. exists (S (S (length between))). split.
    - unfold p. cbn [take app]. f_equal.
      replace (S (length between)) with (length between + 1)%nat by lia.
      by rewrite take_app_add.
    - apply elem_of_seq. unfold p. simpl. rewrite length_app. simpl.
      destruct below; [done|]. simpl. lia. }
  cbn [testpaths tool_pytest_ini_options existsb].
  rewrite !Hdirs. by rewrite !andb_false_r.
Qed.

End MoreConfigurationFacts.

Section SubstituteFacts.
Context {num : Type} `{NumberDomain num}.

(** X21: [substitute()] on an object whose [expression] is the
    function [relativistic_breit_wigner] passes the variables first
    and the parameters after them; it returns the Breit-Wigner of the
    three symbols however they are split between [variables] and
    [parameters], and raises [TypeError] when the two tuples do not
    hold three values together. *)
Theorem substitute_passes_variables_then_parameters
    (vs ps : list (value num)) :
  let d := {| variables := VTuple vs; parameters := VTuple ps;
              expression := VFunction Fn_relativistic_breit_wigner |} in
  (∀ mass mass0 gamma0 : expr num,
     (vs ++ ps)%list = [VExpr mass; VExpr mass0; VExpr gamma0] →
     substitute d = Ok (VExpr (relativistic_breit_wigner mass mass0 gamma0)))
  ∧ (length vs + length ps ≠ 3 → substitute d = Raise TypeError)%nat.
Proof.
  intros d. unfold substitute, d. cbn [variables parameters expression iterate].
  cbn [mbind result_bind call]. split.
  - intros mass mass0 gamma0 ->. reflexivity.
  - intros Hlen. rewrite <- length_app in Hlen.
    destruct (vs ++ ps)%list as [|a [|b [|c [|e rest]]]]; simpl in Hlen;
      try lia; try reflexivity.
    + by destruct a.
    + destruct a; try reflexivity. by destruct b.
    + destruct a; try reflexivity. destruct b; try reflexivity.
      by destruct c.
Qed.

End SubstituteFacts.

Lemma pruned_directories_not_tested_witness :
  ".ipynb_checkpoints" ∈ [".ipynb_checkpoints"; ".virtual_documents"; "_build"]
  ∧ ["009-checkpoint.ipynb"] ≠ []
  ∧ tested tool_pytest_ini_options "/home/user/compwa.github.io"
      (λ _, false) nbmake_run
      ["docs"; "report"; ".ipynb_checkpoints"; "009-checkpoint.ipynb"] = false.
Proof.
  assert (".ipynb_checkpoints"
          ∈ [".ipynb_checkpoints"; ".virtual_documents"; "_build"]) as Hdir
    by (apply list_elem_of_here).
  assert (["009-checkpoint.ipynb"] ≠ []) as Hbelow by done.
  split; [exact Hdir|]. split; [exact Hbelow|].
  exact (pruned_directories_not_tested "/home/user/compwa.github.io"
           (λ _, false) "docs"
           ".ipynb_checkpoints" ["report"] ["009-checkpoint.ipynb"]
           Hdir Hbelow).
Defined.
